(** * CoralKM: a shallow embedding of the protocol core

    The definitions follow the TypeScript sources of the repository:

    - [ReportProblem]      protocols/report-problem-v2-protocol.ts
    - [DIDComm]            didcomm-protocols-interface.ts, didcomm-utils.ts
    - [DIDCommEngine]      dicomm-protocols-message-handler.ts,
                           didcomm-protocols-plugin.ts
    - [GuardianStore]      the in-memory guardian store
    - [CoralKM]            coralkm-protocol/coralkm-protocol-handler.ts
    - [Base64], [EncryptionManager]  the wallet's encryption helper
    - [Wallet]             wallet/src/providers/wallet/wallet.ts

    JavaScript strings are modelled as [string]; values that may be
    [undefined] as [option]; a thrown exception as the error side of a
    sum; an object mutated in place as a value passed in and returned.
    Platform services the sources call but do not define (uuid generation,
    the clock, SHA-256, AES-GCM, JSON, the Shamir library) are parameters
    of the definitions that use them.  [Reference] and [ReferenceWeb]
    give instances of these services on which the definitions run; the
    modules whose names end in [Facts] hold the properties. *)

From Stdlib Require Import ZArith NArith Ascii String List Lia QArith Qround.
From stdpp Require Import base option gmap strings list sorting pretty.
From Equations Require Import Equations.

Open Scope string_scope.

(** ** JavaScript truthiness for the value shapes the sources test *)

Module JS.

(** [!!s] for a string: only the empty string is falsy. *)
Definition truthy_string (s : string) : bool :=
  match s with
  | EmptyString => false
  | String _ _ => true
  end.

(** [!!v] for an optional string ([undefined] is falsy). *)
Definition truthy (v : option string) : bool :=
  match v with
  | Some s => truthy_string s
  | None => false
  end.

(** [a || b] where [a] may be undefined and [b] is a string. *)
Definition or_else (a : option string) (b : string) : string :=
  match a with
  | Some s => if truthy_string s then s else b
  | None => b
  end.

(** [!!n] for a number: zero is falsy. *)
Definition truthy_number (n : Z) : bool := negb (n =? 0)%Z.

(** [!!o] for an object: always true. *)
Definition truthy_object {A} (_ : A) : bool := true.

Definition inspect {A} (a : A) : {b | a = b} := exist _ a eq_refl.

End JS.

(** ** Problem Report 2.0: comment processing *)

Module ReportProblem.

(** [\d] of a JavaScript regular expression without the unicode flag. *)
Definition is_digit (c : ascii) : bool :=
  (48 <=? nat_of_ascii c)%nat && (nat_of_ascii c <=? 57)%nat.

(** The longest prefix of digits ([\d*], greedy) and what follows it. *)
Fixpoint span_digits (s : string) : string * string :=
  match s with
  | String c s' =>
      if is_digit c
      then (let '(ds, r) := span_digits s' in (String c ds, r))
      else (EmptyString, s)
  | EmptyString => (EmptyString, EmptyString)
  end.

(** An anchored match of [/\{(\d+)\}/] at the start of [s]: the captured
    digits and the text after the closing brace.  The digit run is
    followed by a non-digit, so no shorter run can reach a brace and the
    greedy match is the only candidate. *)
Definition match_placeholder (s : string) : option (string * string) :=
  match s with
  | String "{"%char s1 =>
      match span_digits s1 with
      | (String d ds, String "}"%char rest) => Some (String d ds, rest)
      | _ => None
      end
  | _ => None
  end.

(** [String.prototype.replace] with the global pattern [/\{(\d+)\}/g] and
    a replacer function [f] applied to the captured group: matches are
    taken leftmost first and do not overlap; the replacement text is not
    scanned again. *)
Equations? replace_placeholders (f : string -> string) (s : string) : string
  by wf (String.length s) lt :=
  replace_placeholders f EmptyString := EmptyString;
  replace_placeholders f (String c s')
    with JS.inspect (match_placeholder (String c s')) => {
    | exist _ (Some (ds, rest)) Hm := f ds +:+ replace_placeholders f rest;
    | exist _ None _ := String c (replace_placeholders f s') }.
Proof.
  assert (Hlen : forall t, (String.length (span_digits t).2 <= String.length t)%nat).
  { induction t as [|a t IH]; cbn [span_digits]; [cbn; lia|].
    destruct (is_digit a); [|cbn; lia].
    destruct (span_digits t) as [ds' r']; cbn in *; lia. }
  destruct c as [[] [] [] [] [] [] [] []]; try discriminate Hm.
  specialize (Hlen s'). destruct (span_digits s') as [d r].
  destruct d as [|d0 d']; [discriminate Hm|].
  destruct r as [|r0 r']; [discriminate Hm|].
  destruct r0 as [[] [] [] [] [] [] [] []]; try discriminate Hm.
  injection Hm as _ <-. cbn in *. lia.
Qed.

(** [parseInt(index, 10)] on a non-empty string of decimal digits. *)
Definition digit_value (c : ascii) : Z := Z.of_nat (nat_of_ascii c) - 48.

Fixpoint parseInt_acc (acc : Z) (s : string) : Z :=
  match s with
  | EmptyString => acc
  | String c s' => parseInt_acc (10 * acc + digit_value c) s'
  end.

Definition parseInt (s : string) : Z := parseInt_acc 0 s.

(** [args[i]]: [undefined] outside [0 .. args.length - 1]. *)
Definition array_get (args : list string) (i : Z) : option string :=
  if (i <? 0)%Z then None else args !! Z.to_nat i.

(** The replacer: [(_, index) => { const i = parseInt(index, 10) - 1;
    return args[i] !== undefined ? args[i] : `{${index}}` }]. *)
Definition replacer (args : list string) (index : string) : string :=
  let i := (parseInt index - 1)%Z in
  match array_get args i with
  | Some a => a
  | None => "{" +:+ index +:+ "}"
  end.

(** A string of decimal digits. *)
Fixpoint all_digits (s : string) : bool :=
  match s with
  | EmptyString => true
  | String c s' => is_digit c && all_digits s'
  end.

(** [comment] contains a numbered placeholder: a brace, one or more
    decimal digits, a closing brace. *)
Definition has_placeholder (comment : string) : Prop :=
  exists pre ds post,
    comment = pre +:+ "{" +:+ ds +:+ "}" +:+ post /\
    all_digits ds = true /\ ds <> EmptyString.

(** [_processComment(comment, args)]; [args] may be null or undefined. *)
Definition _processComment (comment : string) (args : option (list string)) : string :=
  match args with
  | None => comment
  | Some [] => comment
  | Some a => replace_placeholders (replacer a) comment
  end.

End ReportProblem.

(** ** DIDComm messages, errors and the utilities of didcomm-utils.ts *)

Module DIDComm.

(** [IDIDCommMessageType]: the components of a message type URI. *)
Record IDIDCommMessageType := {
  piuri : string;
  version : string;
  type : string;
}.

(** What a handler can throw: a [DIDCommProtocolError] (message, code,
    messageType, args) or any other [Error]. *)
Inductive Error :=
| DIDCommProtocolError (message : string) (code : string)
    (messageType : IDIDCommMessageType) (args : option (list string))
| PlainError (message : string).

Definition Result (A : Type) : Type := A + Error.
Definition ok {A} (a : A) : Result A := inl a.
Definition throw {A} (e : Error) : Result A := inr e.

Definition error_message (e : Error) : string :=
  match e with
  | DIDCommProtocolError m _ _ _ => m
  | PlainError m => m
  end.

(** [INamespace] and [IVerificationChallenge] of coralkm-protocol/types.ts. *)
Record INamespace := {
  ns_id : string;
  gateway_did : string;
}.

Inductive ChallengeType := question | code.

Record IVerificationChallenge := {
  challenge_id : string;
  challenge_type : ChallengeType;
  instructions : string;
}.

(** The bodies of the outgoing messages built by the [createMessage]
    functions modelled here. *)
Inductive Body :=
| BodyProblemReport (code : string) (comment : option string)
    (args : option (list string)) (escalate_to : option string)
| BodyReason (reason : string)
| BodyShareUpdate (namespace : INamespace) (threshold : Z)
    (share : option string) (delay : Z)
| BodyChallenge (challenge : IVerificationChallenge) (pthid : string)
| BodyChallengeResponse (challenge_id : string) (response : string) (pthid : string)
| BodyReleaseShare (share : string) (threshold : option Z) (pthid : string).

(** [IDIDCommMessage]: an outgoing plain message.  The non-null
    assertions [message.to!] and [message.from!] of the sources do not
    check anything, so [from] and the single element of [to] may be
    undefined. *)
Record IDIDCommMessage := {
  id : string;
  mtype : string;
  from : option string;
  to : list (option string);
  thid : option string;
  pthid : option string;
  body : option Body;
}.

(** The fields of an incoming message body ([message.data]) read by the
    handlers modelled here; an absent field is undefined. *)
Record MessageData := {
  data_device_did : option string;
  data_namespace : option INamespace;
  data_expires_at : option string;
  data_response : option string;
  data_challenge_id : option string;
  data_pthid : option string;
  data_share : option string;
  data_threshold : option Z;
  data_code : option string;
  data_comment : option string;
  data_args : option (list string);
  data_escalate_to : option string;
}.

(** Entries of [message.metaData].  The sources store the value as a
    JSON text; the object it serialises is kept here. *)
Inductive MetaData :=
| ReturnRouteResponse (id : string) (message : IDIDCommMessage) (contentType : string)
| DecodedReleasedShare (share : string) (threshold : Z) (request_id : option string)
| DecodedErrorReport (code : string) (pthid : option string)
    (comment : option string) (escalate_to : option string).

(** The incoming [Message] of the message-handler chain. *)
Record Message := {
  msg_id : string;
  msg_type : string;
  msg_from : option string;
  msg_to : option string;
  threadId : option string;
  data : option MessageData;
  metaData : list MetaData;
}.

Definition addMetaData (m : Message) (meta : MetaData) : Message :=
  {| msg_id := msg_id m; msg_type := msg_type m; msg_from := msg_from m;
     msg_to := msg_to m; threadId := threadId m; data := data m;
     metaData := metaData m ++ [meta] |}.

(** Reading [message.data.<field>]: when the message has no body, the
    [TypeError] of reading a property of [undefined], with the message
    that V8 gives it. *)
Definition get_data (field : string) (m : Message) : Result MessageData :=
  match data m with
  | Some d => ok d
  | None => throw (PlainError ("Cannot read properties of undefined (reading '"
                               +:+ field +:+ "')"))
  end.

(** [getFullMessageType]. *)
Definition getFullMessageType (mt : IDIDCommMessageType) : string :=
  piuri mt +:+ "/" +:+ version mt +:+ "/" +:+ type mt.

(** [assertMessageFieldDefined(value, name, messageType)]: throws when
    [!value] (the value is undefined or falsy); otherwise the value is
    known to be defined, which the result records.  [truthy] is the
    truthiness test of the value's type. *)
Definition assertMessageFieldDefined {A} (truthy : A -> bool) (value : option A)
    (name : string) (mt : IDIDCommMessageType) : Result A :=
  match value with
  | Some v =>
      if truthy v then ok v
      else throw (DIDCommProtocolError
                    "invalid_argument:  Protocol Message {1} received without {2} set"
                    "invalid_argument" mt (Some [getFullMessageType mt; name]))
  | None =>
      throw (DIDCommProtocolError
               "invalid_argument:  Protocol Message {1} received without {2} set"
               "invalid_argument" mt (Some [getFullMessageType mt; name]))
  end.

(** [assertRole(requiredRole, agentRoles, messageType)]. *)
Definition assertRole (requiredRole : string) (agentRoles : list string)
    (mt : IDIDCommMessageType) : Result unit :=
  if bool_decide (requiredRole ∈ agentRoles) then ok tt
  else throw (DIDCommProtocolError
                "invalid_role:  Protocol Message {1} received by agent without required role {2}"
                "invalid_role" mt (Some [getFullMessageType mt; requiredRole])).

(** [throwUnsupportedMessageType(messageType)]. *)
Definition throwUnsupportedMessageType {A} (mt : IDIDCommMessageType) : Result A :=
  throw (DIDCommProtocolError
           "unsupported_message_type: Protocol Message {1} of type {2} is not supported"
           "unsupported_message_type" mt (Some [getFullMessageType mt; type mt])).

(** Sequencing of computations that may throw. *)
Definition bind {A B} (r : Result A) (k : A -> Result B) : Result B :=
  match r with
  | inl a => k a
  | inr e => inr e
  end.

End DIDComm.

Notation "x <-! r ; k" := (DIDComm.bind r (fun x => k))
  (at level 100, r at next level, right associativity, only parsing).
Notation "r ;;! k" := (DIDComm.bind r (fun _ => k))
  (at level 100, right associativity, only parsing).

(** ** The message-handler plugin (dicomm-protocols-message-handler.ts)
       and the Problem Report protocol's [createMessage] *)

Module DIDCommEngine.
Import DIDComm.

Definition PROBLEM_REPORT : string :=
  "https://didcomm.org/report-problem/2.0/problem-report".

(** [DIDCommMessageMediaType.PLAIN] of @veramo/did-comm. *)
Definition PLAIN : string := "application/didcomm-plain+json".

(** [ReportProblemArgs]. *)
Record ReportProblemArgs := {
  rp_from : option string;
  rp_to : option string;
  rp_pthid : string;
  rp_code : string;
  rp_comment : option string;
  rp_args : option (list string);
  rp_escalate_to : option string;
}.

(** [IProtocolMessageArgs]: the arguments of the Problem Report protocol,
    or those of another protocol (only their [type] matters here). *)
Inductive IProtocolMessageArgs :=
| ProblemReportArgs (a : ReportProblemArgs)
| OtherProtocolArgs (type : string).

(** [IDIDCommProtocolHandler].  [createMessage] receives the identifier
    that [v4()] returns.  [handle] yields the metadata entries it added to
    the incoming message and either its reply or what it threw. *)
Record IDIDCommProtocolHandler := {
  name : string;
  handler_version : string;
  handler_piuri : string;
  createMessage : string -> IProtocolMessageArgs -> Result IDIDCommMessage;
  handle : IDIDCommMessageType -> Message ->
           list MetaData * Result (option IDIDCommMessage);
}.

(** [DCReportProblemProtocolV2.createMessage]. *)
Definition ReportProblem_createMessage (uuid : string) (args : IProtocolMessageArgs)
    : Result IDIDCommMessage :=
  match args with
  | ProblemReportArgs a =>
      ok {| id := uuid;
            mtype := PROBLEM_REPORT;
            from := rp_from a;
            to := [rp_to a];
            thid := None;
            pthid := Some (rp_pthid a);
            body := Some (BodyProblemReport (rp_code a) (rp_comment a)
                            (rp_args a) (rp_escalate_to a)) |}
  | OtherProtocolArgs _ =>
      throw (PlainError "unsupported_message_type is not supported by Problem Report v2.0")
  end.

(** [DCReportProblemProtocolV2.handle]: a one-way message; the report is
    decoded into the metadata and there is no reply. *)
Definition ReportProblem_handle (messageType : IDIDCommMessageType)
    (message : Message) : list MetaData * Result (option IDIDCommMessage) :=
  match get_data "code" message with
  | inr e => ([], inr e)
  | inl d =>
      match assertMessageFieldDefined JS.truthy_string (data_code d) "body.code" messageType with
      | inr e => ([], inr e)
      | inl report_code =>
          let comment :=
            match data_comment d with
            | Some c => if JS.truthy_string c
                        then Some (ReportProblem._processComment c (data_args d))
                        else None
            | None => None
            end in
          let escalate_to :=
            if JS.truthy (data_escalate_to d) then data_escalate_to d else None in
          ([DecodedErrorReport report_code (data_pthid d)
              comment escalate_to],
           ok None)
      end
  end.

Section Handler.
(** [getMessageType] of didcomm-utils.ts splits a type URI with a
    regular expression; the engine only uses its result. *)
Variable getMessageType : string -> Result IDIDCommMessageType.
(** The plugin's [protocols] map, keyed by ["<piuri>/<version>"]. *)
Variable protocols : gmap string IDIDCommProtocolHandler.
(** [super.handle]: the rest of the message-handler chain. *)
Variable super_handle : Message -> Result Message.

(** [DIDCommProtocols.getDIDCommProtocol]. *)
Definition getDIDCommProtocol (messageType : string)
    : Result IDIDCommProtocolHandler :=
  mt <-! getMessageType messageType;
  match protocols !! (piuri mt +:+ "/" +:+ version mt) with
  | Some protocol => ok protocol
  | None => throw (PlainError
              ("No protocol handler found for message type: " +:+ messageType))
  end.

(** The body of the [try] block up to the handler's answer. *)
Definition dispatch (message : Message)
    : list MetaData * Result (option IDIDCommMessage) :=
  match getDIDCommProtocol (msg_type message) with
  | inr e => ([], inr e)
  | inl protocol =>
      match getMessageType (msg_type message) with
      | inr e => ([], inr e)
      | inl messageType => handle protocol messageType message
      end
  end.

(** The [catch] branch: the problem report built for a thrown error. *)
Definition problemReport (uuid : string) (message : Message) (error : Error)
    : Result IDIDCommMessage :=
  problemReportProtocol <-! getDIDCommProtocol PROBLEM_REPORT;
  match error with
  | DIDCommProtocolError emsg ecode _ eargs =>
      createMessage problemReportProtocol uuid
        (ProblemReportArgs
           {| rp_from := msg_to message;
              rp_to := msg_from message;
              rp_pthid := JS.or_else (threadId message) (msg_id message);
              rp_code := ecode;
              rp_comment := Some emsg;
              rp_args := eargs;
              rp_escalate_to := None |})
  | PlainError emsg =>
      createMessage problemReportProtocol uuid
        (ProblemReportArgs
           {| rp_from := msg_to message;
              rp_to := msg_from message;
              rp_pthid := JS.or_else (threadId message) (msg_id message);
              rp_code := "internal_error";
              rp_comment := Some emsg;
              rp_args := None;
              rp_escalate_to := None |})
  end.

(** The message as [DIDCommProtocolMessageHandler.handle] passes it to
    [super.handle]: the incoming message with the handler's metadata
    and, when there is a reply or a problem report, one
    [ReturnRouteResponse] entry. *)
Definition annotate (uuid : string) (message : Message) : Result Message :=
  let '(added, outcome) := dispatch message in
  let message' := fold_left addMetaData added message in
  match outcome with
  | inl (Some response) =>
      ok (addMetaData message' (ReturnRouteResponse (id response) response PLAIN))
  | inl None => ok message'
  | inr error =>
      report <-! problemReport uuid message' error;
      ok (addMetaData message' (ReturnRouteResponse (id report) report PLAIN))
  end.

(** [DIDCommProtocolMessageHandler.handle]. *)
Definition handle_message (uuid : string) (message : Message) : Result Message :=
  message' <-! annotate uuid message;
  super_handle message'.

End Handler.

(** The handler object registered by default for Problem Report 2.0. *)
Definition DCReportProblemProtocolV2 : IDIDCommProtocolHandler :=
  {| name := "Problem Report";
     handler_version := "2.0";
     handler_piuri := "https://didcomm.org/report-problem";
     createMessage := ReportProblem_createMessage;
     handle := ReportProblem_handle |}.

End DIDCommEngine.

(** ** The in-memory guardian store (MemoryGuardianStore) *)

(** Platform services used by the store: the hexadecimal SHA-256 digest
    computed through [crypto.subtle.digest] and the [Date] constructor
    applied to an ISO string (as milliseconds since the epoch). *)
Class Platform := {
  sha256_hex : string -> string;
  Date_parse : string -> Z;
}.

Module GuardianStore.
Import DIDComm.

(** [RequestPolicy]. *)
Inductive RequestPolicy := GRANTED | DENIED.

#[global] Instance RequestPolicy_eq_dec : EqDecision RequestPolicy.
Proof. solve_decision. Defined.

Record ICoralKMGuardianPolicy := {
  requesterDid : string;
  status : RequestPolicy;
}.

Record ICoralKMShare := {
  ownerDid : string;
  share_namespace_id : string;
  share_namespace_gateway : string;
  updatedAt : Z;
  threshold : option Z;
  share : string;
}.

Record ICoralKMRecoveryRequest := {
  request_id : string;
  deviceDid : string;
  namespace : INamespace;
  createdAt : Z;
  expiresAt : Z;
}.

(** The three private maps of [MemoryGuardianStore]. *)
Record MemoryGuardianStore := {
  guardianPolicies : gmap string ICoralKMGuardianPolicy;
  shares : gmap string ICoralKMShare;
  recoveryRequests : gmap string ICoralKMRecoveryRequest;
}.

Definition empty : MemoryGuardianStore :=
  {| guardianPolicies := ∅; shares := ∅; recoveryRequests := ∅ |}.

Section Store.
Context {P : Platform}.

(** [_hashKey(gateway, nid)]: the digest of [`${gateway}:${nid}`]. *)
Definition _hashKey (gateway nid : string) : string :=
  sha256_hex (gateway +:+ ":" +:+ nid).

Definition getGuardianPolicy (st : MemoryGuardianStore) (requester : string)
    : option ICoralKMGuardianPolicy :=
  guardianPolicies st !! requester.

Definition setGuardianPolicy (st : MemoryGuardianStore) (requester : string)
    (policy : RequestPolicy) : MemoryGuardianStore :=
  {| guardianPolicies :=
       <[requester := {| requesterDid := requester; status := policy |}]>
         (guardianPolicies st);
     shares := shares st;
     recoveryRequests := recoveryRequests st |}.

(** [removeGuardianPolicy]: deletes the policy entry, then every share
    whose [ownerDid] is the requester; the result is
    [!this.guardianPolicies.has(requesterDid)]. *)
Definition removeGuardianPolicy (st : MemoryGuardianStore) (requester : string)
    : bool * MemoryGuardianStore :=
  let policies' := delete requester (guardianPolicies st) in
  let shares' :=
    filter (fun kv : string * ICoralKMShare => ownerDid kv.2 ≠ requester)
           (shares st) in
  (negb (bool_decide (is_Some (policies' !! requester))),
   {| guardianPolicies := policies';
      shares := shares';
      recoveryRequests := recoveryRequests st |}).

Definition isGuardian (st : MemoryGuardianStore) (gateway nid : string) : bool :=
  bool_decide (is_Some (shares st !! _hashKey gateway nid)).

(** [saveShare]; [now] is the value of [new Date()]. *)
Definition saveShare (now : Z) (st : MemoryGuardianStore)
    (owner gateway nid : string) (thr : option Z) (sh : string)
    : Result bool * MemoryGuardianStore :=
  match getGuardianPolicy st owner with
  | Some {| status := GRANTED |} =>
      let shareData :=
        {| ownerDid := owner; share_namespace_id := nid;
           share_namespace_gateway := gateway; updatedAt := now;
           threshold := thr; share := sh |} in
      (ok true,
       {| guardianPolicies := guardianPolicies st;
          shares := <[_hashKey gateway nid := shareData]> (shares st);
          recoveryRequests := recoveryRequests st |})
  | _ =>
      (throw (PlainError
         "Cannot save share: Guardian policy not granted for this owner DID."),
       st)
  end.

Definition getShare (st : MemoryGuardianStore) (gateway nid : string)
    : option ICoralKMShare :=
  shares st !! _hashKey gateway nid.

(** [deleteShare]: the result of [Map.delete] tells whether the key
    was present. *)
Definition deleteShare (st : MemoryGuardianStore) (gateway nid : string)
    : bool * MemoryGuardianStore :=
  (bool_decide (is_Some (shares st !! _hashKey gateway nid)),
   {| guardianPolicies := guardianPolicies st;
      shares := delete (_hashKey gateway nid) (shares st);
      recoveryRequests := recoveryRequests st |}).

Definition saveRecoveryRequest (now : Z) (st : MemoryGuardianStore)
    (device : string) (ns : INamespace) (requestId : string) (expires : string)
    : ICoralKMRecoveryRequest * MemoryGuardianStore :=
  let recoveryRequest :=
    {| request_id := requestId; deviceDid := device; namespace := ns;
       createdAt := now; expiresAt := Date_parse expires |} in
  (recoveryRequest,
   {| guardianPolicies := guardianPolicies st;
      shares := shares st;
      recoveryRequests := <[requestId := recoveryRequest]> (recoveryRequests st) |}).

Definition getRecoveryRequest (st : MemoryGuardianStore) (requestId : string)
    : option ICoralKMRecoveryRequest :=
  recoveryRequests st !! requestId.

Definition deleteRecoveryRequest (st : MemoryGuardianStore) (requestId : string)
    : bool * MemoryGuardianStore :=
  (bool_decide (is_Some (recoveryRequests st !! requestId)),
   {| guardianPolicies := guardianPolicies st;
      shares := shares st;
      recoveryRequests := delete requestId (recoveryRequests st) |}).

End Store.

(** The store with the expiry of one recovery request replaced (used to
    state that a computation does not read it). *)
Definition with_expiry (st : MemoryGuardianStore) (requestId : string) (e : Z)
    : MemoryGuardianStore :=
  {| guardianPolicies := guardianPolicies st;
     shares := shares st;
     recoveryRequests :=
       alter (fun r => {| request_id := request_id r; deviceDid := deviceDid r;
                          namespace := namespace r; createdAt := createdAt r;
                          expiresAt := e |})
             requestId (recoveryRequests st) |}.

End GuardianStore.

(** ** The CoralKM 0.1 protocol handler (coralkm-protocol-handler.ts) *)

Module CoralKM.
Import DIDComm GuardianStore.

(** Modelled from the spec: coralkm-constants.ts is not among the
    sources; the specification gives the prefix of the type URIs. *)
Definition CORALKM_PROTOCOL_PREFIX : string := "https://coralstack.com/coralkm/0.1".

Definition GUARDIAN_REQUEST := CORALKM_PROTOCOL_PREFIX +:+ "/guardian-request".
Definition GUARDIAN_GRANT := CORALKM_PROTOCOL_PREFIX +:+ "/guardian-grant".
Definition GUARDIAN_DENY := CORALKM_PROTOCOL_PREFIX +:+ "/guardian-deny".
Definition GUARDIAN_REMOVE := CORALKM_PROTOCOL_PREFIX +:+ "/guardian-remove".
Definition GUARDIAN_REMOVE_CONFIRM := CORALKM_PROTOCOL_PREFIX +:+ "/guardian-remove-confirm".
Definition GUARDIAN_SHARE_UPDATE := CORALKM_PROTOCOL_PREFIX +:+ "/guardian-share-update".
Definition GUARDIAN_SHARE_UPDATE_CONFIRM :=
  CORALKM_PROTOCOL_PREFIX +:+ "/guardian-share-update-confirm".
Definition GUARDIAN_VERIFICATION_CHALLENGE :=
  CORALKM_PROTOCOL_PREFIX +:+ "/guardian-verification-challenge".
Definition GUARDIAN_VERIFICATION_CHALLENGE_RESPONSE :=
  CORALKM_PROTOCOL_PREFIX +:+ "/guardian-verification-challenge-response".
Definition GUARDIAN_RELEASE_SHARE := CORALKM_PROTOCOL_PREFIX +:+ "/guardian-release-share".

(** [CoralKMRoles]. *)
Inductive CoralKMRoles := wallet | gateway | guardian.

Definition role_name (r : CoralKMRoles) : string :=
  match r with
  | wallet => "wallet"
  | gateway => "gateway"
  | guardian => "guardian"
  end.

(** The arguments of [createMessage] for the guardian message types. *)
Inductive CoralKMArgs :=
| GuardianRequestArgs (from to : option string)
| GuardianGrantArgs (from to : option string) (thid : string)
| GuardianDenyArgs (from to : option string) (thid : string) (reason : option string)
| GuardianRemoveArgs (from to : option string)
| GuardianRemoveConfirmArgs (from to : option string) (thid : string)
| GuardianShareUpdateArgs (from to : option string) (namespace : INamespace)
    (threshold : Z) (share : option string) (delay : option Z)
| GuardianShareUpdateConfirmArgs (from to : option string) (thid : string)
| GuardianVerificationChallengeArgs (from to : option string) (pthid : string)
    (challenge : IVerificationChallenge)
| GuardianVerificationChallengeResponseArgs (from to : option string)
    (pthid thid : string) (challenge_id response : string)
| GuardianReleaseShareArgs (from to : option string) (pthid : string)
    (share : string) (threshold : option Z).

Definition plain (uuid type : string) (from to : option string)
    (thid pthid : option string) (body : option Body) : IDIDCommMessage :=
  {| id := uuid; mtype := type; from := from; to := [to];
     thid := thid; pthid := pthid; body := body |}.

(** [createMessage], for the guardian message types; [uuid] is the value
    of [v4()]. *)
Definition createMessage (uuid : string) (args : CoralKMArgs) : IDIDCommMessage :=
  match args with
  | GuardianRequestArgs from to =>
      plain uuid GUARDIAN_REQUEST from to None None None
  | GuardianGrantArgs from to thid =>
      plain uuid GUARDIAN_GRANT from to (Some thid) None None
  | GuardianDenyArgs from to thid reason =>
      plain uuid GUARDIAN_DENY from to (Some thid) None
        (match reason with
         | Some r => if JS.truthy_string r then Some (BodyReason r) else None
         | None => None
         end)
  | GuardianRemoveArgs from to =>
      plain uuid GUARDIAN_REMOVE from to None None None
  | GuardianRemoveConfirmArgs from to thid =>
      plain uuid GUARDIAN_REMOVE_CONFIRM from to (Some thid) None None
  | GuardianShareUpdateArgs from to namespace threshold share delay =>
      plain uuid GUARDIAN_SHARE_UPDATE from to None None
        (Some (BodyShareUpdate namespace threshold share (default 0%Z delay)))
  | GuardianShareUpdateConfirmArgs from to thid =>
      plain uuid GUARDIAN_SHARE_UPDATE_CONFIRM from to (Some thid) None None
  | GuardianVerificationChallengeArgs from to pthid challenge =>
      plain uuid GUARDIAN_VERIFICATION_CHALLENGE from to None (Some pthid)
        (Some (BodyChallenge challenge pthid))
  | GuardianVerificationChallengeResponseArgs from to pthid thid challenge_id response =>
      plain uuid GUARDIAN_VERIFICATION_CHALLENGE_RESPONSE from to (Some thid) (Some pthid)
        (Some (BodyChallengeResponse challenge_id response pthid))
  | GuardianReleaseShareArgs from to pthid share threshold =>
      plain uuid GUARDIAN_RELEASE_SHARE from to None (Some pthid)
        (Some (BodyReleaseShare share threshold pthid))
  end.

(** The state of a [DCCoralKMProtocolV01] object that the guardian
    handlers use. *)
Record DCCoralKMProtocolV01 := {
  roles : list CoralKMRoles;
  guardianStore : option MemoryGuardianStore;
  _guardian_did : option string;
}.

Definition with_store (this : DCCoralKMProtocolV01) (st : MemoryGuardianStore)
    : DCCoralKMProtocolV01 :=
  {| roles := roles this; guardianStore := Some st;
     _guardian_did := _guardian_did this |}.

Definition assertRole (required : CoralKMRoles) (this : DCCoralKMProtocolV01)
    (mt : IDIDCommMessageType) : Result unit :=
  DIDComm.assertRole (role_name required) (role_name <$> roles this) mt.

(** [if (!this.guardianStore) throw new DIDCommProtocolError(...)]. *)
Definition requireGuardianStore (this : DCCoralKMProtocolV01)
    (mt : IDIDCommMessageType) : Result MemoryGuardianStore :=
  match guardianStore this with
  | Some st => ok st
  | None => throw (DIDCommProtocolError
              "Guardian role requires a GuardianStore implementation"
              "e.guardian_not_configured" mt (Some []))
  end.

(** A handler case: the reply (or what was thrown) and the handler
    object afterwards. *)
Definition Handled : Type := Result (option IDIDCommMessage) * DCCoralKMProtocolV01.

Section Handle.
Context {P : Platform}.

(** [case 'namespace-recovery-request'].  [now] is the clock reading
    taken by the store; [challenge_uuid] and [uuid] are the two
    identifiers drawn from [v4()]. *)
Definition handle_namespace_recovery_request (now : Z) (challenge_uuid uuid : string)
    (this : DCCoralKMProtocolV01) (messageType : IDIDCommMessageType)
    (message : Message) : Handled :=
  match
    (assertRole guardian this messageType ;;!
     d <-! get_data "device_did" message;
     device_did <-! assertMessageFieldDefined JS.truthy_string
                      (data_device_did d) "body.device_did" messageType;
     ns <-! assertMessageFieldDefined JS.truthy_object
              (data_namespace d) "body.namespace" messageType;
     expires_at <-! assertMessageFieldDefined JS.truthy_string
                      (data_expires_at d) "body.expires_at" messageType;
     st <-! requireGuardianStore this messageType;
     ok (device_did, ns, expires_at, st))
  with
  | inr e => (inr e, this)
  | inl (device_did, ns, expires_at, st) =>
      if isGuardian st (gateway_did ns) (ns_id ns) then
        let '(_, st') :=
          saveRecoveryRequest now st device_did ns (msg_id message) expires_at in
        (ok (Some (createMessage uuid
                     (GuardianVerificationChallengeArgs
                        (_guardian_did this) (Some device_did) (msg_id message)
                        {| challenge_id := challenge_uuid;
                           challenge_type := code;
                           instructions :=
                             "Please enter your verification code provided by your guardian."
                        |}))),
         with_store this st')
      else (ok None, this)
  end.

(** [case 'guardian-request']. *)
Definition handle_guardian_request (uuid : string)
    (this : DCCoralKMProtocolV01) (messageType : IDIDCommMessageType)
    (message : Message) : Handled :=
  match
    (assertRole guardian this messageType ;;!
     from <-! assertMessageFieldDefined JS.truthy_string
                (msg_from message) "from" messageType;
     to <-! assertMessageFieldDefined JS.truthy_string
              (msg_to message) "to" messageType;
     ok (from, to))
  with
  | inr e => (inr e, this)
  | inl (from, to) =>
      let this1 := {| roles := roles this; guardianStore := guardianStore this;
                      _guardian_did := Some to |} in
      match requireGuardianStore this1 messageType with
      | inr e => (inr e, this1)
      | inl st =>
          let allow :=
            match getGuardianPolicy st from with
            | Some policy => bool_decide (status policy = GRANTED)
            | None => true
            end in
          if allow then
            (ok (Some (createMessage uuid
                         (GuardianGrantArgs (Some to) (Some from) (msg_id message)))),
             with_store this1 (setGuardianPolicy st from GRANTED))
          else
            (ok (Some (createMessage uuid
                         (GuardianDenyArgs (Some to) (Some from) (msg_id message)
                            (Some "Auto-deny for demonstration purposes.")))),
             with_store this1 (setGuardianPolicy st from DENIED))
      end
  end.

(** [case 'guardian-remove']. *)
Definition handle_guardian_remove (uuid : string)
    (this : DCCoralKMProtocolV01) (messageType : IDIDCommMessageType)
    (message : Message) : Handled :=
  match
    (assertRole guardian this messageType ;;!
     from <-! assertMessageFieldDefined JS.truthy_string
                (msg_from message) "from" messageType;
     to <-! assertMessageFieldDefined JS.truthy_string
              (msg_to message) "to" messageType;
     st <-! requireGuardianStore this messageType;
     ok (from, to, st))
  with
  | inr e => (inr e, this)
  | inl (from, to, st) =>
      let '(_, st') := removeGuardianPolicy st from in
      (ok (Some (createMessage uuid
                   (GuardianRemoveConfirmArgs (Some to) (Some from) (msg_id message)))),
       with_store this st')
  end.

(** [case 'guardian-share-update']. *)
Definition handle_guardian_share_update (now : Z) (uuid : string)
    (this : DCCoralKMProtocolV01) (messageType : IDIDCommMessageType)
    (message : Message) : Handled :=
  match
    (assertRole guardian this messageType ;;!
     from <-! assertMessageFieldDefined JS.truthy_string
                (msg_from message) "from" messageType;
     to <-! assertMessageFieldDefined JS.truthy_string
              (msg_to message) "to" messageType;
     d <-! get_data "share" message;
     sh <-! assertMessageFieldDefined JS.truthy_string
              (data_share d) "body.share" messageType;
     ns <-! assertMessageFieldDefined JS.truthy_object
              (data_namespace d) "body.namespace" messageType;
     st <-! requireGuardianStore this messageType;
     match getGuardianPolicy st from with
     | Some {| status := GRANTED |} => ok (from, to, d, sh, ns, st)
     | _ => throw (DIDCommProtocolError "No active guardianship for {1}"
                     "e.no_active_guardianship" messageType (Some [from]))
     end)
  with
  | inr e => (inr e, this)
  | inl (from, to, d, sh, ns, st) =>
      match saveShare now st from (gateway_did ns) (ns_id ns) (data_threshold d) sh with
      | (inr e, st') => (inr e, with_store this st')
      | (inl _, st') =>
          (ok (Some (createMessage uuid
                       (GuardianShareUpdateConfirmArgs (Some to) (Some from)
                          (msg_id message)))),
           with_store this st')
      end
  end.

(** [case 'guardian-verification-challenge-response']. *)
Definition handle_guardian_verification_challenge_response (uuid : string)
    (this : DCCoralKMProtocolV01) (messageType : IDIDCommMessageType)
    (message : Message) : Handled :=
  match
    (assertRole guardian this messageType ;;!
     from <-! assertMessageFieldDefined JS.truthy_string
                (msg_from message) "from" messageType;
     to <-! assertMessageFieldDefined JS.truthy_string
              (msg_to message) "to" messageType;
     d <-! get_data "response" message;
     response <-! assertMessageFieldDefined JS.truthy_string
                    (data_response d) "body.response" messageType;
     _ <-! assertMessageFieldDefined JS.truthy_string
             (data_challenge_id d) "body.challenge_id" messageType;
     pthid <-! assertMessageFieldDefined JS.truthy_string
                 (data_pthid d) "body.pthid" messageType;
     st <-! requireGuardianStore this messageType;
     ok (to, response, pthid, st))
  with
  | inr e => (inr e, this)
  | inl (to, response, pthid, st) =>
      match getRecoveryRequest st pthid with
      | None => (ok None, this)
      | Some recoveryRequest =>
          if String.eqb response "123456" then
            match getShare st (gateway_did (namespace recoveryRequest))
                              (ns_id (namespace recoveryRequest)) with
            | None => (ok None, this)
            | Some sh =>
                (ok (Some (createMessage uuid
                             (GuardianReleaseShareArgs (Some to)
                                (Some (deviceDid recoveryRequest)) pthid
                                (share sh) (threshold sh)))),
                 this)
            end
          else
            let '(_, st') := deleteRecoveryRequest st pthid in
            (ok None, with_store this st')
      end
  end.

(** [case 'guardian-release-share'] (wallet role): the decoded share is
    added to the message metadata and there is no reply. *)
Definition handle_guardian_release_share
    (this : DCCoralKMProtocolV01) (messageType : IDIDCommMessageType)
    (message : Message) : list MetaData * Result (option IDIDCommMessage) :=
  match
    (assertRole wallet this messageType ;;!
     d <-! get_data "share" message;
     sh <-! assertMessageFieldDefined JS.truthy_string
              (data_share d) "body.share" messageType;
     thr <-! assertMessageFieldDefined JS.truthy_number
               (data_threshold d) "body.threshold" messageType;
     ok (d, sh, thr))
  with
  | inr e => ([], inr e)
  | inl (d, sh, thr) => ([DecodedReleasedShare sh thr (data_pthid d)], ok None)
  end.

End Handle.

(** The handler object with the expiry of one stored recovery request
    replaced. *)
Definition with_expiry (this : DCCoralKMProtocolV01) (requestId : string) (e : Z)
    : DCCoralKMProtocolV01 :=
  {| roles := roles this;
     guardianStore := (fun st => GuardianStore.with_expiry st requestId e)
                        <$> guardianStore this;
     _guardian_did := _guardian_did this |}.

(** A message that passes the checks of the
    guardian-verification-challenge-response case at a guardian whose
    store is [st]. *)
Record valid_response (this : DCCoralKMProtocolV01) (message : Message)
    (st : MemoryGuardianStore) (to response pthid : string) : Prop := {
  vr_role : guardian ∈ roles this;
  vr_from : JS.truthy (msg_from message) = true;
  vr_to : msg_to message = Some to /\ to <> EmptyString;
  vr_response : (data_response <$> data message) = Some (Some response)
                /\ response <> EmptyString;
  vr_challenge_id : JS.truthy (data message ≫= data_challenge_id) = true;
  vr_pthid : (data_pthid <$> data message) = Some (Some pthid)
             /\ pthid <> EmptyString;
  vr_store : guardianStore this = Some st;
}.

(** A message that passes the checks of the guardian-remove case. *)
Record valid_remove (this : DCCoralKMProtocolV01) (message : Message)
    (st : MemoryGuardianStore) (from to : string) : Prop := {
  rm_role : guardian ∈ roles this;
  rm_from : msg_from message = Some from /\ from <> EmptyString;
  rm_to : msg_to message = Some to /\ to <> EmptyString;
  rm_store : guardianStore this = Some st;
}.

(** A message that passes the checks of the namespace-recovery-request
    case. *)
Record valid_recovery_request (this : DCCoralKMProtocolV01) (message : Message)
    (st : MemoryGuardianStore) (device : string) (ns : INamespace)
    (expires : string) : Prop := {
  rq_role : guardian ∈ roles this;
  rq_device : (data_device_did <$> data message) = Some (Some device)
              /\ device <> EmptyString;
  rq_namespace : (data_namespace <$> data message) = Some (Some ns);
  rq_expires : (data_expires_at <$> data message) = Some (Some expires)
               /\ expires <> EmptyString;
  rq_store : guardianStore this = Some st;
}.

End CoralKM.

(** ** Base64 ([btoa], [atob]) and the Base64URL helpers of encryption.ts *)

Module Base64.

(** A [Uint8Array]; also a binary string, one character per byte, as
    [String.fromCharCode(...bytes)] builds it. *)
Definition bytes : Type := list ascii.

Definition alphabet : list ascii :=
  list_ascii_of_string
    "ABCDEFGHIJKLMNOPQRSTUVWXYZabcdefghijklmnopqrstuvwxyz0123456789+/".

(** The character of a six-bit value. *)
Definition b64_char (n : N) : ascii := nth (N.to_nat n) alphabet "="%char.

Fixpoint index_of (c : ascii) (l : list ascii) (i : N) : option N :=
  match l with
  | [] => None
  | x :: l' => if Ascii.eqb x c then Some i else index_of c l' (N.succ i)
  end.

(** The six-bit value of an alphabet character. *)
Definition b64_index (c : ascii) : option N := index_of c alphabet 0.

Fixpoint encode_sextets (bs : bytes) : list N :=
  match bs with
  | a :: b :: c :: rest =>
      let n := (N_of_ascii a * 65536 + N_of_ascii b * 256 + N_of_ascii c)%N in
      (n / 262144)%N :: ((n / 4096) mod 64)%N :: ((n / 64) mod 64)%N :: (n mod 64)%N
        :: encode_sextets rest
  | [a; b] =>
      let n := (N_of_ascii a * 65536 + N_of_ascii b * 256)%N in
      [(n / 262144)%N; ((n / 4096) mod 64)%N; ((n / 64) mod 64)%N]
  | [a] =>
      let n := (N_of_ascii a * 65536)%N in
      [(n / 262144)%N; ((n / 4096) mod 64)%N]
  | [] => []
  end.

Definition padding (len : nat) : list ascii :=
  match (len mod 3)%nat with
  | 1%nat => ["="; "="]%char
  | 2%nat => ["="]%char
  | _ => []
  end.

(** [btoa] on a binary string. *)
Definition btoa (bs : bytes) : string :=
  string_of_list_ascii (map b64_char (encode_sextets bs) ++ padding (length bs))%list.

Fixpoint decode_sextets (sx : list N) : bytes :=
  match sx with
  | x :: y :: z :: w :: rest =>
      let n := (x * 262144 + y * 4096 + z * 64 + w)%N in
      ascii_of_N (n / 65536) :: ascii_of_N ((n / 256) mod 256)
        :: ascii_of_N (n mod 256) :: decode_sextets rest
  | [x; y; z] =>
      let n := (x * 262144 + y * 4096 + z * 64)%N in
      [ascii_of_N (n / 65536); ascii_of_N ((n / 256) mod 256)]
  | [x; y] =>
      let n := (x * 262144 + y * 4096)%N in
      [ascii_of_N (n / 65536)]
  | _ => []
  end.

Definition is_whitespace (c : ascii) : bool :=
  let n := nat_of_ascii c in
  (n =? 9)%nat || (n =? 10)%nat || (n =? 12)%nat || (n =? 13)%nat || (n =? 32)%nat.

(** Removes one or two trailing [=]. *)
Definition strip_padding (l : list ascii) : list ascii :=
  match rev l with
  | a :: b :: r =>
      if Ascii.eqb a "=" then
        if Ascii.eqb b "=" then rev r else rev (b :: r)
      else l
  | [a] => if Ascii.eqb a "=" then [] else l
  | [] => l
  end.

(** [atob]: the forgiving base64 decoding of the HTML standard; [None]
    stands for the [InvalidCharacterError] exception. *)
Definition atob (s : string) : option bytes :=
  let l1 := filter (fun c => is_whitespace c = false) (list_ascii_of_string s) in
  let l2 := if (length l1 mod 4 =? 0)%nat then strip_padding l1 else l1 in
  if (length l2 mod 4 =? 1)%nat then None
  else sx ← mapM b64_index l2; Some (decode_sextets sx).

(** [s.replace(/x/g, y)] for single characters [x] and [y]. *)
Definition replace_char (x y : ascii) (l : list ascii) : list ascii :=
  map (fun c => if Ascii.eqb c x then y else c) l.

(** [s.replace(/=+$/, '')]. *)
Fixpoint strip_trailing_eq_rev (r : list ascii) : list ascii :=
  match r with
  | c :: r' => if Ascii.eqb c "=" then strip_trailing_eq_rev r' else r
  | [] => []
  end.

Definition strip_trailing_eq (l : list ascii) : list ascii :=
  rev (strip_trailing_eq_rev (rev l)).

(** The Base64URL text of a byte array: [btoa] of its binary string, with
    [+] replaced by [-], [/] by [_], and the padding removed. *)
Definition base64url (bs : bytes) : string :=
  string_of_list_ascii
    (strip_trailing_eq
       (replace_char "/" "_"
          (replace_char "+" "-" (list_ascii_of_string (btoa bs))))).

(** [EncryptionManager.fromBase64Url]. *)
Definition fromBase64Url (b64url : string) : option bytes :=
  let b64 := replace_char "_" "/"
               (replace_char "-" "+" (list_ascii_of_string b64url)) in
  let pad := if (length b64 mod 4 =? 0)%nat then 0%nat
             else (4 - length b64 mod 4)%nat in
  let base64 := (b64 ++ repeat "="%char pad)%list in
  atob (string_of_list_ascii base64).

End Base64.

(** ** EncryptionManager (encryption.ts) *)

#[local] Set Warnings "-register-all".

(** JavaScript values that JSON can carry. *)
Inductive json :=
| JNull
| JBool (b : bool)
| JNum (n : Z)
| JStr (s : string)
| JArr (items : list json)
| JObj (fields : list (string * json)).

(** The services of the JavaScript platform used by [EncryptionManager]:
    [JSON.stringify] (plain and with a replacer array), [JSON.parse]
    ([None] is a [SyntaxError]), AES-GCM of [crypto.subtle] on an opaque
    [CryptoKey] ([None] on decryption is the [OperationError] raised when
    authentication fails), raw key export and import ([None] on import
    is the [DataError] raised for a raw AES key that is not of 128, 192 or
    256 bits), the shamir-secret-sharing library, and the number of
    arguments a call may have: [spread_accepted n] tells whether the
    engine takes a call with [n] arguments, which it answers with a
    [RangeError] otherwise. *)
Class WebPlatform := {
  CryptoKey : Type;
  JSON_stringify : json -> string;
  JSON_stringify_keys : json -> list string -> string;
  JSON_parse : string -> option json;
  aes_gcm_encrypt : CryptoKey -> Base64.bytes -> option Base64.bytes ->
                    Base64.bytes -> Base64.bytes;
  aes_gcm_decrypt : CryptoKey -> Base64.bytes -> option Base64.bytes ->
                    Base64.bytes -> option Base64.bytes;
  exportKey_raw : CryptoKey -> Base64.bytes;
  importKey_raw : Base64.bytes -> option CryptoKey;
  shamir_split : Base64.bytes -> Z -> Z -> option (list Base64.bytes);
  shamir_combine : list Base64.bytes -> option Base64.bytes;
  spread_accepted : nat -> bool;
}.

Module EncryptionManager.
Import Base64.

(** What [decrypt] can throw. *)
Inductive DecryptError :=
| SyntaxError
| TypeError
| UnsupportedAlg
| InvalidCharacterError
| AadPresenceMismatch
| AadContextMismatch
| OperationError.

(** The two errors whose message starts with ["AAD mismatch"]. *)
Definition is_aad_mismatch (e : DecryptError) : bool :=
  match e with
  | AadPresenceMismatch | AadContextMismatch => true
  | _ => false
  end.

(** A string is represented by the UTF-8 bytes of its code points.
    [new TextEncoder().encode] gives these bytes. *)
Definition utf8_encode (s : string) : bytes := list_ascii_of_string s.

(** The bytes of U+FFFD, the replacement character, and of U+FEFF, the
    byte order mark. *)
Definition REPLACEMENT : bytes := ascii_of_nat <$> [239; 191; 189]%nat.
Definition BOM : bytes := ascii_of_nat <$> [239; 187; 191]%nat.

Definition in_range (lower upper : nat) (b : ascii) : bool :=
  (lower <=? nat_of_ascii b)%nat && (nat_of_ascii b <=? upper)%nat.

(** The range of the byte that follows the lead byte [b] of a sequence of
    three or four bytes: 80-BF, narrowed after E0, ED, F0 and F4. *)
Definition lower_boundary (b : ascii) : nat :=
  if (nat_of_ascii b =? 224)%nat then 160
  else if (nat_of_ascii b =? 240)%nat then 144 else 128.
Definition upper_boundary (b : ascii) : nat :=
  if (nat_of_ascii b =? 237)%nat then 159
  else if (nat_of_ascii b =? 244)%nat then 143 else 191.

(** The UTF-8 decoder with the error mode "replacement": a well-formed
    sequence of one to four bytes is one code point and is kept; a byte
    that cannot start or continue a sequence ends the sequence read so
    far, which becomes U+FFFD, and is itself decoded again, as is a
    sequence cut short by the end of the input. *)
Fixpoint utf8_decoder (input : bytes) : bytes :=
  match input with
  | [] => []
  | b :: rest =>
      if in_range 0 127 b then b :: utf8_decoder rest
      else if in_range 194 223 b then
        match rest with
        | [] => REPLACEMENT
        | b1 :: rest1 =>
            if in_range 128 191 b1 then b :: b1 :: utf8_decoder rest1
            else (REPLACEMENT ++ utf8_decoder rest)%list
        end
      else if in_range 224 239 b then
        match rest with
        | [] => REPLACEMENT
        | b1 :: rest1 =>
            if in_range (lower_boundary b) (upper_boundary b) b1 then
              match rest1 with
              | [] => REPLACEMENT
              | b2 :: rest2 =>
                  if in_range 128 191 b2 then b :: b1 :: b2 :: utf8_decoder rest2
                  else (REPLACEMENT ++ utf8_decoder rest1)%list
              end
            else (REPLACEMENT ++ utf8_decoder rest)%list
        end
      else if in_range 240 244 b then
        match rest with
        | [] => REPLACEMENT
        | b1 :: rest1 =>
            if in_range (lower_boundary b) (upper_boundary b) b1 then
              match rest1 with
              | [] => REPLACEMENT
              | b2 :: rest2 =>
                  if in_range 128 191 b2 then
                    match rest2 with
                    | [] => REPLACEMENT
                    | b3 :: rest3 =>
                        if in_range 128 191 b3
                        then b :: b1 :: b2 :: b3 :: utf8_decoder rest3
                        else (REPLACEMENT ++ utf8_decoder rest2)%list
                    end
                  else (REPLACEMENT ++ utf8_decoder rest1)%list
              end
            else (REPLACEMENT ++ utf8_decoder rest)%list
        end
      else (REPLACEMENT ++ utf8_decoder rest)%list
  end.

(** A byte order mark at the very start is not part of the text. *)
Definition strip_BOM (text : bytes) : bytes :=
  match text with
  | b :: b1 :: b2 :: rest =>
      if bool_decide ([b; b1; b2] = BOM) then rest else text
  | _ => text
  end.

(** [new TextDecoder().decode(bytes)]: the decoder for UTF-8 with its
    defaults, which replaces malformed input ([fatal] is false) and drops a
    leading byte order mark ([ignoreBOM] is false). *)
Definition utf8_decode (b : bytes) : string :=
  string_of_list_ascii (strip_BOM (utf8_decoder b)).

(** [!!v] for a JavaScript value. *)
Definition truthy (v : json) : bool :=
  match v with
  | JNull => false
  | JBool b => b
  | JNum n => negb (n =? 0)%Z
  | JStr s => JS.truthy_string s
  | JArr _ | JObj _ => true
  end.

(** [Object.keys(v)] for a value that is not a string. *)
Definition Object_keys (v : json) : list string :=
  match v with
  | JObj fields => fst <$> fields
  | JArr items => (fun i : nat => pretty i) <$> seq 0 (length items)
  | _ => []
  end.

(** [Array.prototype.sort()] on strings. *)
Definition sort_strings (l : list string) : list string :=
  merge_sort (fun a b => Is_true (String.leb a b)) l.

(** The constant-time comparison [equals(a, b)]. *)
Definition equals (a b : bytes) : bool :=
  if negb (length a =? length b)%nat then false
  else
    let diff :=
      fold_left (fun diff xy => N.lor diff (N.lxor (N_of_ascii xy.1) (N_of_ascii xy.2)))
                (combine a b) 0%N in
    (diff =? 0)%N.

Section Manager.
Context {W : WebPlatform}.

(** [aadBytes(aad)]. *)
Definition aadBytes (aad : json) : bytes :=
  match aad with
  | JStr s => utf8_encode s
  | _ => utf8_encode (JSON_stringify_keys aad (sort_strings (Object_keys aad)))
  end.

(** [aad ? EncryptionManager.aadBytes(aad) : undefined]. *)
Definition optional_aadBytes (aad : option json) : option bytes :=
  match aad with
  | Some a => if truthy a then Some (aadBytes a) else None
  | None => None
  end.

(** [toBase64Url(bytes)]; [None] is the [RangeError] of
    [String.fromCharCode(...bytes)] on an array with more elements than
    the engine takes as arguments. *)
Definition toBase64Url (bs : bytes) : option string :=
  if spread_accepted (length bs) then Some (base64url bs) else None.

(** The payload object that [encrypt] serialises, with the texts of the
    nonce, of the ciphertext and, where there are any, of the AAD bytes. *)
Definition payload (iv ciphertext : string) (aad : option string) : json :=
  JObj ([("alg", JStr "AES-GCM"); ("v", JNum 1);
         ("iv", JStr iv); ("ct", JStr ciphertext)]
        ++ match aad with
           | Some a => [("aad", JStr a)]
           | None => []
           end)%list.

(** The JSON text that is encrypted. *)
Definition plaintext_json (data : json) : string :=
  match data with
  | JStr s => s
  | _ => JSON_stringify data
  end.

(** [encrypt(key, data, aad)]; [iv] is the value of
    [crypto.getRandomValues(new Uint8Array(12))]; [None] when
    [toBase64Url] throws. *)
Definition encrypt (iv : bytes) (key : CryptoKey) (data : json) (aad : option json)
    : option string :=
  let pt := utf8_encode (plaintext_json data) in
  let aad_bytes := optional_aadBytes aad in
  let ciphertext := aes_gcm_encrypt key iv aad_bytes pt in
  iv_text ← toBase64Url iv;
  ct_text ← toBase64Url ciphertext;
  aad_text ← match aad_bytes with
             | Some b => Some <$> toBase64Url b
             | None => Some None
             end;
  Some (JSON_stringify (payload iv_text ct_text aad_text)).

(** Property access on the parsed payload. *)
Definition get_field (name : string) (v : json) : option json :=
  match v with
  | JObj fields => snd <$> List.find (fun kv => String.eqb kv.1 name) fields
  | _ => None
  end.

(** [fromBase64Url] applied to a property that should hold a string. *)
Definition decode_field (v : option json) : DecryptError + bytes :=
  match v with
  | Some (JStr s) =>
      match fromBase64Url s with
      | Some b => inr b
      | None => inl InvalidCharacterError
      end
  | _ => inl TypeError
  end.

(** The checks of [decrypt] that precede the call of
    [crypto.subtle.decrypt]: the envelope is parsed, its algorithm
    compared, [iv] and [ct] decoded, and the supplied AAD compared with
    the one the envelope carries. *)
Definition decrypt_checks (encrypted : string) (aad : option json)
    : DecryptError + (bytes * bytes * option bytes) :=
  match JSON_parse encrypted with
  | None => inl SyntaxError
  | Some JNull => inl TypeError
  | Some p =>
      match get_field "alg" p with
      | Some (JStr "AES-GCM") =>
          match decode_field (get_field "iv" p) with
          | inl e => inl e
          | inr ivBytes =>
              match decode_field (get_field "ct" p) with
              | inl e => inl e
              | inr ctBytes =>
                  let providedAAD := optional_aadBytes aad in
                  match get_field "aad" p with
                  | Some a =>
                      if truthy a then
                        match decode_field (Some a) with
                        | inl e => inl e
                        | inr encodedAAD =>
                            match providedAAD with
                            | None => inl AadPresenceMismatch
                            | Some provided =>
                                if equals provided encodedAAD
                                then inr (ivBytes, ctBytes, providedAAD)
                                else inl AadContextMismatch
                            end
                        end
                      else
                        match providedAAD with
                        | Some _ => inl AadPresenceMismatch
                        | None => inr (ivBytes, ctBytes, None)
                        end
                  | None =>
                      match providedAAD with
                      | Some _ => inl AadPresenceMismatch
                      | None => inr (ivBytes, ctBytes, None)
                      end
                  end
              end
          end
      | _ => inl UnsupportedAlg
      end
  end.

(** [decrypt(key, encrypted, aad)]. *)
Definition decrypt (key : CryptoKey) (encrypted : string) (aad : option json)
    : DecryptError + json :=
  match decrypt_checks encrypted aad with
  | inl e => inl e
  | inr (ivBytes, ctBytes, providedAAD) =>
      match aes_gcm_decrypt key ivBytes providedAAD ctBytes with
      | None => inl OperationError
      | Some pt =>
          let text := utf8_decode pt in
          match JSON_parse text with
          | Some v => inr v
          | None => inr (JStr text)
          end
      end
  end.

(** [splitDEK(key, numberOfShares, threshold)]; [None] when the Shamir
    library or the encoding of a share throws. *)
Definition splitDEK (key : CryptoKey) (numberOfShares threshold : Z)
    : option (list string) :=
  match shamir_split (exportKey_raw key) numberOfShares threshold with
  | Some shares => mapM toBase64Url shares
  | None => None
  end.

(** [combineDEK(shares)]; [None] when decoding, the library or the import
    of the combined bytes throws. *)
Definition combineDEK (shares : list string) : option CryptoKey :=
  match mapM fromBase64Url shares with
  | Some shareBytes =>
      match shamir_combine shareBytes with
      | Some combined => importKey_raw combined
      | None => None
      end
  | None => None
  end.

End Manager.

End EncryptionManager.

(** ** The wallet (wallet.ts): share distribution and recovery *)

Module Wallet.
Import DIDComm.

(** [IWalletUser]: the two identifiers the wallet sends from. *)
Record IWalletUser := {
  mediator_id : string;
  routing_id : option string;
}.

(** [IChannel]: the fields the share manager reads. *)
Record IChannel := {
  channel_id : string;
  supports_guardian : bool;
  is_guardian : bool;
}.

(** [_currentRecovery]. *)
Record Recovery := {
  recovery_id : string;
  recovery_namespace : INamespace;
  recovery_shares : list string;
}.

(** [_restoredData]. *)
Record RestoredData := {
  restored_key : string;
  restored_data : json;
  restored_namespace : INamespace;
}.

(** The decoded payload of a GUARDIAN_RELEASE_SHARE message, as the
    protocol handler leaves it in the message metadata. *)
Record ReleasedShare := {
  released_share : string;
  released_threshold : Z;
  released_request_id : option string;
}.

(** What the wallet does to the outside: a call of [splitDEK], a message
    handed to [_wsConnection.invoke], a call of [_restoreWallet] with the
    shares collected so far. *)
Inductive Effect :=
| SplitDEK (numberOfShares threshold : Z)
| Invoke (message : IDIDCommMessage)
| RestoreWallet (shares : list string).

Section WalletState.
Context {W : WebPlatform}.

(** The fields of an initialised [Wallet].  [_channels] is the list of
    values of the channel map, in insertion order. *)
Record Wallet := {
  _gatewayDID : string;
  _walletUser : IWalletUser;
  _namespace : INamespace;
  _channels : list IChannel;
  _walletKey : CryptoKey;
  _currentRecovery : option Recovery;
  _restoredData : option RestoredData;
}.

(** The [reduce] that counts the granted guardians. *)
Definition totalShares (channels : list IChannel) : Z :=
  fold_left (fun acc channel => if is_guardian channel then (acc + 1)%Z else acc)
            channels 0%Z.

(** [Math.max(2, Math.ceil(totalShares / 2))]. *)
Definition threshold_of (total : Z) : Z :=
  Z.max 2 (Qceiling (inject_Z total / 2)).

(** The sender used towards a channel. *)
Definition sender_for (w : Wallet) (channel : IChannel) : option string :=
  if String.eqb (channel_id channel) (_gatewayDID w)
  then Some (mediator_id (_walletUser w))
  else routing_id (_walletUser w).

(** [_updateGuardianShares()]; [uuid i] is the identifier [v4()] returns
    for the message built for the channel at index [i]. *)
Definition _updateGuardianShares (uuid : nat -> string) (w : Wallet) : list Effect :=
  let total := totalShares (_channels w) in
  if (total <? 2)%Z then []
  else
    let threshold := threshold_of total in
    match EncryptionManager.splitDEK (_walletKey w) total threshold with
    | None => [SplitDEK total threshold]
    | Some dekShares =>
        SplitDEK total threshold ::
        omap (fun x => x)
          (imap (fun index channel =>
                   if is_guardian channel then
                     Some (Invoke
                       (CoralKM.createMessage (uuid index)
                          (CoralKM.GuardianShareUpdateArgs
                             (sender_for w channel) (Some (channel_id channel))
                             (_namespace w) threshold (dekShares !! index) None)))
                   else None)
                (_channels w))
    end.

(** The namespace object passed to [decrypt] as AAD. *)
Definition namespace_json (ns : INamespace) : json :=
  JObj [("id", JStr (ns_id ns)); ("gateway_did", JStr (gateway_did ns))].

(** [_restoreWallet()]; [remote_backup] is the data of the gateway's answer
    to the NAMESPACE_SYNC GET request; [None] when a step throws.  The
    reconstructed key is exported for the log before the decryption, and
    once more, with the same result, for the record. *)
Definition _restoreWallet (remote_backup : string) (current : Recovery)
    : option RestoredData :=
  match EncryptionManager.combineDEK (recovery_shares current) with
  | None => None
  | Some reconstructedDEK =>
      match EncryptionManager.toBase64Url (exportKey_raw reconstructedDEK) with
      | None => None
      | Some exported =>
          match EncryptionManager.decrypt reconstructedDEK remote_backup
                  (Some (namespace_json (recovery_namespace current))) with
          | inl _ => None
          | inr decryptedData =>
              Some {| restored_key := exported;
                      restored_data := decryptedData;
                      restored_namespace := recovery_namespace current |}
          end
      end
  end.

Definition set_recovery (w : Wallet) (r : option Recovery) (d : option RestoredData)
    : Wallet :=
  {| _gatewayDID := _gatewayDID w; _walletUser := _walletUser w;
     _namespace := _namespace w; _channels := _channels w;
     _walletKey := _walletKey w; _currentRecovery := r; _restoredData := d |}.

(** The GUARDIAN_RELEASE_SHARE branch of [_onMessage(message, false,
    decoded)].  The result tells whether the branch completed ([false]:
    [_restoreWallet] threw). *)
Definition onReleaseShare (remote_backup : string) (w : Wallet)
    (message : IDIDCommMessage) (decoded : ReleasedShare)
    : list Effect * bool * Wallet :=
  match _currentRecovery w with
  | None => ([], true, w)
  | Some current =>
      let current' :=
        {| recovery_id := recovery_id current;
           recovery_namespace := recovery_namespace current;
           recovery_shares := (recovery_shares current ++ [released_share decoded])%list |} in
      if (Z.of_nat (length (recovery_shares current')) >=? released_threshold decoded)%Z
      then
        match _restoreWallet remote_backup current' with
        | Some restored =>
            ([RestoreWallet (recovery_shares current')], true,
             set_recovery w None (Some restored))
        | None =>
            ([RestoreWallet (recovery_shares current')], false,
             set_recovery w (Some current') (_restoredData w))
        end
      else ([], true, set_recovery w (Some current') (_restoredData w))
  end.

(** Receiving a sequence of GUARDIAN_RELEASE_SHARE messages. *)
Fixpoint receiveShares (remote_backup : string) (w : Wallet)
    (msgs : list (IDIDCommMessage * ReleasedShare)) : list Effect * Wallet :=
  match msgs with
  | [] => ([], w)
  | (message, decoded) :: rest =>
      let '(effects, _, w') := onReleaseShare remote_backup w message decoded in
      let '(effects', w'') := receiveShares remote_backup w' rest in
      ((effects ++ effects')%list, w'')
  end.

End WalletState.

End Wallet.
(** ** EncryptionManager: export and import of the key (encryption.ts) *)

Module EncryptionManagerKeys.
Import Base64.

Section Keys.
Context {W : WebPlatform}.

(** [exportDEK(key)]; [None] when [toBase64Url] throws. *)
Definition exportDEK (key : CryptoKey) : option string :=
  EncryptionManager.toBase64Url (exportKey_raw key).

(** [importDEK(encoded)]; [None] when [atob] or the import of the
    decoded bytes throws. *)
Definition importDEK (encoded : string) : option CryptoKey :=
  match fromBase64Url encoded with
  | Some raw => importKey_raw raw
  | None => None
  end.

End Keys.

End EncryptionManagerKeys.

(** ** The CoralKM handler: constructor and the wallet's side of the
       verification challenge (coralkm-protocol-handler.ts) *)

Module CoralKMCases.
Import DIDComm GuardianStore CoralKM.

#[global] Instance CoralKMRoles_eq_dec : EqDecision CoralKMRoles.
Proof. solve_decision. Defined.

(** [CoralKMOptions]; [N] is the type of the namespace store, of which
    the constructor only tests the presence. *)
Record CoralKMOptions (N : Type) := {
  opt_roles : list CoralKMRoles;
  opt_namespaceStore : option N;
  opt_guardianStore : option MemoryGuardianStore;
}.
Arguments opt_roles {N} _.
Arguments opt_namespaceStore {N} _.
Arguments opt_guardianStore {N} _.

(** [!!o] for an optional object. *)
Definition present {A} (o : option A) : bool :=
  match o with
  | Some _ => true
  | None => false
  end.

(** The constructor of [DCCoralKMProtocolV01]: the part of the new
    object that the guardian cases use. *)
Definition constructor {N} (options : CoralKMOptions N) : Result DCCoralKMProtocolV01 :=
  if bool_decide (gateway ∈ opt_roles options)
     && negb (present (opt_namespaceStore options))
  then throw (PlainError
    "CoralKM Protocol 'gateway' role requires a 'namespaceStore' implementation in constructor options.")
  else if bool_decide (guardian ∈ opt_roles options)
          && negb (present (opt_guardianStore options))
  then throw (PlainError
    "CoralKM Protocol 'guardian' role requires a 'guardianStore' implementation in constructor options.")
  else ok {| roles := opt_roles options;
             guardianStore := opt_guardianStore options;
             _guardian_did := None |}.

(** The wallet-role cases that only check the message:
    ['guardian-grant'], ['guardian-deny'], ['guardian-remove-confirm'] and
    ['guardian-share-update-confirm']. *)
Definition handle_wallet_notice (this : DCCoralKMProtocolV01)
    (messageType : IDIDCommMessageType) (message : Message)
    : Result (option IDIDCommMessage) :=
  assertRole wallet this messageType ;;!
  _ <-! assertMessageFieldDefined JS.truthy_string (msg_from message) "from" messageType;
  _ <-! assertMessageFieldDefined JS.truthy_string (msg_to message) "to" messageType;
  ok None.

(** [case 'guardian-verification-challenge'] (wallet role).  [challenge]
    is [message.data.challenge], which the handlers of the guardian side
    do not read. *)
Definition handle_guardian_verification_challenge (uuid : string)
    (this : DCCoralKMProtocolV01) (messageType : IDIDCommMessageType)
    (message : Message) (challenge : option IVerificationChallenge)
    : Result (option IDIDCommMessage) :=
  assertRole wallet this messageType ;;!
  from <-! assertMessageFieldDefined JS.truthy_string (msg_from message) "from" messageType;
  to <-! assertMessageFieldDefined JS.truthy_string (msg_to message) "to" messageType;
  d <-! get_data "challenge" message;
  ch <-! assertMessageFieldDefined JS.truthy_object challenge "body.challenge" messageType;
  pthid <-! assertMessageFieldDefined JS.truthy_string (data_pthid d) "body.pthid" messageType;
  ok (Some (createMessage uuid
              (GuardianVerificationChallengeResponseArgs (Some to) (Some from)
                 pthid (msg_id message) (challenge_id ch) "123456"))).

(** What [assertRole] throws. *)
Definition invalid_role {A} (role : CoralKMRoles) (mt : IDIDCommMessageType) : Result A :=
  throw (DIDCommProtocolError
           "invalid_role:  Protocol Message {1} received by agent without required role {2}"
           "invalid_role" mt (Some [getFullMessageType mt; role_name role])).

(** A message that passes the checks of the guardian-share-update case. *)
Record valid_share_update (this : DCCoralKMProtocolV01) (message : Message)
    (st : MemoryGuardianStore) (from to share : string) (ns : INamespace)
    (thr : option Z) : Prop := {
  su_role : guardian ∈ roles this;
  su_from : msg_from message = Some from /\ from <> EmptyString;
  su_to : msg_to message = Some to /\ to <> EmptyString;
  su_share : (data_share <$> data message) = Some (Some share) /\ share <> EmptyString;
  su_namespace : (data_namespace <$> data message) = Some (Some ns);
  su_threshold : (data_threshold <$> data message) = Some thr;
  su_store : guardianStore this = Some st;
}.

(** A message body without any of the fields that [MessageData] lists. *)
Definition no_data : MessageData :=
  {| data_device_did := None; data_namespace := None; data_expires_at := None;
     data_response := None; data_challenge_id := None; data_pthid := None;
     data_share := None; data_threshold := None; data_code := None;
     data_comment := None; data_args := None; data_escalate_to := None |}.

(** The body of a plain message, read field by field the way the handlers
    read [message.data]. *)
Definition data_of_body (b : Body) : MessageData :=
  match b with
  | BodyProblemReport report_code comment args escalate_to =>
      {| data_device_did := None; data_namespace := None; data_expires_at := None;
         data_response := None; data_challenge_id := None; data_pthid := None;
         data_share := None; data_threshold := None; data_code := Some report_code;
         data_comment := comment; data_args := args;
         data_escalate_to := escalate_to |}
  | BodyReason _ => no_data
  | BodyShareUpdate ns thr sh _ =>
      {| data_device_did := None; data_namespace := Some ns; data_expires_at := None;
         data_response := None; data_challenge_id := None; data_pthid := None;
         data_share := sh; data_threshold := Some thr; data_code := None;
         data_comment := None; data_args := None; data_escalate_to := None |}
  | BodyChallenge _ p =>
      {| data_device_did := None; data_namespace := None; data_expires_at := None;
         data_response := None; data_challenge_id := None; data_pthid := Some p;
         data_share := None; data_threshold := None; data_code := None;
         data_comment := None; data_args := None; data_escalate_to := None |}
  | BodyChallengeResponse cid resp p =>
      {| data_device_did := None; data_namespace := None; data_expires_at := None;
         data_response := Some resp; data_challenge_id := Some cid;
         data_pthid := Some p; data_share := None; data_threshold := None;
         data_code := None; data_comment := None; data_args := None;
         data_escalate_to := None |}
  | BodyReleaseShare sh thr p =>
      {| data_device_did := None; data_namespace := None; data_expires_at := None;
         data_response := None; data_challenge_id := None; data_pthid := Some p;
         data_share := Some sh; data_threshold := thr; data_code := None;
         data_comment := None; data_args := None; data_escalate_to := None |}
  end.

(** The incoming [Message] that the message-handler chain hands to a
    protocol handler for a plain message [m] it received: identifier, type
    and sender as sent, the first recipient, [thid] as [threadId], the body
    as [data].  The header [pthid] is not carried over (the sources put it
    in the body for that reason), and [_reconstructDIDCommMessage] of the
    wallet reads the same fields back. *)
Definition received (m : IDIDCommMessage) : Message :=
  {| msg_id := id m; msg_type := mtype m; msg_from := from m;
     msg_to := mjoin (head (to m)); threadId := thid m;
     data := data_of_body <$> body m; metaData := [] |}.

End CoralKMCases.

(** ** A JavaScript [Map] with string keys, in insertion order *)

Module JSMap.

Section Map.
Context {V : Type}.

(** The entries, oldest first; a key occurs at most once. *)
Definition t : Type := list (string * V).

Definition empty : t := [].

(** [map.get(key)]. *)
Fixpoint get (m : t) (key : string) : option V :=
  match m with
  | [] => None
  | (k, v) :: m' => if String.eqb k key then Some v else get m' key
  end.

(** [map.has(key)]. *)
Definition has (m : t) (key : string) : bool :=
  match get m key with
  | Some _ => true
  | None => false
  end.

(** [map.set(key, value)]: an existing key keeps its place. *)
Fixpoint set (m : t) (key : string) (value : V) : t :=
  match m with
  | [] => [(key, value)]
  | (k, v) :: m' =>
      if String.eqb k key then (k, value) :: m' else (k, v) :: set m' key value
  end.

(** [map.delete(key)]. *)
Fixpoint delete (m : t) (key : string) : t :=
  match m with
  | [] => []
  | (k, v) :: m' => if String.eqb k key then m' else (k, v) :: delete m' key
  end.

(** [Array.from(map.values())]. *)
Definition values (m : t) : list V := snd <$> m.

Definition keys (m : t) : list string := fst <$> m.

End Map.

Arguments t : clear implicits.

End JSMap.

(** ** The protocol registry (didcomm-protocols-plugin.ts) *)

Module DIDCommProtocolsPlugin.
Import DIDComm.

Section Plugin.
(** Handler objects, and what the registry reads of them: the three
    identifying strings, whether a [handle] method is present, and the
    text [JSON.stringify] gives for the error message. *)
Context {Handler : Type}.
Variable name version piuri : Handler -> string.
Variable has_handle : Handler -> bool.
Variable stringify : Handler -> string.
(** [DEFAULT_PROTOCOLS]. *)
Variable DEFAULT_PROTOCOLS : list Handler.
(** [getMessageType] of didcomm-utils.ts. *)
Variable getMessageType : string -> Result IDIDCommMessageType.
(** Message arguments, their [type], and [protocol.createMessage]. *)
Context {Args : Type}.
Variable args_type : Args -> string.
Variable createMessage : Handler -> Args -> Result IDIDCommMessage.

(** The registry key of a handler. *)
Definition key_of (protocol : Handler) : string := piuri protocol +:+ "/" +:+ version protocol.

(** [_registerDIDCommProtocol(protocol)]. *)
Definition _registerDIDCommProtocol (protocols : JSMap.t Handler) (protocol : Handler)
    : Result (JSMap.t Handler) :=
  if negb (JS.truthy_string (name protocol))
     || negb (JS.truthy_string (version protocol))
     || negb (JS.truthy_string (piuri protocol))
     || negb (has_handle protocol)
  then throw (PlainError
         ("Invalid protocol handler: " +:+ stringify protocol
          +:+ ". A protocol handler must have 'name', 'version', 'piuri', and 'handle' properties."))
  else
    let key := key_of protocol in
    if JSMap.has protocols key
    then throw (PlainError ("Protocol handler for " +:+ key +:+ " is already registered."))
    else ok (JSMap.set protocols key protocol).

(** The constructor: the default protocols, then the given ones. *)
Definition constructor (protocols : list Handler) : Result (JSMap.t Handler) :=
  fold_left (fun acc protocol =>
               registered <-! acc; _registerDIDCommProtocol registered protocol)
            (DEFAULT_PROTOCOLS ++ protocols)%list (ok JSMap.empty).

(** [registerDIDCommProtocol(protocol)]. *)
Definition registerDIDCommProtocol (protocols : JSMap.t Handler) (protocol : Handler)
    : Result (JSMap.t Handler) :=
  _registerDIDCommProtocol protocols protocol.

(** [listDIDCommProtocols()]. *)
Definition listDIDCommProtocols (protocols : JSMap.t Handler) : list Handler :=
  JSMap.values protocols.

(** [unregisterDIDCommProtocol({ piuri, version })]. *)
Definition unregisterDIDCommProtocol (protocols : JSMap.t Handler) (p v : string)
    : Result (JSMap.t Handler) :=
  let key := p +:+ "/" +:+ v in
  if negb (JSMap.has protocols key)
  then throw (PlainError ("Protocol handler for " +:+ key +:+ " is not registered."))
  else ok (JSMap.delete protocols key).

(** [getDIDCommProtocol(messageType)]. *)
Definition getDIDCommProtocol (protocols : JSMap.t Handler) (messageType : string)
    : Result Handler :=
  mt <-! getMessageType messageType;
  match JSMap.get protocols (DIDComm.piuri mt +:+ "/" +:+ DIDComm.version mt) with
  | Some protocol => ok protocol
  | None => throw (PlainError
              ("No protocol handler found for message type: " +:+ messageType))
  end.

(** [createProtocolMessage(args)]. *)
Definition createProtocolMessage (protocols : JSMap.t Handler) (args : Args)
    : Result IDIDCommMessage :=
  mt <-! getMessageType (args_type args);
  match JSMap.get protocols (DIDComm.piuri mt +:+ "/" +:+ DIDComm.version mt) with
  | Some protocol => createMessage protocol args
  | None => throw (PlainError
              ("No protocol handler found for message type: " +:+ args_type args))
  end.

End Plugin.

End DIDCommProtocolsPlugin.

(** ** The wallet (wallet.ts): adding and removing guardians, the backup *)

Module WalletGuardians.
Import DIDComm Wallet.

(** [this._channels.get(did)!.is_guardian = b].  The channel map is
    keyed by the channels' identifiers; [None] is the [TypeError] raised
    when it has no channel for [did]. *)
Fixpoint set_is_guardian (channels : list IChannel) (did : string) (b : bool)
    : option (list IChannel) :=
  match channels with
  | [] => None
  | channel :: rest =>
      if String.eqb (channel_id channel) did
      then Some ({| channel_id := channel_id channel;
                    supports_guardian := supports_guardian channel;
                    is_guardian := b |} :: rest)
      else cons channel <$> set_is_guardian rest did b
  end.

Section WalletState.
Context {W : WebPlatform}.

Definition with_channels (w : Wallet) (channels : list IChannel) : Wallet :=
  {| _gatewayDID := _gatewayDID w; _walletUser := _walletUser w;
     _namespace := _namespace w; _channels := channels;
     _walletKey := _walletKey w; _currentRecovery := _currentRecovery w;
     _restoredData := _restoredData w |}.

(** The sender used towards the DID [did]. *)
Definition sender_to (w : Wallet) (did : string) : option string :=
  if String.eqb did (_gatewayDID w)
  then Some (mediator_id (_walletUser w))
  else routing_id (_walletUser w).

(** [addGuardian(guardianDid)], when [invoke] resolves with a response of
    type [response_type]; [uuid0] is the identifier of the request and
    [uuid] gives those of the share updates.  The second component is
    [None] when the method throws. *)
Definition addGuardian (uuid0 : string) (uuid : nat -> string) (w : Wallet)
    (guardianDid : string) (response_type : string) : list Effect * option Wallet :=
  let requestMessage :=
    CoralKM.createMessage uuid0
      (CoralKM.GuardianRequestArgs (sender_to w guardianDid) (Some guardianDid)) in
  let requestGranted := String.eqb response_type CoralKM.GUARDIAN_GRANT in
  match set_is_guardian (_channels w) guardianDid requestGranted with
  | None => ([Invoke requestMessage], None)
  | Some channels =>
      let w' := with_channels w channels in
      if requestGranted
      then (Invoke requestMessage :: _updateGuardianShares uuid w', Some w')
      else ([Invoke requestMessage], Some w')
  end.

(** [removeGuardian(guardianDid)], when [invoke] resolves with a response
    of type [response_type]. *)
Definition removeGuardian (uuid0 : string) (uuid : nat -> string) (w : Wallet)
    (guardianDid : string) (response_type : string) : list Effect * option Wallet :=
  let removeMessage :=
    CoralKM.createMessage uuid0
      (CoralKM.GuardianRemoveArgs (sender_to w guardianDid) (Some guardianDid)) in
  if String.eqb response_type CoralKM.GUARDIAN_REMOVE_CONFIRM then
    match set_is_guardian (_channels w) guardianDid false with
    | None => ([Invoke removeMessage], None)
    | Some channels =>
        let w' := with_channels w channels in
        (Invoke removeMessage :: _updateGuardianShares uuid w', Some w')
    end
  else ([Invoke removeMessage], Some w).

(** The encrypted backup that [syncWallet()] sends to the gateway, for a
    wallet whose namespace is set: [backupData] holds the exported
    identifiers, keys and shares, [iv] is the nonce [encrypt] draws. *)
Definition syncWallet_encrypted (iv : Base64.bytes) (w : Wallet) (backupData : json)
    : option string :=
  EncryptionManager.encrypt iv (_walletKey w) backupData
    (Some (namespace_json (_namespace w))).

End WalletState.

End WalletGuardians.

(** ** WebSocketConnection (websocket-connection.ts): replies to [invoke],
       and the mediator's WebSocket endpoint *)

Module WebSocketConnection.
Import DIDComm.

Definition DIDCOMM_PROTOCOL_DECODED_MESSAGE_METADATA_TYPE : string := "DIDCommDecodedMessage".
Definition DIDCOMM_PROTOCOL_RETURN_ROUTE_METADATA_TYPE : string := "ReturnRouteResponse".
Definition DIDCOMM_MEDIATION_NEW_ROUTING_DID_METADATA_TYPE : string := "NewRoutingDID".

(** [IMetaData] and [IMessage] of Veramo, as [agent.handleMessage]
    returns them: an absent property is undefined. *)
Record IMetaData := {
  meta_type : string;
  meta_value : option string;
}.

Record IMessage := {
  im_id : string;
  im_type : string;
  im_from : option string;
  im_to : option string;
  im_createdAt : option string;
  im_expiresAt : option string;
  im_data : option json;
  im_attachments : option json;
  im_threadId : option string;
  im_returnRoute : option string;
  im_metaData : option (list IMetaData);
}.

(** The [IDIDCommMessage] that [_reconstructDIDCommMessage] builds. *)
Record ReceivedMessage := {
  rm_id : string;
  rm_type : string;
  rm_from : option string;
  rm_to : list string;
  rm_created_time : option string;
  rm_expires_time : option string;
  rm_body : option json;
  rm_attachments : option json;
  rm_thid : option string;
  rm_return_route : option string;
}.

(** [_reconstructDIDCommMessage(message)]. *)
Definition _reconstructDIDCommMessage (message : IMessage) : ReceivedMessage :=
  {| rm_id := im_id message;
     rm_type := im_type message;
     rm_from := im_from message;
     rm_to := match im_to message with
              | Some t => if JS.truthy_string t then [t] else []
              | None => []
              end;
     rm_created_time := im_createdAt message;
     rm_expires_time := im_expiresAt message;
     rm_body := im_data message;
     rm_attachments := im_attachments message;
     rm_thid := im_threadId message;
     rm_return_route := im_returnRoute message |}.

(** [message?.metaData?.find(v => v.type === type)]. *)
Definition find_metaData (type : string) (message : IMessage) : option IMetaData :=
  match im_metaData message with
  | Some entries => List.find (fun v => String.eqb (meta_type v) type) entries
  | None => None
  end.

(** [_getDIDCommRoutingDID(message)]. *)
Definition _getDIDCommRoutingDID (message : IMessage) : option string :=
  match find_metaData DIDCOMM_MEDIATION_NEW_ROUTING_DID_METADATA_TYPE message with
  | Some routingDidMessage =>
      if JS.truthy (meta_value routingDidMessage) then meta_value routingDidMessage
      else None
  | None => None
  end.

(** [x.name] for a JavaScript value [x] that JSON can carry and is
    neither null nor undefined: only an object has properties of its own
    under the names read here. *)
Definition property (name : string) (x : json) : option json :=
  match x with
  | JObj fields => snd <$> List.find (fun kv => String.eqb kv.1 name) fields
  | _ => None
  end.

(** The handle of a promise that [invoke] returned. *)
Definition Promise := nat.

(** What the connection does to the outside: the calls of the [resolve]
    and [reject] functions of a pending [invoke] (with the arguments of
    [new DIDCommResponseError]), of the [onMessage] callback, of
    [this.send] for a return-route message, and of [socket.send] (with
    the message that was packed, directly or inside a Forward message
    from [from] with the given [next]). *)
Inductive Effect :=
| Resolve (promise : Promise) (message : ReceivedMessage) (decoded : option json)
| Reject (promise : Promise) (message : json) (code : option json)
    (originalMessage : ReceivedMessage) (escalate_to : option json)
| OnMessageReceived (message : ReceivedMessage) (decoded : option json)
| OnMessageSent (message : IDIDCommMessage)
| SendReturnRoute (message : option json)
| SocketSendDirect (message : IDIDCommMessage)
| SocketSendForward (from : string) (next : option string) (message : IDIDCommMessage).

(** The fields of a connection: [isOpen] is the getter of that name,
    [onMessage] tells whether the callback was given. *)
Record Connection := {
  _mediatorDID : string;
  _clientDID : option string;
  isOpen : bool;
  onMessage : bool;
  _replyHandlers : gmap string Promise;
}.

Definition with_replyHandlers (c : Connection) (handlers : gmap string Promise)
    : Connection :=
  {| _mediatorDID := _mediatorDID c; _clientDID := _clientDID c;
     isOpen := isOpen c; onMessage := onMessage c; _replyHandlers := handlers |}.

(** [send(message)], the packing of the agent taken to succeed. *)
Definition send (c : Connection) (message : IDIDCommMessage) : Result (list Effect) :=
  if isOpen c then
    sent <-! (if bool_decide (mjoin (head (to message)) <> Some (_mediatorDID c)) then
                match _clientDID c with
                | Some clientDID =>
                    if JS.truthy_string clientDID
                    then ok [SocketSendForward clientDID (mjoin (head (to message))) message]
                    else throw (PlainError
                                  "Client DID is not set. Cannot route message via mediator.")
                | None =>
                    throw (PlainError
                             "Client DID is not set. Cannot route message via mediator.")
                end
              else ok [SocketSendDirect message]);
    ok (sent ++ (if onMessage c then [OnMessageSent message] else []))%list
  else throw (PlainError "WebSocket is not open. Unable to send message.").

(** [invoke(message)]: [promise] is the promise it returns, whose
    [resolve] and [reject] are stored under the identifier of the
    message once [send] has returned.  The connection is unchanged when
    [send] throws. *)
Definition invoke (c : Connection) (promise : Promise) (message : IDIDCommMessage)
    : Result (list Effect) * Connection :=
  match send c message with
  | inl effects =>
      (ok effects,
       with_replyHandlers c (<[id message := promise]> (_replyHandlers c)))
  | inr e => (throw e, c)
  end.

Section Platform.
Context {W : WebPlatform}.

(** The lookup shared by [getDIDCommDecodedMessage] and
    [getDIDCommReturnRouteMessage] of didcomm-utils.ts: the parsed value
    of the first entry of that type, null when there is none or it has
    no value; the outer [None] is the [SyntaxError] of [JSON.parse]. *)
Definition parsed_metaData (type : string) (message : IMessage) : option json :=
  match find_metaData type message with
  | Some entry =>
      match meta_value entry with
      | Some value => if JS.truthy_string value then JSON_parse value else Some JNull
      | None => Some JNull
      end
  | None => Some JNull
  end.

Definition getDIDCommDecodedMessage (message : IMessage) : option json :=
  parsed_metaData DIDCOMM_PROTOCOL_DECODED_MESSAGE_METADATA_TYPE message.

Definition getDIDCommReturnRouteMessage (message : IMessage) : option json :=
  parsed_metaData DIDCOMM_PROTOCOL_RETURN_ROUTE_METADATA_TYPE message.

(** [getDIDCommDecodedMessage(response) ?? this._getDIDCommRoutingDID(response)],
    for a decoded value that was parsed: [None] is undefined. *)
Definition decoded_or_routingDID (parsed : json) (response : IMessage) : option json :=
  match parsed with
  | JNull => JStr <$> _getDIDCommRoutingDID response
  | v => Some v
  end.

(** The handler of the socket's [message] event, from the point where
    [agent.handleMessage] has returned [response].  The result holds the
    calls made, the connection afterwards and whether the handler ran to
    its end ([false]: it threw, at [JSON.parse] or at the property access
    on an undefined problem report). *)
Definition onmessage (c : Connection) (response : IMessage)
    : list Effect * Connection * bool :=
  let didCommMessage := _reconstructDIDCommMessage response in
  match getDIDCommDecodedMessage response with
  | None => ([], c, false)
  | Some parsed =>
      let decoded := decoded_or_routingDID parsed response in
      let pending :=
        match im_threadId response with
        | Some threadId =>
            if JS.truthy_string threadId
            then (fun handler => (threadId, handler)) <$> _replyHandlers c !! threadId
            else None
        | None => None
        end in
      let settled : option (list Effect * Connection) :=
        match pending with
        | Some (threadId, handler) =>
            if String.eqb (im_type response) DIDCommEngine.PROBLEM_REPORT then
              match decoded with
              | None => None
              | Some problemReport =>
                  Some ([Reject handler
                           (match property "comment" problemReport with
                            | Some comment =>
                                if EncryptionManager.truthy comment then comment
                                else JStr "DIDComm Problem Report received"
                            | None => JStr "DIDComm Problem Report received"
                            end)
                           (property "code" problemReport)
                           didCommMessage
                           (property "escalate_to" problemReport)],
                        with_replyHandlers c (delete threadId (_replyHandlers c)))
              end
            else
              Some ([Resolve handler didCommMessage decoded],
                    with_replyHandlers c (delete threadId (_replyHandlers c)))
        | None => Some ([], c)
        end in
      match settled with
      | None => ([], c, false)
      | Some (effects, c') =>
          let effects :=
            (effects ++ (if onMessage c then [OnMessageReceived didCommMessage decoded]
                         else []))%list in
          match getDIDCommReturnRouteMessage response with
          | None => (effects, c', false)
          | Some returnRouteResponse =>
              if EncryptionManager.truthy returnRouteResponse
              then ((effects ++ [SendReturnRoute (property "message" returnRouteResponse)])%list,
                    c', true)
              else (effects, c', true)
          end
      end
  end.

(** What happens on a connection: a call of [invoke], or a message
    event whose message the agent handled as [response]. *)
Inductive Event :=
| Invoke (message : IDIDCommMessage)
| Receive (response : IMessage).

(** The calls made along a sequence of events; the promise of the n-th
    call of [invoke] is [next + n]. *)
Fixpoint run (c : Connection) (next : Promise) (events : list Event) : list Effect :=
  match events with
  | [] => []
  | Invoke message :: rest =>
      let '(result, c') := invoke c next message in
      (match result with inl effects => effects | inr _ => [] end
       ++ run c' (S next) rest)%list
  | Receive response :: rest =>
      let '(effects, c', _) := onmessage c response in
      (effects ++ run c' next rest)%list
  end.

End Platform.

(** The promise settled by a call, with the message it is settled for. *)
Definition settlement (e : Effect) : option (Promise * ReceivedMessage) :=
  match e with
  | Resolve promise message _ => Some (promise, message)
  | Reject promise _ _ originalMessage _ => Some (promise, originalMessage)
  | _ => None
  end.

(** The messages of the calls of [invoke], in order. *)
Definition invoked (events : list Event) : list IDIDCommMessage :=
  omap (fun e => match e with Invoke message => Some message | Receive _ => None end)
       events.

(** *** The endpoint of the mediator *)

(** A service of a DID document: its type and its [serviceEndpoint]. *)
Record Service := {
  service_type : string;
  serviceEndpoint : json;
}.

(** A DID document: [service] may be absent. *)
Record DIDDocument := {
  service : option (list Service);
}.

(** The URI that [_getWebSocketUrl] reads from an endpoint: the endpoint
    itself when it is a string, its [uri] when it is an object that has
    a string under that name, else null. *)
Definition endpoint_uri (endpoint : json) : option string :=
  match endpoint with
  | JStr s => Some s
  | JObj fields =>
      match List.find (fun kv => String.eqb kv.1 "uri") fields with
      | Some (_, JStr uri) => Some uri
      | _ => None
      end
  | _ => None
  end.

(** The predicate of the [find]. *)
Definition is_websocket_service (s : Service) : bool :=
  String.eqb (service_type s) "DIDCommMessaging" &&
  match endpoint_uri (serviceEndpoint s) with
  | Some uri => String.prefix "ws" uri
  | None => false
  end.

(** [_getWebSocketUrl(mediatorDID)]. *)
Definition _getWebSocketUrl (mediatorDID : option DIDDocument) : Result string :=
  match mediatorDID with
  | None => throw (PlainError "Mediator DID Document is null")
  | Some document =>
      match
        match service document with
        | Some services => List.find is_websocket_service services
        | None => None
        end
      with
      | None =>
          throw (PlainError
                   "Mediator DID does not have a WebSocket DIDCommMessaging service endpoint")
      | Some service =>
          match endpoint_uri (serviceEndpoint service) with
          | Some wsUrl =>
              if JS.truthy_string wsUrl then ok wsUrl
              else throw (PlainError
                            "Mediator DIDCommMessaging service endpoint is not a valid WebSocket URL")
          | None =>
              throw (PlainError
                       "Mediator DIDCommMessaging service endpoint is not a valid WebSocket URL")
          end
      end
  end.

End WebSocketConnection.
(** ** [getMessageType] (didcomm-utils.ts) and the regular expression it
       matches with *)

(** The backtracking matcher of ECMAScript regular expressions, for the
    constructs the sources use, on the sequence of the characters of a
    string.  A matcher takes the rest of the input, the captures made so
    far and a continuation, and answers with the captures of the first
    complete match in backtracking order. *)
Module JSRegExp.

Inductive regex :=
| Chr (c : ascii)
| Class (invert : bool) (members : list ascii)
| Seq (r1 r2 : regex)
| Star (r : regex)
| Plus (r : regex)
| Opt (r : regex)
| NegLookahead (r : regex)
| Group (name : string) (r : regex)
| Bol
| Eol.

Definition captures := list (string * list ascii).
Definition continuation := list ascii -> captures -> option captures.
Definition matcher := list ascii -> captures -> continuation -> option captures.

(** [Canonicalize(ch)] under the flag [i]: the upper-case letter of a
    letter a-z, any other character itself. *)
Definition canonicalize (c : ascii) : ascii :=
  let n := nat_of_ascii c in
  if (97 <=? n)%nat && (n <=? 122)%nat then ascii_of_nat (n - 32) else c.

(** A character against a class [[...]] or [[^...]]. *)
Definition class_matches (invert : bool) (members : list ascii) (c : ascii) : bool :=
  xorb invert (existsb (fun a => Ascii.eqb (canonicalize a) (canonicalize c)) members).

(** The text a group captured: the input between the position where it
    started, with [s] left, and where it ended, with [s'] left. *)
Definition consumed (s s' : list ascii) : list ascii :=
  take (length s - length s') s.

(** The greedy repetition with minimum 0: one more iteration where that
    leads to a match, an iteration that consumed nothing being refused,
    else the continuation.  [fuel] bounds the number of iterations; the
    length of the input left, plus one, is enough. *)
Fixpoint repeat_matcher (step : matcher) (fuel : nat) : matcher :=
  fun s caps k =>
    match fuel with
    | O => None
    | S fuel' =>
        match step s caps
                (fun s' caps' =>
                   if (length s' =? length s)%nat then None
                   else repeat_matcher step fuel' s' caps' k) with
        | Some result => Some result
        | None => k s caps
        end
    end.

Section Matcher.
(** The length of the whole input, by which [^] knows the start. *)
Variable input_length : nat.

Fixpoint matches (r : regex) : matcher :=
  fun s caps k =>
    match r with
    | Chr c =>
        match s with
        | c' :: s' =>
            if Ascii.eqb (canonicalize c') (canonicalize c) then k s' caps else None
        | [] => None
        end
    | Class invert members =>
        match s with
        | c' :: s' => if class_matches invert members c' then k s' caps else None
        | [] => None
        end
    | Seq r1 r2 => matches r1 s caps (fun s' caps' => matches r2 s' caps' k)
    | Star r => repeat_matcher (matches r) (S (length s)) s caps k
    | Plus r =>
        matches r s caps
          (fun s' caps' => repeat_matcher (matches r) (S (length s')) s' caps' k)
    | Opt r =>
        match matches r s caps
                (fun s' caps' =>
                   if (length s' =? length s)%nat then None else k s' caps') with
        | Some result => Some result
        | None => k s caps
        end
    | NegLookahead r =>
        match matches r s caps (fun _ caps' => Some caps') with
        | Some _ => None
        | None => k s caps
        end
    | Group name r =>
        matches r s caps (fun s' caps' => k s' ((name, consumed s s') :: caps'))
    | Bol => if (length s =? input_length)%nat then k s caps else None
    | Eol =>
        match s with
        | [] => k s caps
        | _ :: _ => None
        end
    end.

(** The match is tried at the start of [s], then one character later,
    and so on. *)
Fixpoint exec_from (re : regex) (s : list ascii) : option captures :=
  match matches re s [] (fun _ caps => Some caps) with
  | Some caps => Some caps
  | None =>
      match s with
      | _ :: s' => exec_from re s'
      | [] => None
      end
  end.

End Matcher.

(** [input.match(re)] for an expression without the flag [g]: the
    captures of the first match, if there is one. *)
Definition exec (re : regex) (input : string) : option captures :=
  exec_from (String.length input) re (list_ascii_of_string input).

(** [m.groups.name], for a group that took part in the match. *)
Definition group (name : string) (caps : captures) : string :=
  match List.find (fun kv => String.eqb kv.1 name) caps with
  | Some (_, text) => string_of_list_ascii text
  | None => EmptyString
  end.

(** The terms of an alternative, one after the other. *)
Definition sequence (terms : list regex) (last : regex) : regex :=
  foldr Seq last terms.

End JSRegExp.

Module DIDCommUtils.
Import DIDComm JSRegExp.

(** The class of the digits, written "\d". *)
Definition digit : regex := Class false (list_ascii_of_string "0123456789").

(** "\d+(?:\.\d+)*" *)
Definition version_number : regex :=
  Seq (Plus digit) (Star (Seq (Chr ".") (Plus digit))).

(** "[^/]+" *)
Definition segment : regex := Plus (Class true ["/"%char]).

(** "https?:\/\/[^/]+(?:\/(?!\d+(?:\.\d+)*\/)[^/]+)+" *)
Definition piuri_pattern : regex :=
  sequence [Chr "h"; Chr "t"; Chr "t"; Chr "p"; Opt (Chr "s");
            Chr ":"; Chr "/"; Chr "/"; segment]
    (Plus (sequence [Chr "/"; NegLookahead (Seq version_number (Chr "/"))] segment)).

(** The expression of [getMessageType], which has the flag [i]:
    "^(?<piuri>P)\/(?<version>V)\/(?<messageURIType>[^/?#]+)$", where P
    and V are the two expressions above. *)
Definition re : regex :=
  sequence [Bol; Group "piuri" piuri_pattern; Chr "/";
            Group "version" version_number; Chr "/";
            Group "messageURIType" (Plus (Class true ["/"; "?"; "#"]%char))]
    Eol.

(** [getMessageType(messageType)]. *)
Definition getMessageType (messageType : string) : Result IDIDCommMessageType :=
  match exec re messageType with
  | Some groups =>
      ok {| piuri := group "piuri" groups;
            version := group "version" groups;
            type := group "messageURIType" groups |}
  | None => throw (PlainError ("Invalid DIDComm message type: " +:+ messageType))
  end.

End DIDCommUtils.
(** ** ObservableStore (observable-store.ts) *)

Module ObservableStore.

(** A listener function, by its identity. *)
Definition Listener := nat.

(** [_listeners] is a [Set]: its elements in insertion order, each
    once. *)
Record Store := {
  _listeners : list Listener;
  _version : Z;
}.

(** A new store. *)
Definition new : Store := {| _listeners := []; _version := 0 |}.

(** [subscribe(listener)]: [Set.add] leaves a set that has the element
    as it is.  The function it returns is [unsubscribe listener]. *)
Definition subscribe (store : Store) (listener : Listener) : Store :=
  {| _listeners := if bool_decide (listener ∈ _listeners store) then _listeners store
                   else _listeners store ++ [listener];
     _version := _version store |}.

(** The function returned by [subscribe(listener)]: [Set.delete], which
    tells whether the element was there. *)
Definition unsubscribe (store : Store) (listener : Listener) : bool * Store :=
  (bool_decide (listener ∈ _listeners store),
   {| _listeners := filter (fun l => l <> listener) (_listeners store);
      _version := _version store |}).

(** [_notify()]: the listeners called, in order, and the store
    afterwards.  The listeners are taken not to subscribe or unsubscribe
    while they are called. *)
Definition _notify (store : Store) : list Listener * Store :=
  (_listeners store,
   {| _listeners := _listeners store; _version := (_version store + 1)%Z |}).

(** What is done to a store. *)
Inductive Operation :=
| Subscribe (listener : Listener)
| Unsubscribe (listener : Listener)
| Notify.

Definition apply (store : Store) (op : Operation) : Store :=
  match op with
  | Subscribe listener => subscribe store listener
  | Unsubscribe listener => (unsubscribe store listener).2
  | Notify => (_notify store).2
  end.

End ObservableStore.

(** ** A reference platform for closed examples

    The examples evaluate the definitions above on concrete inputs; they
    need some instance of the platform services.  The digest is replaced
    by an injective stand-in, a date is written as its number of
    milliseconds, and [getMessageType] is tabulated on the type URIs the
    examples use. *)

Module Reference.
Import DIDComm.

#[local] Instance platform : Platform := {|
  sha256_hex := fun s => "sha256:" +:+ s;
  Date_parse := fun s => ReportProblem.parseInt s;
|}.

Definition coralkm_type (name : string) : IDIDCommMessageType :=
  {| piuri := "https://coralstack.com/coralkm"; version := "0.1"; type := name |}.

Definition getMessageType (messageType : string) : Result IDIDCommMessageType :=
  if String.eqb messageType DIDCommEngine.PROBLEM_REPORT then
    ok {| piuri := "https://didcomm.org/report-problem"; version := "2.0";
          type := "problem-report" |}
  else if String.eqb messageType CoralKM.GUARDIAN_REMOVE then
    ok (coralkm_type "guardian-remove")
  else throw (PlainError ("Invalid DIDComm message type: " +:+ messageType)).

(** An agent that only plays the wallet role. *)
Definition wallet_agent : CoralKM.DCCoralKMProtocolV01 :=
  {| CoralKM.roles := [CoralKM.wallet];
     CoralKM.guardianStore := None;
     CoralKM._guardian_did := None |}.

Definition NS1 : INamespace := {| ns_id := "NS1"; gateway_did := "did:web:gw" |}.

(** A guardian store after alice was granted guardianship, sent a share
    for [NS1], and a device asked to recover [NS1] with a request that
    expires at time 1000. *)
Definition store_with_request : GuardianStore.MemoryGuardianStore :=
  let st0 := GuardianStore.setGuardianPolicy GuardianStore.empty "did:web:alice"
               GuardianStore.GRANTED in
  let st1 := (GuardianStore.saveShare 0 st0 "did:web:alice" "did:web:gw" "NS1"
                (Some 2%Z) "share-A").2 in
  (GuardianStore.saveRecoveryRequest 500 st1 "did:web:device" NS1 "R1" "1000").2.

Definition guardian_with_request : CoralKM.DCCoralKMProtocolV01 :=
  {| CoralKM.roles := [CoralKM.guardian];
     CoralKM.guardianStore := Some store_with_request;
     CoralKM._guardian_did := Some "did:web:guardian" |}.

(** The body of a verification response for request [R1]. *)
Definition response_data (response : string) : MessageData :=
  {| data_device_did := None; data_namespace := None; data_expires_at := None;
     data_response := Some response; data_challenge_id := Some "C1";
     data_pthid := Some "R1"; data_share := None; data_threshold := None;
     data_code := None; data_comment := None; data_args := None;
     data_escalate_to := None |}.

(** The CoralKM handler object of an agent as the plugin registers it,
    restricted to the guardian-remove case; [createMessage] is only ever
    given arguments of other protocols here and throws as its default
    case does. *)
Definition coralkm_handler (this : CoralKM.DCCoralKMProtocolV01)
    : DIDCommEngine.IDIDCommProtocolHandler :=
  {| DIDCommEngine.name := "CoralKM";
     DIDCommEngine.handler_version := "0.1";
     DIDCommEngine.handler_piuri := "https://coralstack.com/coralkm";
     DIDCommEngine.createMessage := fun _ args =>
       throw (PlainError
                ("Unsupported CoralKM V0.1 message type: "
                 +:+ match args with
                     | DIDCommEngine.ProblemReportArgs _ => DIDCommEngine.PROBLEM_REPORT
                     | DIDCommEngine.OtherProtocolArgs t => t
                     end));
     DIDCommEngine.handle := fun mt m =>
       ([], (CoralKM.handle_guardian_remove "uuid-reply" this mt m).1) |}.

Definition protocols (this : CoralKM.DCCoralKMProtocolV01)
    : gmap string DIDCommEngine.IDIDCommProtocolHandler :=
  <["https://coralstack.com/coralkm/0.1" := coralkm_handler this]>
    (<["https://didcomm.org/report-problem/2.0" := DIDCommEngine.DCReportProblemProtocolV2]> ∅).

Definition verification_response (response : string) : Message :=
  {| msg_id := "m7";
     msg_type := CoralKM.GUARDIAN_VERIFICATION_CHALLENGE_RESPONSE;
     msg_from := Some "did:web:device"; msg_to := Some "did:web:guardian";
     threadId := Some "c1"; data := Some (response_data response);
     metaData := [] |}.

Definition remove_message : Message :=
  {| msg_id := "m9"; msg_type := CoralKM.GUARDIAN_REMOVE;
     msg_from := Some "did:web:alice"; msg_to := Some "did:web:guardian";
     threadId := None; data := None; metaData := [] |}.

(** A recovery request for the namespace [ns]. *)
Definition recovery_request (ns : INamespace) : Message :=
  {| msg_id := "R2";
     msg_type := "https://coralstack.com/coralkm/0.1/namespace-recovery-request";
     msg_from := Some "did:web:gw"; msg_to := Some "did:web:guardian";
     threadId := None;
     data := Some {| data_device_did := Some "did:web:device";
                     data_namespace := Some ns;
                     data_expires_at := Some "9000";
                     data_response := None; data_challenge_id := None;
                     data_pthid := None; data_share := None;
                     data_threshold := None; data_code := None;
                     data_comment := None; data_args := None;
                     data_escalate_to := None |};
     metaData := [] |}.

Definition message (mtype : string) (from to thid : option string)
    (d : option MessageData) : Message :=
  {| msg_id := "m1"; msg_type := mtype; msg_from := from; msg_to := to;
     threadId := thid; data := d; metaData := [] |}.

End Reference.

(** *** Stand-ins for JSON, AES-GCM and the Shamir library

    A printer and a parser for the JSON subset the examples need
    (integers, strings with escaped quotes and backslashes, arrays,
    objects); a cipher that masks the plaintext with the first key byte
    and appends a one-byte checksum of key, nonce, associated data and
    plaintext as its tag; shares that are the secret behind an index
    byte. *)

Module ReferenceWeb.
Import Base64.

Definition dquote : ascii := ascii_of_nat 34.
Definition backslash : ascii := ascii_of_nat 92.

Fixpoint escape (l : list ascii) : list ascii :=
  match l with
  | [] => []
  | c :: r =>
      if Ascii.eqb c dquote || Ascii.eqb c backslash
      then backslash :: c :: escape r
      else c :: escape r
  end.

Definition quote (s : string) : list ascii :=
  (dquote :: escape (list_ascii_of_string s) ++ [dquote])%list.

Fixpoint join (sep : list ascii) (parts : list (list ascii)) : list ascii :=
  match parts with
  | [] => []
  | [p] => p
  | p :: rest => (p ++ sep ++ join sep rest)%list
  end.

(** The properties an object is serialised with: all of them, or those
    named by the replacer array, in the array's order. *)
Definition select {A} (keys : option (list string)) (fields : list (string * A))
    : list (string * A) :=
  match keys with
  | None => fields
  | Some ks =>
      omap (fun k => List.find (fun kv : string * A => String.eqb kv.1 k) fields) ks
  end.

Fixpoint print (keys : option (list string)) (v : json) : list ascii :=
  match v with
  | JNull => list_ascii_of_string "null"
  | JBool true => list_ascii_of_string "true"
  | JBool false => list_ascii_of_string "false"
  | JNum n => list_ascii_of_string (pretty n)
  | JStr s => quote s
  | JArr items =>
      ("["%char :: join [","%char] (map (print keys) items) ++ ["]"%char])%list
  | JObj fields =>
      let printed :=
        map (fun kv : string * json =>
               match kv with (k, x) => (k, print keys x) end) fields in
      ("{"%char ::
       join [","%char]
         (map (fun kp : string * list ascii => (quote kp.1 ++ ":"%char :: kp.2)%list)
              (select keys printed))
       ++ ["}"%char])%list
  end.

Fixpoint skip_ws (l : list ascii) : list ascii :=
  match l with
  | c :: r => if is_whitespace c then skip_ws r else l
  | [] => []
  end.

Fixpoint parse_string (l : list ascii) (acc : list ascii) : option (string * list ascii) :=
  match l with
  | [] => None
  | c :: r =>
      if Ascii.eqb c dquote then Some (string_of_list_ascii (rev acc), r)
      else if Ascii.eqb c backslash then
        match r with
        | e :: r' => parse_string r' (e :: acc)
        | [] => None
        end
      else parse_string r (c :: acc)
  end.

Fixpoint parse_digits (l : list ascii) (acc : Z) : Z * list ascii :=
  match l with
  | c :: r =>
      if ReportProblem.is_digit c
      then parse_digits r (10 * acc + ReportProblem.digit_value c)%Z
      else (acc, l)
  | [] => (acc, [])
  end.

Fixpoint parse_value (fuel : nat) (l : list ascii) : option (json * list ascii) :=
  match fuel with
  | O => None
  | S fuel' =>
      match skip_ws l with
      | "n"%char :: "u"%char :: "l"%char :: "l"%char :: r => Some (JNull, r)
      | "t"%char :: "r"%char :: "u"%char :: "e"%char :: r => Some (JBool true, r)
      | "f"%char :: "a"%char :: "l"%char :: "s"%char :: "e"%char :: r =>
          Some (JBool false, r)
      | "["%char :: r =>
          match skip_ws r with
          | "]"%char :: r' => Some (JArr [], r')
          | _ => parse_items fuel' r []
          end
      | "{"%char :: r =>
          match skip_ws r with
          | "}"%char :: r' => Some (JObj [], r')
          | _ => parse_fields fuel' r []
          end
      | "-"%char :: c :: r =>
          if ReportProblem.is_digit c
          then let '(n, r') := parse_digits (c :: r) 0%Z in Some (JNum (- n), r')
          else None
      | c :: r =>
          if Ascii.eqb c dquote then
            match parse_string r [] with
            | Some (s, r') => Some (JStr s, r')
            | None => None
            end
          else if ReportProblem.is_digit c
          then let '(n, r') := parse_digits (c :: r) 0%Z in Some (JNum n, r')
          else None
      | [] => None
      end
  end
with parse_items (fuel : nat) (l : list ascii) (acc : list json)
    : option (json * list ascii) :=
  match fuel with
  | O => None
  | S fuel' =>
      match parse_value fuel' l with
      | None => None
      | Some (v, r) =>
          match skip_ws r with
          | ","%char :: r' => parse_items fuel' r' (v :: acc)
          | "]"%char :: r' => Some (JArr (rev (v :: acc)), r')
          | _ => None
          end
      end
  end
with parse_fields (fuel : nat) (l : list ascii) (acc : list (string * json))
    : option (json * list ascii) :=
  match fuel with
  | O => None
  | S fuel' =>
      match skip_ws l with
      | c :: r =>
          if Ascii.eqb c dquote then
            match parse_string r [] with
            | None => None
            | Some (k, r1) =>
                match skip_ws r1 with
                | ":"%char :: r2 =>
                    match parse_value fuel' r2 with
                    | None => None
                    | Some (v, r3) =>
                        match skip_ws r3 with
                        | ","%char :: r4 => parse_fields fuel' r4 ((k, v) :: acc)
                        | "}"%char :: r4 => Some (JObj (rev ((k, v) :: acc)), r4)
                        | _ => None
                        end
                    end
                | _ => None
                end
            end
          else None
      | [] => None
      end
  end.

Definition parse (s : string) : option json :=
  match parse_value (S (String.length s)) (list_ascii_of_string s) with
  | Some (v, r) => match skip_ws r with [] => Some v | _ => None end
  | None => None
  end.

Definition xor_byte (a b : ascii) : ascii :=
  ascii_of_N (N.lxor (N_of_ascii a) (N_of_ascii b)).

Definition checksum (parts : list bytes) : ascii :=
  fold_left xor_byte (concat parts) zero.

Definition mask (key : bytes) : ascii := hd zero key.

Definition seal (key iv : bytes) (aad : option bytes) (pt : bytes) : bytes :=
  (map (xor_byte (mask key)) pt ++ [checksum [key; iv; default [] aad; pt]])%list.

Definition open (key iv : bytes) (aad : option bytes) (ct : bytes) : option bytes :=
  match rev ct with
  | tag :: body =>
      let pt := map (xor_byte (mask key)) (rev body) in
      if Ascii.eqb tag (checksum [key; iv; default [] aad; pt]) then Some pt else None
  | [] => None
  end.

Definition split (secret : bytes) (n t : Z) : option (list bytes) :=
  if (2 <=? t)%Z && (t <=? n)%Z && (n <=? 255)%Z then
    Some ((fun i : nat => ascii_of_nat (S i) :: secret) <$> seq 0 (Z.to_nat n))
  else None.

Definition combine (shares : list bytes) : option bytes :=
  match shares with
  | (_ :: secret) :: _ => Some secret
  | _ => None
  end.

#[local] Instance platform : WebPlatform := {|
  CryptoKey := bytes;
  JSON_stringify := fun v => string_of_list_ascii (print None v);
  JSON_stringify_keys := fun v keys => string_of_list_ascii (print (Some keys) v);
  JSON_parse := parse;
  aes_gcm_encrypt := seal;
  aes_gcm_decrypt := open;
  exportKey_raw := fun k => k;
  importKey_raw := fun k =>
    if bool_decide (length k ∈ [16; 24; 32]%nat) then Some k else None;
  shamir_split := split;
  shamir_combine := combine;
  spread_accepted := fun n => (N.of_nat n <=? 65535)%N;
|}.

Definition channel (id : string) (guardian : bool) : Wallet.IChannel :=
  {| Wallet.channel_id := id; Wallet.supports_guardian := true;
     Wallet.is_guardian := guardian |}.

(** An initialised wallet whose channels are [channels]; the gateway
    channel is the one the wallet opens first. *)
Definition wallet (channels : list Wallet.IChannel)
    (recovery : option Wallet.Recovery) : Wallet.Wallet :=
  {| Wallet._gatewayDID := "did:web:gw";
     Wallet._walletUser := {| Wallet.mediator_id := "did:peer:mediator";
                              Wallet.routing_id := Some "did:peer:routing" |};
     Wallet._namespace := Reference.NS1;
     Wallet._channels := channels;
     Wallet._walletKey := list_ascii_of_string "0123456789abcdef0123456789abcdef";
     Wallet._currentRecovery := recovery;
     Wallet._restoredData := None |}.

(** The gateway is not a guardian; GA and GB are. *)
Definition gateway_then_two_guardians : list Wallet.IChannel :=
  [channel "did:web:gw" false; channel "did:web:GA" true; channel "did:web:GB" true].

Definition uuid (i : nat) : string := "uuid-" +:+ pretty i.

(** A recovery that has just been started. *)
Definition fresh_recovery : Wallet.Recovery :=
  {| Wallet.recovery_id := "R1"; Wallet.recovery_namespace := Reference.NS1;
     Wallet.recovery_shares := [] |}.

(** A GUARDIAN_RELEASE_SHARE message from [guardian] and its decoded
    payload. *)
Definition release_share (guardian share : string) (threshold : Z)
    : DIDComm.IDIDCommMessage * Wallet.ReleasedShare :=
  (CoralKM.createMessage "uuid-rs"
     (CoralKM.GuardianReleaseShareArgs (Some guardian) (Some "did:peer:routing")
        "R1" share (Some threshold)),
   {| Wallet.released_share := share; Wallet.released_threshold := threshold;
      Wallet.released_request_id := Some "R1" |}).

End ReferenceWeb.
(** *** Further example messages and handler objects *)

Module Fixtures.
Import DIDComm.

Definition coralkm (name : string) : IDIDCommMessageType :=
  Reference.coralkm_type name.

(** A share update for [NS1] sent by [from] to the guardian. *)
Definition share_update (from share : string) : Message :=
  {| msg_id := "m3"; msg_type := CoralKM.GUARDIAN_SHARE_UPDATE;
     msg_from := Some from; msg_to := Some "did:web:guardian";
     threadId := None;
     data := Some {| data_device_did := None; data_namespace := Some Reference.NS1;
                     data_expires_at := None; data_response := None;
                     data_challenge_id := None; data_pthid := None;
                     data_share := Some share; data_threshold := Some 2%Z;
                     data_code := None; data_comment := None; data_args := None;
                     data_escalate_to := None |};
     metaData := [] |}.

(** A guardian request sent by [from]. *)
Definition guardian_request (from : string) : Message :=
  {| msg_id := "m2"; msg_type := CoralKM.GUARDIAN_REQUEST;
     msg_from := Some from; msg_to := Some "did:web:guardian";
     threadId := None; data := None; metaData := [] |}.

(** A guardian that has granted nothing yet. *)
Definition new_guardian : CoralKM.DCCoralKMProtocolV01 :=
  {| CoralKM.roles := [CoralKM.guardian];
     CoralKM.guardianStore := Some GuardianStore.empty;
     CoralKM._guardian_did := None |}.

(** A guardian that has refused bob. *)
Definition guardian_refusing_bob : CoralKM.DCCoralKMProtocolV01 :=
  {| CoralKM.roles := [CoralKM.guardian];
     CoralKM.guardianStore :=
       Some (GuardianStore.setGuardianPolicy GuardianStore.empty "did:web:bob"
               GuardianStore.DENIED);
     CoralKM._guardian_did := None |}.

(** An agent with the wallet role only. *)
Definition wallet_only : CoralKM.DCCoralKMProtocolV01 :=
  {| CoralKM.roles := [CoralKM.wallet];
     CoralKM.guardianStore := None;
     CoralKM._guardian_did := None |}.

(** The verification challenge a guardian sends for request [R1]. *)
Definition challenge : IVerificationChallenge :=
  {| challenge_id := "C1"; challenge_type := code;
     instructions := "Please enter your verification code provided by your guardian." |}.

Definition challenge_message : Message :=
  {| msg_id := "m5"; msg_type := CoralKM.GUARDIAN_VERIFICATION_CHALLENGE;
     msg_from := Some "did:web:guardian"; msg_to := Some "did:web:device";
     threadId := None;
     data := Some {| data_device_did := None; data_namespace := None;
                     data_expires_at := None; data_response := None;
                     data_challenge_id := None; data_pthid := Some "R1";
                     data_share := None; data_threshold := None;
                     data_code := None; data_comment := None; data_args := None;
                     data_escalate_to := None |};
     metaData := [] |}.

(** A guardian that has granted alice and holds no share yet. *)
Definition guardian_of_alice : CoralKM.DCCoralKMProtocolV01 :=
  {| CoralKM.roles := [CoralKM.guardian];
     CoralKM.guardianStore :=
       Some (GuardianStore.setGuardianPolicy GuardianStore.empty "did:web:alice"
               GuardianStore.GRANTED);
     CoralKM._guardian_did := Some "did:web:guardian" |}.

(** A verification response for the recovery request [pthid], sent by a
    DID that is not the recovering device. *)
Definition response_for (pthid : string) : Message :=
  {| msg_id := "m8";
     msg_type := CoralKM.GUARDIAN_VERIFICATION_CHALLENGE_RESPONSE;
     msg_from := Some "did:web:somebody"; msg_to := Some "did:web:guardian";
     threadId := None;
     data := Some {| data_device_did := None; data_namespace := None;
                     data_expires_at := None; data_response := Some "123456";
                     data_challenge_id := Some "not-the-challenge";
                     data_pthid := Some pthid; data_share := None;
                     data_threshold := None; data_code := None;
                     data_comment := None; data_args := None;
                     data_escalate_to := None |};
     metaData := [] |}.

(** Handler objects reduced to the strings the registry reads. *)
Record descriptor := {
  d_name : string;
  d_version : string;
  d_piuri : string;
}.

Definition trust_ping : descriptor :=
  {| d_name := "Trust Ping"; d_version := "2.0";
     d_piuri := "https://didcomm.org/trust-ping" |}.

Definition discovery : descriptor :=
  {| d_name := "Feature Discovery"; d_version := "2.0";
     d_piuri := "https://didcomm.org/discover-features" |}.

Definition report_problem : descriptor :=
  {| d_name := "Problem Report"; d_version := "2.0";
     d_piuri := "https://didcomm.org/report-problem" |}.

Definition coralkm_descriptor : descriptor :=
  {| d_name := "CoralKM"; d_version := "0.1";
     d_piuri := "https://coralstack.com/coralkm" |}.

(** The registry after the default protocols were registered. *)
Definition default_registry : JSMap.t descriptor :=
  [("https://didcomm.org/trust-ping/2.0", trust_ping);
   ("https://didcomm.org/discover-features/2.0", discovery);
   ("https://didcomm.org/report-problem/2.0", report_problem)].

(** An open connection of the wallet to the gateway, nothing pending. *)
Definition connection : WebSocketConnection.Connection :=
  {| WebSocketConnection._mediatorDID := "did:web:gw";
     WebSocketConnection._clientDID := Some "did:peer:alice";
     WebSocketConnection.isOpen := true;
     WebSocketConnection.onMessage := true;
     WebSocketConnection._replyHandlers := ∅ |}.

(** The wallet's request that the gateway become a guardian. *)
Definition request_to_gateway : IDIDCommMessage :=
  CoralKM.createMessage "m2"
    (CoralKM.GuardianRequestArgs (Some "did:peer:alice") (Some "did:web:gw")).

(** The gateway's answer in the thread [thid], as the agent hands it
    over. *)
Definition grant_reply (thid : string) : WebSocketConnection.IMessage :=
  {| WebSocketConnection.im_id := "m9";
     WebSocketConnection.im_type := CoralKM.GUARDIAN_GRANT;
     WebSocketConnection.im_from := Some "did:web:gw";
     WebSocketConnection.im_to := Some "did:peer:alice";
     WebSocketConnection.im_createdAt := None;
     WebSocketConnection.im_expiresAt := None;
     WebSocketConnection.im_data := None;
     WebSocketConnection.im_attachments := None;
     WebSocketConnection.im_threadId := Some thid;
     WebSocketConnection.im_returnRoute := None;
     WebSocketConnection.im_metaData := Some [] |}.

End Fixtures.


(** * Properties *)

(** ** Comment processing of problem reports *)

Module ReportProblemFacts.
Import ReportProblem.

Lemma app_String (c : ascii) (a b : string) : String c a +:+ b = String c (a +:+ b).
Proof. reflexivity. Qed.

Lemma app_empty_l (a : string) : "" +:+ a = a.
Proof. reflexivity. Qed.

Lemma app_assoc_string (a b c : string) : (a +:+ b) +:+ c = a +:+ (b +:+ c).
Proof. induction a as [|x a IH]; [done|]. rewrite !app_String. by f_equal. Qed.

Lemma length_app_string (a b : string) :
  String.length (a +:+ b) = (String.length a + String.length b)%nat.
Proof.
  induction a as [|x a IH]; [done|].
  rewrite app_String. cbn [String.length]. by rewrite IH.
Qed.

(** The defining equation of the scan, free of the termination argument. *)
Lemma replace_placeholders_unfold (f : string -> string) (s : string) :
  replace_placeholders f s =
  match match_placeholder s with
  | Some (ds, rest) => f ds +:+ replace_placeholders f rest
  | None =>
      match s with
      | EmptyString => EmptyString
      | String c s' => String c (replace_placeholders f s')
      end
  end.
Proof.
  destruct s as [|c s']; [by simp replace_placeholders|].
  simp replace_placeholders.
  generalize (JS.inspect (match_placeholder (String c s'))).
  intros [[[ds rest]|] Heq]; simp replace_placeholders; rewrite Heq; reflexivity.
Qed.

(** The anchored match, with the two character tests made explicit. *)
Lemma match_placeholder_eq (c : ascii) (s1 : string) :
  match_placeholder (String c s1) =
  if Ascii.eqb c "{" then
    match span_digits s1 with
    | (String d ds, String r0 rest) =>
        if Ascii.eqb r0 "}" then Some (String d ds, rest) else None
    | _ => None
    end
  else None.
Proof.
  destruct c as [[] [] [] [] [] [] [] []]; cbn [match_placeholder Ascii.eqb Bool.eqb];
    try reflexivity.
  destruct (span_digits s1) as [[|d ds] [|r0 rest]]; try reflexivity.
  destruct r0 as [[] [] [] [] [] [] [] []]; reflexivity.
Qed.

Lemma span_digits_app (s : string) : (span_digits s).1 +:+ (span_digits s).2 = s.
Proof.
  induction s as [|c s IH]; [done|]. cbn [span_digits].
  destruct (is_digit c); [|done].
  destruct (span_digits s) as [ds r]; cbn [fst snd] in *.
  rewrite app_String. by f_equal.
Qed.

Lemma span_digits_all_digits (s : string) : all_digits (span_digits s).1 = true.
Proof.
  induction s as [|c s IH]; [done|]. cbn [span_digits].
  destruct (is_digit c) eqn:Hc; [|done].
  destruct (span_digits s) as [ds r]; cbn [fst snd all_digits] in *.
  by rewrite Hc, IH.
Qed.

(** A non-digit stops the digit run wherever the run would have ended. *)
Lemma span_digits_app_stop (a : string) (c : ascii) (y : string) :
  is_digit c = false ->
  span_digits (a +:+ String c y) =
  ((span_digits a).1, (span_digits a).2 +:+ String c y).
Proof.
  intros Hc. induction a as [|x a IH].
  - rewrite app_empty_l. cbn [span_digits fst snd]. by rewrite Hc, app_empty_l.
  - rewrite app_String. cbn [span_digits]. destruct (is_digit x); [|done].
    rewrite IH. by destruct (span_digits a).
Qed.

Lemma span_digits_of_digits (ds : string) :
  all_digits ds = true -> span_digits ds = (ds, EmptyString).
Proof.
  induction ds as [|c ds IH]; [done|]. cbn [all_digits span_digits].
  intros [Hc Hds]%andb_prop. rewrite Hc, (IH Hds). reflexivity.
Qed.

Lemma match_placeholder_shape (s ds rest : string) :
  match_placeholder s = Some (ds, rest) ->
  s = "{" +:+ ds +:+ "}" +:+ rest /\ all_digits ds = true /\ ds <> EmptyString.
Proof.
  destruct s as [|c s1]; [done|]. rewrite match_placeholder_eq.
  destruct (Ascii.eqb_spec c "{") as [->|]; [|done].
  pose proof (span_digits_app s1) as Happ.
  pose proof (span_digits_all_digits s1) as Hdig.
  destruct (span_digits s1) as [[|d ds'] [|r0 r]]; try done.
  destruct (Ascii.eqb_spec r0 "}") as [->|]; [|done].
  intros [= <- <-]. cbn [fst snd] in *. by rewrite <- Happ.
Qed.

Lemma match_placeholder_here (ds post : string) :
  all_digits ds = true -> ds <> EmptyString ->
  match_placeholder ("{" +:+ ds +:+ "}" +:+ post) = Some (ds, post).
Proof.
  intros Hds Hne. change ("{" +:+ ds +:+ "}" +:+ post)
    with (String "{" (ds +:+ String "}" post)).
  rewrite match_placeholder_eq. cbn [Ascii.eqb Bool.eqb].
  rewrite span_digits_app_stop by reflexivity.
  rewrite (span_digits_of_digits ds Hds). cbn [fst snd]. rewrite app_empty_l.
  destruct ds as [|d ds']; [done|]. reflexivity.
Qed.

(** A match inside [pre] is the same match when text starting with a brace
    follows [pre]; no match at the start of [pre] stays no match. *)
Lemma match_placeholder_app (pre x : string) :
  pre <> EmptyString ->
  match_placeholder (pre +:+ String "{" x) =
  match match_placeholder pre with
  | Some (ds, rest) => Some (ds, rest +:+ String "{" x)
  | None => None
  end.
Proof.
  destruct pre as [|c s1]; [done|]. intros _.
  rewrite app_String, !match_placeholder_eq.
  destruct (Ascii.eqb c "{"); [|done].
  rewrite span_digits_app_stop by reflexivity.
  destruct (span_digits s1) as [[|d ds'] [|r0 r]]; cbn [fst snd];
    rewrite ?app_empty_l, ?app_String; try done.
  destruct (Ascii.eqb r0 "}"); reflexivity.
Qed.

(** The scan distributes over a placeholder occurrence. *)
Lemma replace_placeholders_occurrence (f : string -> string) (ds post : string) :
  all_digits ds = true -> ds <> EmptyString ->
  forall n pre, (String.length pre <= n)%nat ->
  replace_placeholders f (pre +:+ "{" +:+ ds +:+ "}" +:+ post) =
  replace_placeholders f pre +:+ f ds +:+ replace_placeholders f post.
Proof.
  intros Hds Hne. induction n as [|n IH]; intros pre Hlen.
  - destruct pre; [|cbn in Hlen; lia].
    rewrite !app_empty_l.
    rewrite (replace_placeholders_unfold f ("{" +:+ _)).
    by rewrite (match_placeholder_here ds post Hds Hne).
  - destruct pre as [|c s1].
    { apply (IH ""). cbn; lia. }
    rewrite (replace_placeholders_unfold f (String c s1 +:+ _)).
    change ("{" +:+ ds +:+ "}" +:+ post) with (String "{" (ds +:+ "}" +:+ post)).
    rewrite match_placeholder_app by done.
    rewrite (replace_placeholders_unfold f (String c s1)).
    destruct (match_placeholder (String c s1)) as [[d rest]|] eqn:Hm.
    + apply match_placeholder_shape in Hm as (Heq & _ & _).
      apply (f_equal String.length) in Heq. rewrite !length_app_string in Heq.
      cbn [String.length] in Heq, Hlen.
      change (String "{" (ds +:+ "}" +:+ post)) with ("{" +:+ ds +:+ "}" +:+ post).
      rewrite IH by lia. by rewrite !app_assoc_string.
    + rewrite app_String. change (String "{" (ds +:+ "}" +:+ post))
        with ("{" +:+ ds +:+ "}" +:+ post).
      rewrite IH by (cbn [String.length] in Hlen; lia). by rewrite app_String.
Qed.

(** Without a placeholder the scan changes nothing. *)
Lemma replace_placeholders_none (f : string -> string) :
  forall n comment, (String.length comment <= n)%nat ->
  ~ has_placeholder comment -> replace_placeholders f comment = comment.
Proof.
  induction n as [|n IH]; intros comment Hlen Hno.
  - destruct comment; [|cbn in Hlen; lia]. by rewrite replace_placeholders_unfold.
  - rewrite replace_placeholders_unfold.
    destruct (match_placeholder comment) as [[d rest]|] eqn:Hm.
    + apply match_placeholder_shape in Hm as (Heq & Hd & Hne).
      exfalso. apply Hno. exists "", d, rest. by rewrite Heq.
    + destruct comment as [|c s']; [done|]. f_equal. apply IH.
      * cbn [String.length] in Hlen. lia.
      * intros (pre & ds & post & -> & Hd & Hne). apply Hno.
        exists (String c pre), ds, post. by rewrite app_String.
Qed.

(** C9. Problem-report comment processing: with an absent or empty
    argument list the comment is returned unchanged; a comment without a
    numbered placeholder is returned unchanged; and at every occurrence of
    a placeholder [{ds}] ([ds] one or more decimal digits of value i) the
    result is the processed text before it, then [args[i-1]] when that
    argument exists and the literal placeholder otherwise, then the
    processed text after it. *)
Theorem processComment_placeholders
    (comment : string) (args : list string) (pre ds post : string) :
  all_digits ds = true -> ds <> EmptyString ->
  _processComment comment None = comment /\
  _processComment comment (Some []) = comment /\
  (~ has_placeholder comment -> _processComment comment (Some args) = comment) /\
  _processComment (pre +:+ "{" +:+ ds +:+ "}" +:+ post) (Some args) =
    _processComment pre (Some args)
    +:+ match array_get args (parseInt ds - 1) with
        | Some a => a
        | None => "{" +:+ ds +:+ "}"
        end
    +:+ _processComment post (Some args).
Proof.
  intros Hds Hne. repeat split.
  - intros Hno. destruct args as [|a args]; [done|].
    by apply (replace_placeholders_none _ (String.length comment)).
  - destruct args as [|a args].
    { cbn [_processComment]. unfold array_get.
      destruct (parseInt ds - 1 <? 0)%Z; rewrite ?lookup_nil, !app_assoc_string; done. }
    cbn [_processComment].
    by rewrite (replace_placeholders_occurrence _ ds post Hds Hne (String.length pre)).
Qed.

(** The message of [assertMessageFieldDefined] with its two arguments, and
    a third placeholder without an argument. *)
Lemma processComment_placeholders_witness :
  _processComment "Message {1} received without {2} set {3}"
                  (Some ["ping"; "from"])
  = "Message ping received without from set {3}".
Proof.
  exact (proj2 (proj2 (proj2
    (processComment_placeholders "" ["ping"; "from"]
       "Message " "1" " received without {2} set {3}" eq_refl
       ltac:(discriminate))))).
Defined.

End ReportProblemFacts.

(** ** The message handler's problem reports *)

Module DIDCommEngineFacts.
Import DIDComm DIDCommEngine.

Lemma fold_addMetaData_fields (added : list MetaData) (m : Message) :
  let m' := fold_left addMetaData added m in
  msg_id m' = msg_id m /\ msg_from m' = msg_from m /\ msg_to m' = msg_to m /\
  threadId m' = threadId m /\ metaData m' = (metaData m ++ added)%list.
Proof.
  revert m. induction added as [|a added IH]; intros m; cbn [fold_left].
  - by rewrite app_nil_r.
  - destruct (IH (addMetaData m a)) as (-> & -> & -> & -> & ->). cbn.
    by rewrite <- app_assoc.
Qed.

(** The claim as the specification words it: the report's [pthid] is the
    offending message's [thid] whenever the message has one. *)
Definition pthid_is_thid_when_present : Prop :=
  forall getMessageType protocols uuid message added emsg ecode emt eargs annotated,
    dispatch getMessageType protocols message
      = (added, inr (DIDCommProtocolError emsg ecode emt eargs)) ->
    annotate getMessageType protocols uuid message = ok annotated ->
    forall t, threadId message = Some t ->
    exists rid report ct,
      last (metaData annotated) = Some (ReturnRouteResponse rid report ct) /\
      pthid report = Some t.

(** C8, as amended. When the protocol handler rejects a message with a
    [DIDCommProtocolError] and the Problem Report protocol is registered,
    the handler passes the message on with the metadata the protocol
    handler added and exactly one more entry: a return-route problem report
    sent from the offending message's [to] to its [from], carrying the
    error's code, message and arguments, with [pthid] the offending
    message's [thid] when that is a non-empty string and its [id] when the
    [thid] is absent or empty. *)
Theorem problem_report_on_rejection
    (getMessageType : string -> Result IDIDCommMessageType)
    (protocols : gmap string IDIDCommProtocolHandler)
    (uuid : string) (message : Message) (added : list MetaData)
    (emsg ecode : string) (emt : IDIDCommMessageType) (eargs : option (list string)) :
  dispatch getMessageType protocols message
    = (added, inr (DIDCommProtocolError emsg ecode emt eargs)) ->
  getDIDCommProtocol getMessageType protocols PROBLEM_REPORT
    = ok DCReportProblemProtocolV2 ->
  exists report annotated,
    annotate getMessageType protocols uuid message = ok annotated /\
    metaData annotated
      = (metaData message ++ added ++ [ReturnRouteResponse uuid report PLAIN])%list /\
    mtype report = PROBLEM_REPORT /\
    to report = [msg_from message] /\
    from report = msg_to message /\
    body report = Some (BodyProblemReport ecode (Some emsg) eargs None) /\
    (forall t, threadId message = Some t -> t <> EmptyString -> pthid report = Some t) /\
    (threadId message = None \/ threadId message = Some EmptyString ->
     pthid report = Some (msg_id message)).
Proof.
  intros Hd Hp.
  destruct (fold_addMetaData_fields added message) as (Hid & Hfrom & Hto & Hth & Hmeta).
  unfold annotate. rewrite Hd. unfold problemReport. rewrite Hp.
  cbn [bind ok DCReportProblemProtocolV2 createMessage ReportProblem_createMessage
       rp_from rp_to rp_pthid rp_code rp_comment rp_args rp_escalate_to id].
  eexists _, _. split; [reflexivity|].
  cbn [addMetaData metaData mtype to from body pthid].
  rewrite Hmeta, Hfrom, Hto, Hth, Hid, <- app_assoc.
  repeat split.
  - intros t -> Ht. cbn. by destruct t.
  - intros [-> | ->]; reflexivity.
Qed.

(** A wallet-only agent receives a guardian-remove message on thread
    ["t1"]: the role check rejects it and the report goes back on that
    thread. *)
Lemma problem_report_on_rejection_witness :
  exists report annotated,
    annotate Reference.getMessageType (Reference.protocols Reference.wallet_agent)
      "uuid-report"
      (Reference.message CoralKM.GUARDIAN_REMOVE (Some "did:web:alice")
         (Some "did:web:guardian") (Some "t1") None) = ok annotated /\
    metaData annotated = [ReturnRouteResponse "uuid-report" report PLAIN] /\
    to report = [Some "did:web:alice"] /\
    pthid report = Some "t1" /\
    body report = Some (BodyProblemReport "invalid_role"
      (Some "invalid_role:  Protocol Message {1} received by agent without required role {2}")
      (Some ["https://coralstack.com/coralkm/0.1/guardian-remove"; "guardian"]) None).
Proof.
  destruct (problem_report_on_rejection Reference.getMessageType
              (Reference.protocols Reference.wallet_agent) "uuid-report"
              (Reference.message CoralKM.GUARDIAN_REMOVE (Some "did:web:alice")
                 (Some "did:web:guardian") (Some "t1") None)
              [] _ _ _ _ eq_refl eq_refl)
    as (report & annotated & Ha & Hm & _ & Hto & _ & Hb & Hthid & _).
  exists report, annotated. repeat split; try assumption.
  by apply Hthid.
Defined.

(** A message whose [thid] is the empty string is reported under its [id]. *)
Lemma empty_thid_is_reported_under_id : ~ pthid_is_thid_when_present.
Proof.
  intros Hclaim.
  destruct (Hclaim Reference.getMessageType
              (Reference.protocols Reference.wallet_agent) "uuid-report"
              (Reference.message CoralKM.GUARDIAN_REMOVE (Some "did:web:alice")
                 (Some "did:web:guardian") (Some "") None)
              [] _ _ _ _ _ eq_refl eq_refl "" eq_refl)
    as (rid & report & ct & Hlast & Hpthid).
  vm_compute in Hlast. injection Hlast as _ <- _. discriminate Hpthid.
Qed.

End DIDCommEngineFacts.

(** ** The guardian store and the guardian cases of the handler *)

Module GuardianFacts.
Import DIDComm GuardianStore CoralKM.

Section Facts.
Context {P : Platform}.

Lemma truthy_string_ne (s : string) : s <> EmptyString -> JS.truthy_string s = true.
Proof. by destruct s. Qed.

Lemma assertRole_ok (r : CoralKMRoles) (this : DCCoralKMProtocolV01)
    (mt : IDIDCommMessageType) :
  r ∈ roles this -> assertRole r this mt = ok tt.
Proof.
  intros Hr. unfold assertRole, DIDComm.assertRole.
  rewrite bool_decide_eq_true_2; [done|]. by apply list_elem_of_fmap_2.
Qed.

(** The checks of the verification-response case pass on a valid message. *)
Lemma valid_response_checks this mt message st to response pthid :
  valid_response this message st to response pthid ->
  exists from d,
    msg_from message = Some from /\ data message = Some d /\
    (assertRole guardian this mt ;;!
     from <-! assertMessageFieldDefined JS.truthy_string
                (msg_from message) "from" mt;
     to <-! assertMessageFieldDefined JS.truthy_string
              (msg_to message) "to" mt;
     d <-! get_data "response" message;
     response <-! assertMessageFieldDefined JS.truthy_string
                    (data_response d) "body.response" mt;
     _ <-! assertMessageFieldDefined JS.truthy_string
             (data_challenge_id d) "body.challenge_id" mt;
     pthid <-! assertMessageFieldDefined JS.truthy_string
                 (data_pthid d) "body.pthid" mt;
     st <-! requireGuardianStore this mt;
     ok (to, response, pthid, st)) = ok (to, response, pthid, st).
Proof.
  intros [Hrole Hfrom [Hto Hto'] [Hresp Hresp'] Hch [Hp Hp'] Hst].
  destruct (msg_from message) as [from|] eqn:Efrom; [|done].
  destruct (data message) as [d|] eqn:Ed; [|done].
  exists from, d. split; [done|]. split; [done|].
  cbn in Hfrom, Hresp, Hch, Hp. injection Hresp as Hresp. injection Hp as Hp.
  destruct (data_challenge_id d) as [c|] eqn:Ec; [|done]. cbn in Hch.
  rewrite (assertRole_ok _ _ _ Hrole).
  unfold assertMessageFieldDefined, get_data, requireGuardianStore, bind, ok.
  rewrite Hfrom, Hto, Ed, Hresp, Ec, Hch, Hp, Hst.
  by rewrite !truthy_string_ne by done.
Qed.

(** The verification-response case on a valid message, as a function of
    the store. *)
Lemma verification_response_eval uuid this mt message st to response pthid :
  valid_response this message st to response pthid ->
  handle_guardian_verification_challenge_response uuid this mt message =
  match getRecoveryRequest st pthid with
  | None => (ok None, this)
  | Some recoveryRequest =>
      if String.eqb response "123456" then
        match getShare st (gateway_did (namespace recoveryRequest))
                          (ns_id (namespace recoveryRequest)) with
        | None => (ok None, this)
        | Some sh =>
            (ok (Some (createMessage uuid
                         (GuardianReleaseShareArgs (Some to)
                            (Some (deviceDid recoveryRequest)) pthid
                            (share sh) (threshold sh)))),
             this)
        end
      else (ok None, with_store this (deleteRecoveryRequest st pthid).2)
  end.
Proof.
  intros Hv. destruct (valid_response_checks this mt message st to response pthid Hv)
    as (from & d & _ & _ & Hc).
  unfold handle_guardian_verification_challenge_response. rewrite Hc.
  reflexivity.
Qed.

Lemma getRecoveryRequest_with_expiry st k e requestId :
  getRecoveryRequest (GuardianStore.with_expiry st k e) requestId =
  (fun r => if decide (k = requestId)
            then {| request_id := request_id r; deviceDid := deviceDid r;
                    namespace := namespace r; createdAt := createdAt r;
                    expiresAt := e |}
            else r) <$> getRecoveryRequest st requestId.
Proof.
  unfold getRecoveryRequest, GuardianStore.with_expiry. cbn [recoveryRequests].
  destruct (decide (k = requestId)) as [->|Hne].
  - by rewrite lookup_alter_eq.
  - rewrite lookup_alter_ne by done. by destruct (_ !! _).
Qed.

Lemma deleteRecoveryRequest_with_expiry st k e requestId :
  (deleteRecoveryRequest (GuardianStore.with_expiry st k e) requestId).2 =
  GuardianStore.with_expiry (deleteRecoveryRequest st requestId).2 k e.
Proof.
  unfold deleteRecoveryRequest, GuardianStore.with_expiry.
  cbn [snd guardianPolicies shares recoveryRequests]. f_equal.
  apply map_eq. intros i.
  destruct (decide (requestId = i)) as [->|Hi].
  - rewrite lookup_delete_eq.
    destruct (decide (k = i)) as [->|Hk].
    + by rewrite lookup_alter_eq, lookup_delete_eq.
    + by rewrite lookup_alter_ne, lookup_delete_eq.
  - rewrite lookup_delete_ne by done.
    destruct (decide (k = i)) as [->|Hk].
    + by rewrite !lookup_alter_eq, lookup_delete_ne.
    + by rewrite !lookup_alter_ne, lookup_delete_ne.
Qed.

(** The verification-response case never reads [expiresAt]: replacing the
    expiry of any stored request changes neither the reply nor the effect
    on the store. *)
Lemma verification_response_ignores_expiry uuid this mt message k e :
  handle_guardian_verification_challenge_response uuid (CoralKM.with_expiry this k e)
    mt message =
  let '(reply, this') :=
    handle_guardian_verification_challenge_response uuid this mt message in
  (reply, CoralKM.with_expiry this' k e).
Proof.
  unfold handle_guardian_verification_challenge_response.
  unfold assertRole, requireGuardianStore, bind, ok, throw.
  cbn [CoralKM.with_expiry roles guardianStore].
  destruct (DIDComm.assertRole _ _ mt) as [[]|err]; [|done].
  destruct (assertMessageFieldDefined _ (msg_from message) _ _) as [from|err]; [|done].
  destruct (assertMessageFieldDefined _ (msg_to message) _ _) as [to|err]; [|done].
  destruct (get_data _ message) as [d|err]; [|done].
  destruct (assertMessageFieldDefined _ (data_response d) _ _) as [response|err]; [|done].
  destruct (assertMessageFieldDefined _ (data_challenge_id d) _ _) as [c|err]; [|done].
  destruct (assertMessageFieldDefined _ (data_pthid d) _ _) as [pthid|err]; [|done].
  destruct (guardianStore this) as [st|] eqn:Est; cbn [fmap option_fmap option_map]; [|done].
  rewrite getRecoveryRequest_with_expiry.
  destruct (getRecoveryRequest st pthid) as [rr|] eqn:Err; cbn [fmap option_fmap option_map].
  2:{ unfold CoralKM.with_expiry. cbn. by rewrite Est. }
  assert (Hns : forall r : ICoralKMRecoveryRequest,
             namespace (if decide (k = pthid)
                        then {| request_id := request_id r; deviceDid := deviceDid r;
                                namespace := namespace r; createdAt := createdAt r;
                                expiresAt := e |}
                        else r) = namespace r) by (intros r; by destruct (decide _)).
  assert (Hdev : forall r : ICoralKMRecoveryRequest,
             deviceDid (if decide (k = pthid)
                        then {| request_id := request_id r; deviceDid := deviceDid r;
                                namespace := namespace r; createdAt := createdAt r;
                                expiresAt := e |}
                        else r) = deviceDid r) by (intros r; by destruct (decide _)).
  rewrite Hns, Hdev.
  destruct (String.eqb response "123456").
  - change (getShare (GuardianStore.with_expiry st k e)) with (getShare st).
    destruct (getShare st _ _) as [sh|]; unfold CoralKM.with_expiry; cbn; by rewrite Est.
  - pose proof (deleteRecoveryRequest_with_expiry st k e pthid) as Hdel.
    destruct (deleteRecoveryRequest (GuardianStore.with_expiry st k e) pthid) as [b1 st1].
    destruct (deleteRecoveryRequest st pthid) as [b2 st2]. cbn [snd] in Hdel. subst st1.
    reflexivity.
Qed.


(** C4. On a successful verification with a share held for the request's
    namespace, the handler returns the GUARDIAN_RELEASE_SHARE reply and
    leaves the handler object, and with it the stored recovery request, as
    they were: the [return] precedes the deletion. *)
Theorem release_share_keeps_recovery_request
    uuid this mt message st to pthid rr sh :
  valid_response this message st to "123456" pthid ->
  getRecoveryRequest st pthid = Some rr ->
  getShare st (gateway_did (namespace rr)) (ns_id (namespace rr)) = Some sh ->
  exists reply,
    handle_guardian_verification_challenge_response uuid this mt message
    = (ok (Some reply), this) /\
    mtype reply = GUARDIAN_RELEASE_SHARE /\
    DIDComm.to reply = [Some (deviceDid rr)] /\
    DIDComm.pthid reply = Some pthid /\
    body reply = Some (BodyReleaseShare (share sh) (threshold sh) pthid) /\
    (guardianStore this ≫= fun st' => getRecoveryRequest st' pthid) = Some rr.
Proof.
  intros Hv Hrr Hsh.
  rewrite (verification_response_eval _ _ _ _ _ _ _ _ Hv), Hrr, Hsh.
  eexists. split; [reflexivity|]. repeat split.
  destruct Hv as [_ _ _ _ _ _ ->]. exact Hrr.
Qed.

(** On a failed verification the request is deleted and there is no
    reply. *)
Lemma failed_verification_deletes_request
    uuid this mt message st to response pthid rr :
  valid_response this message st to response pthid ->
  getRecoveryRequest st pthid = Some rr ->
  response <> "123456" ->
  exists st',
    handle_guardian_verification_challenge_response uuid this mt message
    = (ok None, with_store this st') /\
    getRecoveryRequest st' pthid = None /\
    shares st' = shares st /\ guardianPolicies st' = guardianPolicies st.
Proof.
  intros Hv Hrr Hne. rewrite (verification_response_eval _ _ _ _ _ _ _ _ Hv), Hrr.
  apply String.eqb_neq in Hne. rewrite Hne.
  eexists. split; [reflexivity|]. repeat split.
  unfold deleteRecoveryRequest, getRecoveryRequest. cbn. apply lookup_delete_eq.
Qed.

End Facts.

(** The claim of C1 as the specification words it: an expired request is
    deleted and never answered with a GUARDIAN_RELEASE_SHARE. *)
Definition expired_requests_are_purged : Prop :=
  forall (P : Platform) (now : Z) uuid this mt message st to response pthid rr,
    valid_response this message st to response pthid ->
    getRecoveryRequest st pthid = Some rr ->
    (expiresAt rr < now)%Z ->
    let '(reply, this') :=
      handle_guardian_verification_challenge_response uuid this mt message in
    (forall m, reply = ok (Some m) -> mtype m <> GUARDIAN_RELEASE_SHARE) /\
    (guardianStore this' ≫= fun st' => getRecoveryRequest st' pthid) = None.

Lemma reference_response_valid (response : string) :
  response <> EmptyString ->
  valid_response Reference.guardian_with_request
    (Reference.verification_response response)
    Reference.store_with_request "did:web:guardian" response "R1".
Proof.
  intros Hr. split; try done.
  apply list_elem_of_singleton. reflexivity.
Qed.



Lemma release_share_keeps_recovery_request_witness :
  exists reply,
    handle_guardian_verification_challenge_response (P := Reference.platform) "uuid-1"
      Reference.guardian_with_request
      (Reference.coralkm_type "guardian-verification-challenge-response")
      (Reference.verification_response "123456")
    = (ok (Some reply), Reference.guardian_with_request) /\
    body reply = Some (BodyReleaseShare "share-A" (Some 2%Z) "R1") /\
    is_Some (getRecoveryRequest Reference.store_with_request "R1").
Proof.
  destruct (release_share_keeps_recovery_request (P := Reference.platform) "uuid-1"
              Reference.guardian_with_request
              (Reference.coralkm_type "guardian-verification-challenge-response")
              (Reference.verification_response "123456")
              Reference.store_with_request "did:web:guardian" "R1" _ _
              (reference_response_valid "123456" ltac:(discriminate))
              eq_refl eq_refl)
    as (reply & Hh & _ & _ & _ & Hb & Hrr).
  exists reply. split; [exact Hh|]. split; [exact Hb|].
  eexists. exact Hrr.
Defined.

Section StoreFacts.
Context {P : Platform}.

Lemma guardian_remove_eval uuid this mt message st from to :
  valid_remove this message st from to ->
  handle_guardian_remove uuid this mt message =
  (ok (Some (createMessage uuid
               (GuardianRemoveConfirmArgs (Some to) (Some from) (msg_id message)))),
   with_store this (removeGuardianPolicy st from).2).
Proof.
  intros [Hrole [Hfrom Hfrom'] [Hto Hto'] Hst].
  unfold handle_guardian_remove.
  rewrite (assertRole_ok _ _ _ Hrole).
  unfold assertMessageFieldDefined, requireGuardianStore, bind, ok.
  rewrite Hfrom, Hto, Hst, !truthy_string_ne by done.
  by destruct (removeGuardianPolicy st from).
Qed.

(** C7, as amended. Handling a GUARDIAN_REMOVE message removes the
    sender's guardian policy (no policy is left for the sender; none is
    set to Denied), deletes every share owned by the sender and no other
    share, leaves the other policies and the recovery requests alone, and
    replies with GUARDIAN_REMOVE_CONFIRM whose [thid] is the remove
    message's [id]; both deletions are part of the same store operation. *)
Theorem guardian_remove_deletes_policy_and_shares
    uuid this mt message st from to :
  valid_remove this message st from to ->
  exists reply st',
    handle_guardian_remove uuid this mt message
    = (ok (Some reply), with_store this st') /\
    mtype reply = GUARDIAN_REMOVE_CONFIRM /\
    thid reply = Some (msg_id message) /\
    DIDComm.to reply = [Some from] /\
    DIDComm.from reply = Some to /\
    st' = (removeGuardianPolicy st from).2 /\
    getGuardianPolicy st' from = None /\
    (forall k sh, shares st' !! k = Some sh -> ownerDid sh <> from) /\
    (forall k sh, shares st !! k = Some sh -> ownerDid sh <> from ->
                  shares st' !! k = Some sh) /\
    (forall d, d <> from -> getGuardianPolicy st' d = getGuardianPolicy st d) /\
    recoveryRequests st' = recoveryRequests st.
Proof.
  intros Hv. rewrite (guardian_remove_eval _ _ _ _ _ _ _ Hv).
  eexists _, _. split; [reflexivity|]. repeat split.
  - unfold getGuardianPolicy. cbn. apply lookup_delete_eq.
  - cbn. intros k sh [_ Hk]%map_lookup_filter_Some. exact Hk.
  - cbn. intros k sh Hk Hne. apply map_lookup_filter_Some. done.
  - intros d Hd. unfold getGuardianPolicy. cbn. by apply lookup_delete_ne.
Qed.

(** A guardian-request is granted when the sender has no policy and
    refused when the policy is Denied. *)
Lemma guardian_request_by_policy uuid this mt message st from to :
  valid_remove this message st from to ->
  exists reply this',
    handle_guardian_request uuid this mt message = (ok (Some reply), this') /\
    (getGuardianPolicy st from = None -> mtype reply = GUARDIAN_GRANT) /\
    (getGuardianPolicy st from = Some {| requesterDid := from; status := DENIED |} ->
     mtype reply = GUARDIAN_DENY).
Proof.
  intros [Hrole [Hfrom Hfrom'] [Hto Hto'] Hst].
  unfold handle_guardian_request.
  rewrite (assertRole_ok _ _ _ Hrole).
  unfold assertMessageFieldDefined, requireGuardianStore, bind, ok.
  rewrite Hfrom, Hto, !truthy_string_ne by done. cbn [guardianStore]. rewrite Hst.
  destruct (getGuardianPolicy st from) as [[d []]|]; cbn;
    eexists _, _; (split; [reflexivity|]); split; intros; done.
Qed.

(** Guardianship is decided by the share map alone. *)
Lemma isGuardian_setGuardianPolicy st d policy gateway nid :
  isGuardian (setGuardianPolicy st d policy) gateway nid = isGuardian st gateway nid.
Proof. reflexivity. Qed.

Lemma isGuardian_getShare st gateway nid :
  isGuardian st gateway nid = true <-> is_Some (getShare st gateway nid).
Proof. unfold isGuardian, getShare. apply bool_decide_eq_true. Qed.

Lemma isGuardian_saveShare now st owner gateway nid thr sh st' :
  saveShare now st owner gateway nid thr sh = (ok true, st') ->
  isGuardian st' gateway nid = true.
Proof.
  unfold saveShare. destruct (getGuardianPolicy st owner) as [[d []]|]; try done.
  intros [= <-]. apply isGuardian_getShare. unfold getShare. cbn.
  rewrite lookup_insert_eq. by eexists.
Qed.

Lemma isGuardian_deleteShare st gateway nid :
  isGuardian (deleteShare st gateway nid).2 gateway nid = false.
Proof.
  unfold isGuardian, deleteShare. cbn. rewrite lookup_delete_eq.
  apply bool_decide_eq_false. by intros [? ?].
Qed.

(** A recovery request is answered with a verification challenge when
    [isGuardian] holds for its namespace and ignored otherwise. *)
Lemma recovery_request_answered_iff_isGuardian
    now challenge_uuid uuid this mt message st device ns expires :
  valid_recovery_request this message st device ns expires ->
  (isGuardian st (gateway_did ns) (ns_id ns) = true ->
   exists reply this',
     handle_namespace_recovery_request now challenge_uuid uuid this mt message
     = (ok (Some reply), this') /\
     mtype reply = GUARDIAN_VERIFICATION_CHALLENGE /\
     DIDComm.to reply = [Some device] /\
     DIDComm.pthid reply = Some (msg_id message) /\
     (guardianStore this' ≫= fun st' => getRecoveryRequest st' (msg_id message))
     = Some {| request_id := msg_id message; deviceDid := device; namespace := ns;
               createdAt := now; expiresAt := Date_parse expires |}) /\
  (isGuardian st (gateway_did ns) (ns_id ns) = false ->
   handle_namespace_recovery_request now challenge_uuid uuid this mt message
   = (ok None, this)).
Proof.
  intros [Hrole [Hdev Hdev'] Hns [Hexp Hexp'] Hst].
  destruct (data message) as [d|] eqn:Ed; [|done]. cbn in Hdev, Hns, Hexp.
  injection Hdev as Hdev. injection Hns as Hns. injection Hexp as Hexp.
  unfold handle_namespace_recovery_request.
  rewrite (assertRole_ok _ _ _ Hrole).
  unfold assertMessageFieldDefined, get_data, requireGuardianStore, bind, ok.
  rewrite Ed, Hdev, Hns, Hexp, Hst, !truthy_string_ne by done.
  cbn [JS.truthy_object]. split; intros ->.
  - eexists _, _. split; [reflexivity|]. repeat split.
    cbn. unfold getRecoveryRequest. cbn. by rewrite lookup_insert_eq.
  - reflexivity.
Qed.

(** C10. The share map is keyed by the digest of the gateway and the
    namespace identifier joined with a colon: two namespaces whose joined
    strings coincide share one entry.  A share saved for one of them makes
    the guardian answer [isGuardian] for the other, and [getShare] returns
    the first one's share for it. *)
Theorem share_key_joins_gateway_and_namespace
    now st owner g1 n1 g2 n2 thr sh st' :
  g1 +:+ ":" +:+ n1 = g2 +:+ ":" +:+ n2 ->
  saveShare now st owner g1 n1 thr sh = (ok true, st') ->
  isGuardian st' g2 n2 = true /\
  getShare st' g2 n2 =
    Some {| ownerDid := owner; share_namespace_id := n1;
            share_namespace_gateway := g1; updatedAt := now;
            threshold := thr; share := sh |}.
Proof.
  intros Hkey Hsave.
  assert (Hk : _hashKey g2 n2 = _hashKey g1 n1) by (unfold _hashKey; by rewrite Hkey).
  unfold saveShare in Hsave.
  destruct (getGuardianPolicy st owner) as [[d []]|]; try done.
  injection Hsave as <-.
  unfold isGuardian, getShare. cbn. rewrite Hk, lookup_insert_eq.
  split; [|done]. apply bool_decide_eq_true. by eexists.
Qed.

End StoreFacts.

(** The claim of C7 as the specification words it: the sender's policy is
    set to Denied. *)
Definition remove_sets_policy_denied : Prop :=
  forall uuid this mt message st from to,
    valid_remove this message st from to ->
    let '(_, this') := handle_guardian_remove uuid this mt message in
    (guardianStore this' ≫= fun st' => getGuardianPolicy st' from)
    = Some {| requesterDid := from; status := DENIED |}.

Lemma reference_remove_valid :
  valid_remove Reference.guardian_with_request Reference.remove_message
    Reference.store_with_request "did:web:alice" "did:web:guardian".
Proof. split; try done. apply list_elem_of_singleton. reflexivity. Qed.

(** After alice's GUARDIAN_REMOVE the store has no policy for alice. *)
Lemma removed_policy_is_absent : ~ remove_sets_policy_denied.
Proof.
  intros Hclaim.
  pose proof (Hclaim "uuid-1" Reference.guardian_with_request
                (Reference.coralkm_type "guardian-remove") Reference.remove_message
                _ _ _ reference_remove_valid) as Hc.
  vm_compute in Hc. discriminate Hc.
Qed.

Lemma guardian_remove_deletes_policy_and_shares_witness :
  exists reply st',
    handle_guardian_remove "uuid-1"
      Reference.guardian_with_request (Reference.coralkm_type "guardian-remove")
      Reference.remove_message
    = (ok (Some reply), with_store Reference.guardian_with_request st') /\
    thid reply = Some "m9" /\
    getGuardianPolicy st' "did:web:alice" = None /\
    isGuardian (P := Reference.platform) st' "did:web:gw" "NS1" = false.
Proof.
  destruct (guardian_remove_deletes_policy_and_shares
              "uuid-1" Reference.guardian_with_request
              (Reference.coralkm_type "guardian-remove") Reference.remove_message
              _ _ _ reference_remove_valid)
    as (reply & st' & Hh & _ & Hthid & _ & _ & Hst' & Hpol & _).
  exists reply, st'. split; [exact Hh|]. split; [exact Hthid|]. split; [exact Hpol|].
  rewrite Hst'. vm_compute. reflexivity.
Defined.

(** The namespace [gw.example:NS1] at the gateway [did:web] and the
    namespace [NS1] at the gateway [did:web:gw.example] have the same
    key. *)
Lemma share_key_joins_gateway_and_namespace_witness :
  exists st',
    saveShare (P := Reference.platform) 0
      (setGuardianPolicy empty "did:web:mallory" GRANTED)
      "did:web:mallory" "did:web" "gw.example:NS1" (Some 2%Z) "share-M"
    = (ok true, st') /\
    isGuardian (P := Reference.platform) st' "did:web:gw.example" "NS1" = true /\
    (share <$> getShare (P := Reference.platform) st' "did:web:gw.example" "NS1")
    = Some "share-M".
Proof.
  eexists. split; [reflexivity|].
  destruct (share_key_joins_gateway_and_namespace (P := Reference.platform) 0
              (setGuardianPolicy empty "did:web:mallory" GRANTED)
              "did:web:mallory" "did:web" "gw.example:NS1"
              "did:web:gw.example" "NS1" (Some 2%Z) "share-M" _ eq_refl eq_refl)
    as [Hg Hs].
  split; [exact Hg|]. by rewrite Hs.
Defined.

End GuardianFacts.

(** ** The wallet's share manager and recovery coordinator *)

Module WalletFacts.
Import DIDComm Wallet.

(** [Math.ceil(n / 2)] is the least integer whose double reaches [n]. *)
Lemma ceil_half (n : Z) : Qceiling (inject_Z n / 2) = ((n + 1) / 2)%Z.
Proof.
  unfold Qceiling, Qfloor, Qdiv, Qmult, Qinv, Qopp, inject_Z. cbn.
  rewrite Z.mul_1_r. change (Z.pos (1 * 2)) with 2%Z.
  Z.div_mod_to_equations. lia.
Qed.

Lemma ceil_half_least (n : Z) :
  (n <= 2 * Qceiling (inject_Z n / 2) < n + 2)%Z.
Proof. rewrite ceil_half. Z.div_mod_to_equations. lia. Qed.

(** The granted guardians among the channels. *)
Definition guardians (channels : list IChannel) : list IChannel :=
  filter (fun channel => is_guardian channel = true) channels.

(** An effect that sends a GUARDIAN_SHARE_UPDATE carrying threshold [t]. *)
Definition share_update_with (t : Z) (e : Effect) : Prop :=
  exists m ns sh delay,
    e = Invoke m /\ mtype m = CoralKM.GUARDIAN_SHARE_UPDATE /\
    body m = Some (BodyShareUpdate ns t sh delay).

Section Distribution.
Context {W : WebPlatform}.

(** What a share distribution for the wallet [w] sends: with [n] the
    number of granted guardians, nothing when [n < 2], else the split of
    the key into [n] shares with threshold [t = max(2, ceil(n / 2))]
    followed by GUARDIAN_SHARE_UPDATE messages that all carry [t]. *)
Definition distribution (w : Wallet) (effects : list Effect) : Prop :=
  let n := Z.of_nat (length (guardians (_channels w))) in
  let t := Z.max 2 ((n + 1) / 2) in
  ((n < 2)%Z -> effects = []) /\
  ((2 <= n)%Z ->
   exists sends, effects = SplitDEK n t :: sends /\ Forall (share_update_with t) sends).

End Distribution.

Section Facts.
Context {W : WebPlatform}.

Lemma totalShares_count (channels : list IChannel) :
  totalShares channels = Z.of_nat (length (guardians channels)).
Proof.
  unfold totalShares, guardians.
  assert (Hgen : forall acc,
    fold_left (fun acc channel => if is_guardian channel then (acc + 1)%Z else acc)
              channels acc
    = (acc + Z.of_nat (length (filter (fun channel => is_guardian channel = true)
                                      channels)))%Z).
  { induction channels as [|ch channels IH]; intros acc; cbn [fold_left].
    - cbn. lia.
    - rewrite IH, filter_cons. destruct (is_guardian ch) eqn:Hg.
      + rewrite decide_True by done. cbn [length]. lia.
      + rewrite decide_False by done. lia. }
  rewrite Hgen. lia.
Qed.

(** The message sent to the guardian at position [index] of the channel
    list. *)
Definition share_update (uuid : nat -> string) (w : Wallet) (t : Z)
    (dekShares : list string) (index : nat) (channel : IChannel) : Effect :=
  Invoke (CoralKM.createMessage (uuid index)
            (CoralKM.GuardianShareUpdateArgs
               (sender_for w channel) (Some (channel_id channel))
               (_namespace w) t (dekShares !! index) None)).

Lemma updateGuardianShares_sends uuid w dekShares :
  (2 <= totalShares (_channels w))%Z ->
  EncryptionManager.splitDEK (_walletKey w) (totalShares (_channels w))
    (threshold_of (totalShares (_channels w))) = Some dekShares ->
  forall e,
    e ∈ _updateGuardianShares uuid w <->
    e = SplitDEK (totalShares (_channels w)) (threshold_of (totalShares (_channels w))) \/
    exists index channel,
      _channels w !! index = Some channel /\ is_guardian channel = true /\
      e = share_update uuid w (threshold_of (totalShares (_channels w)))
            dekShares index channel.
Proof.
  intros Hn Hsplit e. unfold _updateGuardianShares.
  rewrite (proj2 (Z.ltb_ge _ _) Hn), Hsplit.
  rewrite elem_of_cons, list_elem_of_omap.
  split; (intros [He|He]; [by left|right]).
  - destruct He as (x & Hx & Hsome). subst x.
    apply elem_of_lookup_imap in Hx as (index & channel & Heq & Hlook).
    exists index, channel. destruct (is_guardian channel); [|done].
    by injection Heq as ->.
  - destruct He as (index & channel & Hlook & Hg & ->).
    exists (Some (share_update uuid w (threshold_of (totalShares (_channels w)))
                    dekShares index channel)).
    split; [|done]. apply elem_of_lookup_imap. exists index, channel.
    by rewrite Hg.
Qed.

(** One run of [_updateGuardianShares].  With [n] the number of granted
    guardians: when [n < 2] nothing is split and nothing is sent; otherwise
    the wallet asks for a split of the key into [n] shares with threshold
    [t = max(2, ceil(n / 2))], where [ceil(n / 2)] is the least integer
    whose double is at least [n], and every message it then sends is a
    GUARDIAN_SHARE_UPDATE carrying [t]. *)
Lemma updateGuardianShares_threshold (uuid : nat -> string) (w : Wallet) :
  let n := Z.of_nat (length (guardians (_channels w))) in
  let c := ((n + 1) / 2)%Z in
  let t := Z.max 2 c in
  totalShares (_channels w) = n /\
  (n <= 2 * c < n + 2)%Z /\
  ((n < 2)%Z -> _updateGuardianShares uuid w = []) /\
  ((2 <= n)%Z ->
   exists sends,
     _updateGuardianShares uuid w = SplitDEK n t :: sends /\
     Forall (share_update_with t) sends).
Proof.
  intros n c t. pose proof (totalShares_count (_channels w)) as Hn. fold n in Hn.
  assert (Ht : threshold_of n = t).
  { unfold threshold_of. by rewrite ceil_half. }
  split; [exact Hn|]. split.
  { subst c. Z.div_mod_to_equations. lia. }
  unfold _updateGuardianShares. rewrite Hn, Ht. split.
  - intros Hlt. by rewrite (proj2 (Z.ltb_lt _ _) Hlt).
  - intros Hge. rewrite (proj2 (Z.ltb_ge _ _) Hge).
    destruct (EncryptionManager.splitDEK _ _ _) as [dekShares|].
    + eexists. split; [reflexivity|].
      apply Forall_forall. intros e (x & Hx & Hsome)%list_elem_of_omap. subst x.
      apply elem_of_lookup_imap in Hx as (index & channel & Heq & _).
      destruct (is_guardian channel); [|done]. injection Heq as ->.
      by eexists _, _, _, _.
    + exists []. by split.
Qed.

Lemma updateGuardianShares_distribution (uuid : nat -> string) (w : Wallet) :
  distribution w (_updateGuardianShares uuid w).
Proof.
  destruct (updateGuardianShares_threshold uuid w) as (_ & _ & Hfew & Hmany).
  by split.
Qed.


(** C3. The share sent to a guardian is the element of the split at the
    guardian's position in the list of all channels, guardians or not: a
    guardian whose position is not below the number of shares is sent no
    share at all. *)
Theorem guardian_share_indexed_by_channel_position
    (uuid : nat -> string) (w : Wallet) (dekShares : list string)
    (index : nat) (channel : IChannel) :
  (2 <= totalShares (_channels w))%Z ->
  EncryptionManager.splitDEK (_walletKey w) (totalShares (_channels w))
    (threshold_of (totalShares (_channels w))) = Some dekShares ->
  _channels w !! index = Some channel ->
  is_guardian channel = true ->
  exists m,
    Invoke m ∈ _updateGuardianShares uuid w /\
    DIDComm.to m = [Some (channel_id channel)] /\
    body m = Some (BodyShareUpdate (_namespace w)
                     (threshold_of (totalShares (_channels w)))
                     (dekShares !! index) 0) /\
    ((length dekShares <= index)%nat ->
     body m = Some (BodyShareUpdate (_namespace w)
                      (threshold_of (totalShares (_channels w))) None 0)).
Proof.
  intros Hn Hsplit Hlook Hg. eexists. split.
  - apply (updateGuardianShares_sends uuid w dekShares Hn Hsplit). right.
    exists index, channel. by repeat split.
  - repeat split. intros Hlen. cbn. by rewrite (lookup_ge_None_2 _ _ Hlen).
Qed.

(** The share branch of [_onMessage] does not look at the message. *)
Lemma onReleaseShare_any_sender backup w message message' decoded :
  onReleaseShare backup w message decoded = onReleaseShare backup w message' decoded.
Proof. reflexivity. Qed.

(** C2, as amended. During an ongoing recovery every GUARDIAN_RELEASE_SHARE
    appends its share to the collected shares, whoever sent it and whether
    or not that guardian sent one before; [_restoreWallet] (and with it the
    combination of the shares) is called as soon as the number of collected
    shares, repeats included, reaches the threshold of the message just
    received, and the recovery is cleared when it succeeds. *)
Theorem released_shares_counted_per_message
    (backup : string) (w : Wallet) (current : Recovery)
    (message message' : IDIDCommMessage) (decoded : ReleasedShare) :
  _currentRecovery w = Some current ->
  let shares' := (recovery_shares current ++ [released_share decoded])%list in
  let current' := {| recovery_id := recovery_id current;
                     recovery_namespace := recovery_namespace current;
                     recovery_shares := shares' |} in
  onReleaseShare backup w message decoded = onReleaseShare backup w message' decoded /\
  ((Z.of_nat (length shares') < released_threshold decoded)%Z ->
   onReleaseShare backup w message decoded
   = ([], true, set_recovery w (Some current') (_restoredData w))) /\
  ((released_threshold decoded <= Z.of_nat (length shares'))%Z ->
   exists completed w',
     onReleaseShare backup w message decoded = ([RestoreWallet shares'], completed, w') /\
     (completed = true -> _currentRecovery w' = None) /\
     (completed = false -> _currentRecovery w' = Some current')).
Proof.
  intros Hcur. cbv zeta. split; [reflexivity|].
  unfold onReleaseShare. rewrite Hcur. cbn [recovery_shares]. split.
  - intros Hlt. rewrite Z.geb_leb. by rewrite (proj2 (Z.leb_gt _ _) Hlt).
  - intros Hge. rewrite Z.geb_leb. rewrite (proj2 (Z.leb_le _ _) Hge).
    destruct (_restoreWallet backup _) as [restored|];
      eexists _, _; (split; [reflexivity|]); split; done.
Qed.

End Facts.

(** The claim of C2 as the specification words it: a second share from
    the same guardian is not appended and does not count towards the
    threshold. *)
Definition duplicate_share_not_counted : Prop :=
  forall (W : WebPlatform) backup w current m1 d1 m2 d2,
    _currentRecovery w = Some current ->
    recovery_shares current = [] ->
    DIDComm.from m1 = DIDComm.from m2 ->
    released_threshold d1 = 2%Z -> released_threshold d2 = 2%Z ->
    let '(effects, w') := receiveShares backup w [(m1, d1); (m2, d2)] in
    effects = [] /\
    (recovery_shares <$> _currentRecovery w') = Some [released_share d1].

(** The guardian GA releases its share twice; with threshold 2 the wallet
    restores from two copies of that one share. *)
Lemma same_guardian_counted_twice : ~ duplicate_share_not_counted.
Proof.
  intros Hclaim.
  pose proof (Hclaim ReferenceWeb.platform "backup"
                (ReferenceWeb.wallet [] (Some ReferenceWeb.fresh_recovery))
                ReferenceWeb.fresh_recovery
                (ReferenceWeb.release_share "did:web:GA" "share-A" 2).1
                (ReferenceWeb.release_share "did:web:GA" "share-A" 2).2
                (ReferenceWeb.release_share "did:web:GA" "share-A" 2).1
                (ReferenceWeb.release_share "did:web:GA" "share-A" 2).2
                eq_refl eq_refl eq_refl eq_refl eq_refl) as Hc.
  vm_compute in Hc. destruct Hc as [Hc _]. discriminate Hc.
Qed.

(** The first share of a recovery with threshold 2 is collected and
    nothing is restored yet. *)
Lemma released_shares_counted_per_message_witness :
  onReleaseShare (W := ReferenceWeb.platform) "backup"
    (ReferenceWeb.wallet [] (Some ReferenceWeb.fresh_recovery))
    (ReferenceWeb.release_share "did:web:GA" "share-A" 2).1
    (ReferenceWeb.release_share "did:web:GA" "share-A" 2).2
  = ([], true,
     set_recovery (ReferenceWeb.wallet [] (Some ReferenceWeb.fresh_recovery))
       (Some {| recovery_id := "R1"; recovery_namespace := Reference.NS1;
                recovery_shares := ["share-A"] |}) None).
Proof.
  apply (released_shares_counted_per_message (W := ReferenceWeb.platform) "backup"
           (ReferenceWeb.wallet [] (Some ReferenceWeb.fresh_recovery))
           ReferenceWeb.fresh_recovery
           (ReferenceWeb.release_share "did:web:GA" "share-A" 2).1
           (ReferenceWeb.release_share "did:web:GA" "share-A" 2).1
           (ReferenceWeb.release_share "did:web:GA" "share-A" 2).2 eq_refl).
  vm_compute. reflexivity.
Defined.

(** The gateway channel comes first and is not a guardian: GB, the third
    channel, is sent a GUARDIAN_SHARE_UPDATE without a share. *)
Lemma guardian_share_indexed_by_channel_position_witness :
  exists m,
    Invoke m ∈ _updateGuardianShares (W := ReferenceWeb.platform) ReferenceWeb.uuid
                 (ReferenceWeb.wallet ReferenceWeb.gateway_then_two_guardians None) /\
    DIDComm.to m = [Some "did:web:GB"] /\
    body m = Some (BodyShareUpdate Reference.NS1 2 None 0).
Proof.
  destruct (guardian_share_indexed_by_channel_position (W := ReferenceWeb.platform)
              ReferenceWeb.uuid
              (ReferenceWeb.wallet ReferenceWeb.gateway_then_two_guardians None)
              _ 2%nat (ReferenceWeb.channel "did:web:GB" true)
              ltac:(vm_compute; discriminate) eq_refl eq_refl eq_refl)
    as (m & Hin & Hto & _ & Hnone).
  exists m. split; [exact Hin|]. split; [exact Hto|].
  apply Hnone. vm_compute. lia.
Defined.

(** The claim of C6 as the specification words it, for the changes that
    [addGuardian] makes: whenever the set of granted guardians changes,
    the shares are distributed anew for the guardians as they then are. *)
Definition redistributed_on_any_change : Prop :=
  forall (W : WebPlatform) uuid0 uuid w guardianDid response_type w',
    (WalletGuardians.addGuardian uuid0 uuid w guardianDid response_type).2 = Some w' ->
    guardians (_channels w') <> guardians (_channels w) ->
    exists request sent,
      (WalletGuardians.addGuardian uuid0 uuid w guardianDid response_type).1
      = Invoke request :: sent /\
      distribution w' sent.



End WalletFacts.

(** ** Base64URL round trip *)

Module Base64Facts.
Import Base64.

(** The first 64 six-bit values. *)
Definition sextets : list N := N.of_nat <$> seq 0 64.

Lemma sextet_in (x : N) : (x < 64)%N -> x ∈ sextets.
Proof.
  intros Hx. unfold sextets. apply list_elem_of_fmap.
  exists (N.to_nat x). split; [lia|]. apply elem_of_seq. lia.
Qed.

(** What holds of every alphabet character: it decodes to its index, is
    neither padding nor white space, and survives the URL substitution
    and its inverse. *)
Definition alphabet_char_ok (x : N) : Prop :=
  b64_index (b64_char x) = Some x /\
  Ascii.eqb (b64_char x) "=" = false /\
  is_whitespace (b64_char x) = false /\
  replace_char "_" "/" (replace_char "-" "+"
     (replace_char "/" "_" (replace_char "+" "-" [b64_char x]))) = [b64_char x] /\
  Ascii.eqb (hd "="%char (replace_char "/" "_" (replace_char "+" "-" [b64_char x])))
            "=" = false.

#[local] Instance alphabet_char_ok_dec x : Decision (alphabet_char_ok x).
Proof. unfold alphabet_char_ok. apply _. Defined.

Lemma alphabet_chars_ok : Forall alphabet_char_ok sextets.
Proof. apply (bool_decide_unpack _). vm_compute. exact I. Qed.

Lemma alphabet_char (x : N) : (x < 64)%N -> alphabet_char_ok x.
Proof.
  intros Hx. apply (proj1 (Forall_forall _ _) alphabet_chars_ok). by apply sextet_in.
Qed.

Lemma list_ind3 {A} (Q : list A -> Prop) :
  Q [] -> (forall a, Q [a]) -> (forall a b, Q [a; b]) ->
  (forall a b c l, Q l -> Q (a :: b :: c :: l)) ->
  forall l, Q l.
Proof.
  intros H0 H1 H2 H3 l.
  assert (Hall : Q l /\ (forall a, Q (a :: l)) /\ (forall a b, Q (a :: b :: l))).
  { induction l as [|x l (IH0 & IH1 & IH2)]; [by repeat split|].
    split; [apply IH1|]. split; [intros a; apply IH2|]. intros a b. by apply H3. }
  apply Hall.
Qed.

Lemma byte_bound (a : ascii) : (N_of_ascii a < 256)%N.
Proof. apply N_ascii_bounded. Qed.

(** Three bytes and their four six-bit values. *)
Lemma chunk3 (a b c : N) :
  (a < 256 -> b < 256 -> c < 256 ->
   let n := a * 65536 + b * 256 + c in
   let x := n / 262144 in let y := (n / 4096) mod 64 in
   let z := (n / 64) mod 64 in let w := n mod 64 in
   let m := x * 262144 + y * 4096 + z * 64 + w in
   x < 64 /\ y < 64 /\ z < 64 /\ w < 64 /\
   m / 65536 = a /\ (m / 256) mod 256 = b /\ m mod 256 = c)%N.
Proof. intros Ha Hb Hc. cbv zeta. zify. Z.to_euclidean_division_equations. lia. Qed.

Lemma chunk2 (a b : N) :
  (a < 256 -> b < 256 ->
   let n := a * 65536 + b * 256 in
   let x := n / 262144 in let y := (n / 4096) mod 64 in
   let z := (n / 64) mod 64 in
   let m := x * 262144 + y * 4096 + z * 64 in
   x < 64 /\ y < 64 /\ z < 64 /\
   m / 65536 = a /\ (m / 256) mod 256 = b)%N.
Proof. intros Ha Hb. cbv zeta. zify. Z.to_euclidean_division_equations. lia. Qed.

Lemma chunk1 (a : N) :
  (a < 256 ->
   let n := a * 65536 in
   let x := n / 262144 in let y := (n / 4096) mod 64 in
   let m := x * 262144 + y * 4096 in
   x < 64 /\ y < 64 /\ m / 65536 = a)%N.
Proof. intros Ha. cbv zeta. zify. Z.to_euclidean_division_equations. lia. Qed.

Lemma encode_sextets_bound (bs : bytes) :
  Forall (fun x => (x < 64)%N) (encode_sextets bs).
Proof.
  induction bs as [|a|a b|a b c l IH] using list_ind3; cbn [encode_sextets].
  - constructor.
  - destruct (chunk1 _ (byte_bound a)) as (? & ? & _). by repeat constructor.
  - destruct (chunk2 _ _ (byte_bound a) (byte_bound b)) as (? & ? & ? & _).
    by repeat constructor.
  - destruct (chunk3 _ _ _ (byte_bound a) (byte_bound b) (byte_bound c))
      as (? & ? & ? & ? & _).
    by repeat constructor.
Qed.

Lemma decode_encode_sextets (bs : bytes) : decode_sextets (encode_sextets bs) = bs.
Proof.
  induction bs as [|a|a b|a b c l IH] using list_ind3;
    cbn [encode_sextets decode_sextets].
  - reflexivity.
  - destruct (chunk1 _ (byte_bound a)) as (_ & _ & ->).
    by rewrite ascii_N_embedding.
  - destruct (chunk2 _ _ (byte_bound a) (byte_bound b)) as (_ & _ & _ & -> & ->).
    by rewrite !ascii_N_embedding.
  - destruct (chunk3 _ _ _ (byte_bound a) (byte_bound b) (byte_bound c))
      as (_ & _ & _ & _ & -> & -> & ->).
    by rewrite !ascii_N_embedding, IH.
Qed.

(** The characters of [btoa bs] before the padding, and their URL form. *)
Definition body (bs : bytes) : list ascii := map b64_char (encode_sextets bs).

Definition url (l : list ascii) : list ascii :=
  replace_char "/" "_" (replace_char "+" "-" l).

Lemma replace_char_app x y (l1 l2 : list ascii) :
  replace_char x y (l1 ++ l2)%list = (replace_char x y l1 ++ replace_char x y l2)%list.
Proof. apply map_app. Qed.

Lemma url_app (l1 l2 : list ascii) : url (l1 ++ l2)%list = (url l1 ++ url l2)%list.
Proof. unfold url. by rewrite !replace_char_app. Qed.

Lemma url_cons (c : ascii) (l : list ascii) : url (c :: l) = (url [c] ++ url l)%list.
Proof. apply (url_app [c] l). Qed.

Lemma padding_cases (n : nat) :
  padding n = [] \/ padding n = ["="%char] \/ padding n = ["="%char; "="%char].
Proof.
  unfold padding. destruct (n mod 3)%nat as [|[|[|k]]]; auto.
Qed.

Lemma url_padding (n : nat) : url (padding n) = padding n.
Proof. by destruct (padding_cases n) as [-> | [-> | ->]]. Qed.

Lemma padding_step (n : nat) : padding (S (S (S n))) = padding n.
Proof.
  unfold padding. replace (S (S (S n))) with (n + 1 * 3)%nat by lia.
  by rewrite Nat.Div0.mod_add.
Qed.

Lemma body_facts (bs : bytes) :
  mapM b64_index (body bs) = Some (encode_sextets bs) /\
  Forall (fun c => is_whitespace c = false) (body bs) /\
  Forall (fun c => Ascii.eqb c "=" = false) (body bs) /\
  Forall (fun c => Ascii.eqb c "=" = false) (url (body bs)) /\
  replace_char "_" "/" (replace_char "-" "+" (url (body bs))) = body bs.
Proof.
  unfold body. change (map b64_char (encode_sextets bs))
    with (b64_char <$> encode_sextets bs).
  pose proof (encode_sextets_bound bs) as Hb. split.
  { apply mapM_fmap_Forall_Some. eapply Forall_impl; [exact Hb|].
    intros x Hx. apply (alphabet_char x Hx). }
  induction Hb as [|x sx Hx Hsx (IH2 & IH3 & IH4 & IH5)].
  - by repeat split.
  - destruct (alphabet_char x Hx) as (Hi & He & Hw & Hu & Hh).
    rewrite fmap_cons. repeat split.
    + by constructor.
    + by constructor.
    + rewrite url_cons. apply Forall_app. split; [|done].
      unfold url, replace_char in *. cbn in *. by repeat constructor.
    + rewrite url_cons, !replace_char_app. fold (url [b64_char x]).
      unfold url at 1. rewrite Hu, IH5. reflexivity.
Qed.

(** The length of the body determines the padding. *)
Lemma body_length (bs : bytes) :
  let k := length (body bs) in
  ((k + length (padding (length bs))) mod 4 = 0 /\
   k mod 4 <> 1 /\
   (if k mod 4 =? 0 then 0 else 4 - k mod 4) = length (padding (length bs)))%nat.
Proof.
  unfold body. rewrite length_map.
  induction bs as [|a|a b|a b c l IH] using list_ind3.
  - by repeat split.
  - by repeat split.
  - by repeat split.
  - cbn [encode_sextets length]. rewrite padding_step.
    destruct IH as (IH1 & IH2 & IH3).
    replace (S (S (S (S (length (encode_sextets l))))))
      with (length (encode_sextets l) + 1 * 4)%nat by lia.
    replace (length (encode_sextets l) + 1 * 4 + length (padding (length l)))%nat
      with (length (encode_sextets l) + length (padding (length l)) + 1 * 4)%nat by lia.
    by rewrite !Nat.Div0.mod_add.
Qed.

Lemma padding_repeat (n : nat) : padding n = repeat "="%char (length (padding n)).
Proof. by destruct (padding_cases n) as [-> | [-> | ->]]. Qed.

Lemma filter_all {A} (Q : A -> Prop) `{forall x, Decision (Q x)} (l : list A) :
  Forall Q l -> filter Q l = l.
Proof.
  induction 1 as [|x l Hx Hl IH]; [done|].
  rewrite filter_cons, decide_True by done. by f_equal.
Qed.

Lemma strip_padding_body (l : list ascii) (n : nat) :
  Forall (fun c => Ascii.eqb c "=" = false) l ->
  strip_padding (l ++ padding n) = l.
Proof.
  intros Hl. apply Forall_rev in Hl. unfold strip_padding.
  rewrite rev_app_distr.
  destruct (padding_cases n) as [-> | [-> | ->]]; cbn [rev app].
  - rewrite app_nil_r.
    destruct (rev l) as [|a [|b r]] eqn:Hr; [done| |].
    + apply Forall_cons_1 in Hl as [-> _]. done.
    + apply Forall_cons_1 in Hl as [-> _]. done.
  - destruct (rev l) as [|b r] eqn:Hr.
    + apply (f_equal (@rev ascii)) in Hr. rewrite rev_involutive in Hr. by subst.
    + apply Forall_cons_1 in Hl as [Hb _].
      rewrite Ascii.eqb_refl, Hb. change (rev (b :: r) = l).
      rewrite <- Hr. apply rev_involutive.
  - rewrite !Ascii.eqb_refl. apply rev_involutive.
Qed.

Lemma strip_trailing_eq_body (l : list ascii) (n : nat) :
  Forall (fun c => Ascii.eqb c "=" = false) l ->
  strip_trailing_eq (l ++ padding n) = l.
Proof.
  intros Hl. apply Forall_rev in Hl. unfold strip_trailing_eq.
  rewrite rev_app_distr.
  assert (Hkeep : strip_trailing_eq_rev (rev l) = rev l).
  { destruct (rev l) as [|a r]; [done|].
    apply Forall_cons_1 in Hl as [Ha _]. cbn. by rewrite Ha. }
  destruct (padding_cases n) as [-> | [-> | ->]]; cbn [rev app strip_trailing_eq_rev];
    rewrite ?Ascii.eqb_refl, ?app_nil_r, Hkeep; apply rev_involutive.
Qed.

(** [base64url] is the URL form of the body, without padding. *)
Lemma base64url_body (bs : bytes) :
  base64url bs = string_of_list_ascii (url (body bs)).
Proof.
  unfold base64url, btoa. rewrite list_ascii_of_string_of_list_ascii.
  fold (body bs).
  change (replace_char "/" "_" (replace_char "+" "-" (body bs ++ padding (length bs))))
    with (url (body bs ++ padding (length bs))).
  rewrite url_app, url_padding.
  destruct (body_facts bs) as (_ & _ & _ & Hu & _).
  by rewrite strip_trailing_eq_body.
Qed.

Lemma atob_btoa (bs : bytes) : atob (btoa bs) = Some bs.
Proof.
  unfold atob, btoa. rewrite list_ascii_of_string_of_list_ascii. fold (body bs).
  destruct (body_facts bs) as (Hm & Hw & He & _ & _).
  destruct (body_length bs) as (Hl0 & Hl1 & _).
  rewrite filter_all.
  2:{ apply Forall_app. split; [done|].
      destruct (padding_cases (length bs)) as [-> | [-> | ->]]; by repeat constructor. }
  rewrite length_app, (proj2 (Nat.eqb_eq _ _) Hl0).
  rewrite strip_padding_body by done.
  rewrite (proj2 (Nat.eqb_neq _ _) Hl1), Hm. cbn.
  by rewrite decode_encode_sextets.
Qed.

(** Decoding what [base64url] produced gives the bytes back. *)
Theorem fromBase64Url_base64url (bs : bytes) :
  fromBase64Url (base64url bs) = Some bs.
Proof.
  unfold fromBase64Url. rewrite base64url_body, list_ascii_of_string_of_list_ascii.
  destruct (body_facts bs) as (_ & _ & _ & _ & ->).
  destruct (body_length bs) as (_ & _ & ->).
  rewrite <- padding_repeat. apply atob_btoa.
Qed.

Lemma base64url_truthy (bs : bytes) :
  bs <> [] -> JS.truthy_string (base64url bs) = true.
Proof.
  intros Hne. rewrite base64url_body.
  destruct bs as [|a [|b [|c l]]]; [done| | |]; reflexivity.
Qed.

End Base64Facts.

(** ** Encryption with associated data *)

Module EncryptionFacts.
Import Base64 EncryptionManager.

Lemma N_of_ascii_inj (x y : ascii) : N_of_ascii x = N_of_ascii y -> x = y.
Proof.
  intros Heq. rewrite <- (ascii_N_embedding x), <- (ascii_N_embedding y). by rewrite Heq.
Qed.

Lemma fold_diff_zero (l : list (ascii * ascii)) (d : N) :
  fold_left (fun diff xy => N.lor diff (N.lxor (N_of_ascii xy.1) (N_of_ascii xy.2))) l d
  = 0%N <->
  d = 0%N /\ Forall (fun xy => xy.1 = xy.2) l.
Proof.
  revert d. induction l as [|[x y] l IH]; intros d; cbn [fold_left].
  - split; [intros ->; by split | by intros [-> _]].
  - rewrite IH, N.lor_eq_0_iff, N.lxor_eq_0_iff, Forall_cons. cbn [fst snd].
    split.
    + intros [[-> Hxy] Hl]. apply N_of_ascii_inj in Hxy. by repeat split.
    + intros [-> [-> Hl]]. by repeat split.
Qed.

(** The constant-time comparison decides equality of byte arrays. *)
Lemma equals_spec (a b : bytes) : equals a b = true <-> a = b.
Proof.
  unfold equals. destruct (length a =? length b)%nat eqn:Hlen; cbn [negb].
  - apply Nat.eqb_eq in Hlen. rewrite N.eqb_eq, fold_diff_zero. split.
    + intros [_ Hall]. revert b Hlen Hall.
      induction a as [|x a IH]; intros [|y b] Hlen Hall; try done.
      cbn in Hall. apply Forall_cons in Hall as [Hxy Hall]. cbn in Hxy. subst y.
      f_equal. apply IH; [by injection Hlen|done].
    + intros <-. split; [done|]. clear Hlen.
      induction a as [|x a IH]; cbn; by constructor.
  - apply Nat.eqb_neq in Hlen. split; [done|]. intros <-. done.
Qed.

Lemma equals_refl (a : bytes) : equals a a = true.
Proof. by apply equals_spec. Qed.

(** A text of ASCII characters. *)
Definition is_ascii (text : string) : bool :=
  forallb (in_range 0 127) (list_ascii_of_string text).

Lemma utf8_decoder_ascii (input : bytes) :
  forallb (in_range 0 127) input = true -> utf8_decoder input = input.
Proof.
  induction input as [|b input IH]; [done|]. cbn [forallb utf8_decoder].
  intros [Hb Hrest]%andb_true_iff. rewrite Hb. f_equal. by apply IH.
Qed.

Lemma strip_BOM_ascii (input : bytes) :
  forallb (in_range 0 127) input = true -> strip_BOM input = input.
Proof.
  destruct input as [|b [|b1 [|b2 input]]]; try done. cbn [forallb strip_BOM].
  intros [Hb _]%andb_true_iff. rewrite bool_decide_eq_false_2; [done|].
  intros Heq. injection Heq as -> _ _. by vm_compute in Hb.
Qed.

(** [TextDecoder] gives an ASCII text back as [TextEncoder] took it. *)
Lemma ascii_survives_utf8 (text : string) :
  is_ascii text = true -> utf8_decode (utf8_encode text) = text.
Proof.
  intros Hascii. unfold utf8_decode, utf8_encode.
  rewrite (utf8_decoder_ascii _ Hascii), (strip_BOM_ascii _ Hascii).
  apply string_of_list_ascii_of_string.
Qed.

(** A byte order mark at the start of the bytes is decoded away. *)
Lemma utf8_decode_BOM (input : bytes) :
  utf8_decode (BOM ++ input)%list = string_of_list_ascii (utf8_decoder input).
Proof. reflexivity. Qed.

Section Facts.
Context {W : WebPlatform}.

(** What [toBase64Url] returns is the Base64URL text of the bytes. *)
Lemma toBase64Url_Some (bs : bytes) (text : string) :
  toBase64Url bs = Some text -> text = base64url bs.
Proof. unfold toBase64Url. destruct (spread_accepted _); by intros [= <-]. Qed.

Lemma toBase64Url_None (bs : bytes) :
  toBase64Url bs = None -> spread_accepted (length bs) = false.
Proof. unfold toBase64Url. by destruct (spread_accepted _). Qed.

Lemma fromBase64Url_toBase64Url (bs : bytes) (text : string) :
  toBase64Url bs = Some text -> fromBase64Url text = Some bs.
Proof.
  intros ->%toBase64Url_Some. apply Base64Facts.fromBase64Url_base64url.
Qed.

(** The envelope that [encrypt] returns is the serialisation of the
    payload with the texts of the nonce, the ciphertext and the AAD
    bytes. *)
Lemma encrypt_Some (iv : bytes) (key : CryptoKey) (data : json) (aad : option json)
    (encrypted : string) :
  let sealed := optional_aadBytes aad in
  let ciphertext := aes_gcm_encrypt key iv sealed (utf8_encode (plaintext_json data)) in
  encrypt iv key data aad = Some encrypted ->
  encrypted = JSON_stringify (payload (base64url iv) (base64url ciphertext)
                                (base64url <$> sealed)).
Proof.
  intros sealed ciphertext. unfold encrypt. fold sealed. fold ciphertext.
  destruct (toBase64Url iv) as [iv_text|] eqn:Hiv; [|done].
  destruct (toBase64Url ciphertext) as [ct_text|] eqn:Hct; [|done].
  apply toBase64Url_Some in Hiv, Hct. subst iv_text ct_text.
  destruct sealed as [b|]; cbn.
  - destruct (toBase64Url b) as [aad_text|] eqn:Hb; [|done].
    apply toBase64Url_Some in Hb. subst aad_text. cbn. by intros [= <-].
  - by intros [= <-].
Qed.

(** The AAD bytes of a string supplied as AAD are never empty: the empty
    string is falsy and counts as no AAD. *)
Lemma string_aad_bytes_not_empty (s : string) :
  optional_aadBytes (Some (JStr s)) <> Some [].
Proof. by destruct s. Qed.

(** The AAD check of [decrypt] on an envelope that [encrypt] produced and
    [JSON.parse] reads back: it passes exactly when the AAD bytes supplied
    to [decrypt] are those supplied to [encrypt]. *)
Lemma decrypt_checks_encrypt (iv ciphertext : bytes) (sealed : option bytes)
    (encrypted : string) (aad' : option json) :
  JSON_parse encrypted
  = Some (payload (base64url iv) (base64url ciphertext) (base64url <$> sealed)) ->
  sealed <> Some [] ->
  decrypt_checks encrypted aad' =
  match sealed, optional_aadBytes aad' with
  | Some _, None | None, Some _ => inl AadPresenceMismatch
  | None, None => inr (iv, ciphertext, None)
  | Some b, Some b' =>
      if equals b' b then inr (iv, ciphertext, Some b') else inl AadContextMismatch
  end.
Proof.
  intros Hparse Hne. unfold decrypt_checks. rewrite Hparse.
  unfold payload. cbn [get_field List.find fst snd String.eqb Ascii.eqb Bool.eqb
                       app fmap option_fmap option_map].
  unfold decode_field. rewrite !Base64Facts.fromBase64Url_base64url.
  destruct sealed as [b|]; cbn [app get_field List.find fst snd String.eqb Ascii.eqb
                                 Bool.eqb fmap option_fmap option_map].
  - cbn [truthy]. rewrite Base64Facts.base64url_truthy by (intros ->; by apply Hne).
    rewrite Base64Facts.fromBase64Url_base64url.
    by destruct (optional_aadBytes aad').
  - by destruct (optional_aadBytes aad').
Qed.

(** C5, as amended. Let [encrypted] be the envelope that
    [encrypt(k, plaintext, ad)] returned, the serialisation of a payload
    that [JSON.parse] reads back, and let the AAD bytes of a call be absent
    when no AAD, or a falsy one such as the empty string, is supplied, and
    otherwise the UTF-8 bytes of the string or of the key-sorted
    serialisation of the object, those of [ad] not being empty.
    Decrypting with an [ad'] whose AAD bytes differ from those of [ad], or
    are present on one side only, fails with an AAD-mismatch error that
    the checks before the decryption raise.  Decrypting with an [ad'] that
    has the AAD bytes of [ad], in particular with [ad] itself, returns,
    when AES-GCM decrypts what it encrypted, the value that [JSON.parse]
    reads from the text that [TextDecoder] decodes from the bytes of the
    plaintext text, or that decoded text when it is not JSON.  The decoded
    text is the plaintext text when that is ASCII; a plaintext whose text
    is decoded unchanged comes back unchanged when it is an object that
    JSON round-trips or a string that is not JSON text. *)
Theorem decrypt_encrypt_aad
    (key : CryptoKey) (iv : bytes) (data : json) (aad aad' : option json)
    (encrypted : string) :
  let sealed := optional_aadBytes aad in
  let pt := utf8_encode (plaintext_json data) in
  let text := utf8_decode pt in
  let ciphertext := aes_gcm_encrypt key iv sealed pt in
  let sent := payload (base64url iv) (base64url ciphertext) (base64url <$> sealed) in
  encrypt iv key data aad = Some encrypted ->
  JSON_parse (JSON_stringify sent) = Some sent ->
  sealed <> Some [] ->
  (optional_aadBytes aad' <> sealed ->
   exists e, decrypt_checks encrypted aad' = inl e /\ is_aad_mismatch e = true /\
             decrypt key encrypted aad' = inl e) /\
  (optional_aadBytes aad' = sealed ->
   aes_gcm_decrypt key iv sealed ciphertext = Some pt ->
   decrypt key encrypted aad'
   = inr (match JSON_parse text with
          | Some v => v
          | None => JStr text
          end) /\
   (is_ascii (plaintext_json data) = true -> text = plaintext_json data) /\
   (text = plaintext_json data -> JSON_parse (plaintext_json data) = Some data ->
    decrypt key encrypted aad' = inr data) /\
   (forall s, data = JStr s -> text = s -> JSON_parse s = None ->
              decrypt key encrypted aad' = inr data)).
Proof.
  intros sealed pt text ciphertext sent Hencrypt Hparse Hne.
  apply encrypt_Some in Hencrypt. fold sealed pt ciphertext sent in Hencrypt.
  rewrite <- Hencrypt in Hparse.
  pose proof (decrypt_checks_encrypt _ _ _ _ aad' Hparse Hne) as Hchecks.
  split.
  - intros Hdiff. unfold decrypt. rewrite Hchecks.
    destruct sealed as [b|], (optional_aadBytes aad') as [b'|]; try done.
    + destruct (equals b' b) eqn:Heq.
      * apply equals_spec in Heq. by subst.
      * by eexists.
    + by eexists.
    + by eexists.
  - intros Hsame Hgcm.
    assert (Hdec : decrypt key encrypted aad'
                   = inr (match JSON_parse text with
                          | Some v => v
                          | None => JStr text
                          end)).
    { unfold decrypt. rewrite Hchecks, Hsame.
      destruct sealed as [b|]; rewrite ?equals_refl, Hgcm; fold text;
        by destruct (JSON_parse text). }
    split; [exact Hdec|]. split; [apply ascii_survives_utf8|]. split.
    + intros Htext Hjson. by rewrite Hdec, Htext, Hjson.
    + intros s -> Htext Hnone. rewrite Hdec, Htext. by rewrite Hnone.
Qed.

(** An empty string supplied as AAD is no AAD: the envelope is the one
    made without AAD, and the checks of a decryption without AAD pass on
    it. *)
Lemma empty_string_aad_is_absent (key : CryptoKey) (iv : bytes) (data : json)
    (encrypted : string) :
  let pt := utf8_encode (plaintext_json data) in
  let sent := payload (base64url iv) (base64url (aes_gcm_encrypt key iv None pt)) None in
  encrypt iv key data (Some (JStr EmptyString)) = encrypt iv key data None /\
  (encrypt iv key data (Some (JStr EmptyString)) = Some encrypted ->
   JSON_parse (JSON_stringify sent) = Some sent ->
   decrypt_checks encrypted None = inr (iv, aes_gcm_encrypt key iv None pt, None)).
Proof.
  cbv zeta. split; [reflexivity|]. intros Hencrypt Hparse.
  change (encrypt iv key data (Some (JStr EmptyString)))
    with (encrypt iv key data None) in Hencrypt.
  apply encrypt_Some in Hencrypt.
  cbn [optional_aadBytes fmap option_fmap option_map] in Hencrypt.
  rewrite <- Hencrypt in Hparse.
  by rewrite (decrypt_checks_encrypt _ _ None _ None Hparse).
Qed.

End Facts.

(** The first half of C5 as the specification words it: decrypting with
    the key and AAD of the encryption returns the original plaintext,
    whenever the platform's AES-GCM and JSON behave. *)
Definition roundtrip_returns_plaintext : Prop :=
  forall (W : WebPlatform) key iv data aad encrypted,
    let sealed := optional_aadBytes aad in
    let pt := utf8_encode (plaintext_json data) in
    let ciphertext := aes_gcm_encrypt key iv sealed pt in
    let sent := payload (base64url iv) (base64url ciphertext) (base64url <$> sealed) in
    encrypt iv key data aad = Some encrypted ->
    JSON_parse (JSON_stringify sent) = Some sent ->
    aes_gcm_decrypt key iv sealed ciphertext = Some pt ->
    JSON_parse (JSON_stringify data) = Some data ->
    decrypt key encrypted aad = inr data.

(** The second half: any different AAD, absence included, fails with an
    AAD-mismatch error. *)
Definition any_other_aad_fails : Prop :=
  forall (W : WebPlatform) key iv data aad aad' encrypted,
    let sealed := optional_aadBytes aad in
    let pt := utf8_encode (plaintext_json data) in
    let ciphertext := aes_gcm_encrypt key iv sealed pt in
    let sent := payload (base64url iv) (base64url ciphertext) (base64url <$> sealed) in
    encrypt iv key data aad = Some encrypted ->
    JSON_parse (JSON_stringify sent) = Some sent ->
    aad' <> aad ->
    exists e, decrypt key encrypted aad' = inl e /\
              is_aad_mismatch e = true.

Definition key32 : bytes := list_ascii_of_string "0123456789abcdef0123456789abcdef".
Definition iv12 : bytes := list_ascii_of_string "0123456789ab".
Definition backup : json := JObj [("x", JNum 1)].

(** The envelope that the reference platform makes of the backup for the
    namespace NS1. *)
Definition sealed_backup : string :=
  default EmptyString
    (encrypt (W := ReferenceWeb.platform) iv12 key32 backup
       (Some (Wallet.namespace_json Reference.NS1))).

(** The string [1] comes back as the number 1, and an envelope sealed with
    the empty string as AAD opens without any AAD. *)
Lemma roundtrip_and_mismatch_fail :
  ~ roundtrip_returns_plaintext /\ ~ any_other_aad_fails.
Proof.
  split.
  - intros Hclaim.
    pose proof (Hclaim ReferenceWeb.platform key32 iv12 (JStr "1") None _
                  eq_refl eq_refl eq_refl eq_refl) as Hc.
    vm_compute in Hc. discriminate Hc.
  - intros Hclaim.
    destruct (Hclaim ReferenceWeb.platform key32 iv12 backup
                (Some (JStr EmptyString)) None _ eq_refl eq_refl ltac:(discriminate))
      as (e & Hc & _).
    vm_compute in Hc. discriminate Hc.
Qed.

(** With an object as AAD the replacer array built from its own keys also
    filters the nested objects: two namespaces that differ only below the
    first level have the same AAD bytes. *)
Lemma nested_aad_not_bound :
  aadBytes (W := ReferenceWeb.platform) (JObj [("a", JObj [("x", JNum 1)])])
  = aadBytes (W := ReferenceWeb.platform) (JObj [("a", JObj [("x", JNum 2)])]).
Proof. vm_compute. reflexivity. Qed.

(** The string plaintext that starts with a byte order mark comes back
    without it. *)
Lemma leading_BOM_dropped :
  (encrypt (W := ReferenceWeb.platform) iv12 key32
     (JStr (string_of_list_ascii (BOM ++ list_ascii_of_string "backup")%list)) None
   ≫= fun encrypted =>
        Some (decrypt (W := ReferenceWeb.platform) key32 encrypted None))
  = Some (inr (JStr "backup")).
Proof. vm_compute. reflexivity. Qed.

(** A backup sealed for the namespace NS1 opens for NS1 and is refused,
    before decryption, for another namespace. *)
Lemma decrypt_encrypt_aad_witness :
  encrypt (W := ReferenceWeb.platform) iv12 key32 backup
    (Some (Wallet.namespace_json Reference.NS1)) = Some sealed_backup /\
  decrypt (W := ReferenceWeb.platform) key32 sealed_backup
    (Some (Wallet.namespace_json Reference.NS1)) = inr backup /\
  exists e,
    decrypt_checks (W := ReferenceWeb.platform) sealed_backup
      (Some (Wallet.namespace_json
               {| DIDComm.ns_id := "NS2"; DIDComm.gateway_did := "did:web:gw" |}))
    = inl e /\ is_aad_mismatch e = true.
Proof.
  split; [reflexivity|]. split.
  - destruct (decrypt_encrypt_aad (W := ReferenceWeb.platform) key32 iv12 backup
                (Some (Wallet.namespace_json Reference.NS1))
                (Some (Wallet.namespace_json Reference.NS1)) sealed_backup
                eq_refl eq_refl ltac:(vm_compute; discriminate)) as [_ Hsame].
    destruct (Hsame eq_refl eq_refl) as (_ & _ & Hobject & _).
    apply Hobject; reflexivity.
  - destruct (decrypt_encrypt_aad (W := ReferenceWeb.platform) key32 iv12 backup
                (Some (Wallet.namespace_json Reference.NS1))
                (Some (Wallet.namespace_json
                   {| DIDComm.ns_id := "NS2"; DIDComm.gateway_did := "did:web:gw" |}))
                sealed_backup
                eq_refl eq_refl ltac:(vm_compute; discriminate)) as [Hmis _].
    destruct (Hmis ltac:(vm_compute; discriminate)) as (e & He & Hm & _).
    exists e. split; [exact He | exact Hm].
Defined.

End EncryptionFacts.
(** ** Base64URL, key transport and the AAD check: further properties *)

Module EncryptionExtras.
Import Base64 EncryptionManager EncryptionManagerKeys.

(** The alphabet of Base64URL. *)
Definition url_alphabet : list ascii :=
  list_ascii_of_string
    "ABCDEFGHIJKLMNOPQRSTUVWXYZabcdefghijklmnopqrstuvwxyz0123456789-_".

Definition url_char_ok (x : N) : Prop :=
  Forall (fun c => c ∈ url_alphabet) (Base64Facts.url [b64_char x]).

#[local] Instance url_char_ok_dec x : Decision (url_char_ok x).
Proof. unfold url_char_ok. apply _. Defined.

Lemma url_chars_ok : Forall url_char_ok Base64Facts.sextets.
Proof. apply (bool_decide_unpack _). vm_compute. exact I. Qed.

Lemma url_body_alphabet (bs : bytes) :
  Forall (fun c => c ∈ url_alphabet) (Base64Facts.url (Base64Facts.body bs)).
Proof.
  unfold Base64Facts.body.
  pose proof (Base64Facts.encode_sextets_bound bs) as Hb.
  induction Hb as [|x sx Hx Hsx IH]; [constructor|].
  cbn [map]. rewrite Base64Facts.url_cons. apply Forall_app. split; [|exact IH].
  apply (proj1 (Forall_forall _ _) url_chars_ok). by apply Base64Facts.sextet_in.
Qed.

Lemma encode_sextets_length (bs : bytes) :
  length (encode_sextets bs) = ((4 * length bs + 2) / 3)%nat.
Proof.
  induction bs as [|a|a b|a b c l IH] using Base64Facts.list_ind3; [done..|].
  cbn [encode_sextets length]. rewrite IH.
  replace (4 * S (S (S (length l))) + 2)%nat with (4 * length l + 2 + 4 * 3)%nat by lia.
  rewrite Nat.div_add by lia. lia.
Qed.

Section Encoding.
Context {W : WebPlatform}.

(** X1. The text that [toBase64Url] returns for a byte array (the [btoa]
    text with [+] and [/] replaced and the padding stripped) is read back
    by [fromBase64Url] as that byte array: the decoding does not fail, and
    the padding stripped is the padding restored.  [toBase64Url] returns
    no text only when the array has more elements than the engine takes
    as the arguments of [String.fromCharCode]. *)
Theorem base64url_round_trip (bs : bytes) :
  match toBase64Url bs with
  | Some text => fromBase64Url text = Some bs
  | None => spread_accepted (length bs) = false
  end.
Proof.
  unfold toBase64Url. destruct (spread_accepted (length bs)); [|done].
  apply Base64Facts.fromBase64Url_base64url.
Qed.

(** X2. The text [toBase64Url] produces is URL-safe and unpadded: it
    holds only letters, digits, [-] and [_] (no [+], [/] or [=]), and has
    ceil(4n/3) characters for n bytes.  It produces none only when the
    array has more elements than the engine takes as arguments. *)
Theorem toBase64Url_url_safe (bs : bytes) :
  match toBase64Url bs with
  | Some text =>
      Forall (fun c => c ∈ url_alphabet) (list_ascii_of_string text) /\
      String.length text = ((4 * length bs + 2) / 3)%nat
  | None => spread_accepted (length bs) = false
  end.
Proof.
  unfold toBase64Url. destruct (spread_accepted (length bs)); [|done].
  rewrite Base64Facts.base64url_body, list_ascii_of_string_of_list_ascii. split.
  - apply url_body_alphabet.
  - rewrite <- (list_ascii_of_string_of_list_ascii
                  (Base64Facts.url (Base64Facts.body bs))) at 1.
    assert (Hlen : forall s, String.length s = length (list_ascii_of_string s)).
    { induction s as [|c s IH]; cbn; [done|by rewrite IH]. }
    rewrite Hlen, !list_ascii_of_string_of_list_ascii.
    unfold Base64Facts.url, replace_char, Base64Facts.body.
    rewrite !length_map. apply encode_sextets_length.
Qed.

End Encoding.

(** X3. The constant-time comparison [equals] answers true exactly when
    the two byte arrays are the same array: same length and the same byte
    at every index. *)
Theorem equals_decides_equality (a b : bytes) :
  equals a b = true <-> a = b.
Proof. apply EncryptionFacts.equals_spec. Qed.

Section Facts.
Context {W : WebPlatform}.

(** X4. A key exported with [exportDEK] and imported with [importDEK]:
    decoding the exported text never fails, and [importKey] receives
    exactly the raw bytes that [exportKey] gave, so the import returns
    what [importKey] returns for those bytes.  [exportDEK] throws only
    when the raw key has more bytes than the engine takes as arguments. *)
Theorem importDEK_exportDEK (key : CryptoKey) :
  match exportDEK key with
  | Some encoded =>
      fromBase64Url encoded = Some (exportKey_raw key) /\
      importDEK encoded = importKey_raw (exportKey_raw key)
  | None => spread_accepted (length (exportKey_raw key)) = false
  end.
Proof.
  unfold importDEK, exportDEK, toBase64Url.
  destruct (spread_accepted _); [|done].
  by rewrite Base64Facts.fromBase64Url_base64url.
Qed.

Lemma mapM_fromBase64Url_base64url (shares : list bytes) :
  mapM fromBase64Url (base64url <$> shares) = Some shares.
Proof.
  induction shares as [|b l IH]; [done|].
  rewrite fmap_cons. cbn [mapM]. rewrite Base64Facts.fromBase64Url_base64url.
  cbn. rewrite IH. reflexivity.
Qed.

(** Encoding a list of shares: the texts of the shares, unless one of
    them has more bytes than the engine takes as arguments. *)
Lemma mapM_toBase64Url (shares : list bytes) :
  match mapM toBase64Url shares with
  | Some encoded => encoded = base64url <$> shares
  | None => Exists (fun share => spread_accepted (length share) = false) shares
  end.
Proof.
  induction shares as [|b l IH]; [done|].
  cbn [mapM].
  destruct (toBase64Url b) as [text|] eqn:Hb;
    cbn [mbind option_bind mret option_ret].
  - apply EncryptionFacts.toBase64Url_Some in Hb. subst text.
    destruct (mapM toBase64Url l) as [encoded|];
      cbn [mbind option_bind mret option_ret].
    + by rewrite IH.
    + by apply Exists_cons_tl.
  - apply Exists_cons_hd. by apply EncryptionFacts.toBase64Url_None.
Qed.

(** X5. The Base64URL transport of the Shamir shares is transparent to
    [combineDEK]: on the encodings of any list of shares the decoding
    never fails and [combineDEK] is the library's [combine] on those
    shares followed by [importKey] on the combined bytes, failing exactly
    when one of the two does; the shares have no encodings only when one
    of them has more bytes than the engine takes as arguments.  So
    combining all the shares that [splitDEK] returned is combining the
    shares the library made of the raw key. *)
Theorem combineDEK_of_encoded_shares (key : CryptoKey) (n t : Z)
    (shares : list bytes) :
  match mapM toBase64Url shares with
  | Some encoded =>
      mapM fromBase64Url encoded = Some shares /\
      combineDEK encoded = shamir_combine shares ≫= importKey_raw
  | None => Exists (fun share => spread_accepted (length share) = false) shares
  end /\
  splitDEK key n t ≫= combineDEK
  = shamir_split (exportKey_raw key) n t ≫=
      (fun made => mapM toBase64Url made ≫=
                     fun _ => shamir_combine made ≫= importKey_raw).
Proof.
  assert (Hcombine : forall l : list bytes,
            combineDEK (base64url <$> l) = shamir_combine l ≫= importKey_raw).
  { intros l. unfold combineDEK. rewrite mapM_fromBase64Url_base64url.
    by destruct (shamir_combine l). }
  split.
  - pose proof (mapM_toBase64Url shares) as Hencoded.
    destruct (mapM toBase64Url shares) as [encoded|]; [|exact Hencoded].
    subst encoded. split; [apply mapM_fromBase64Url_base64url | apply Hcombine].
  - unfold splitDEK. destruct (shamir_split _ _ _) as [made|]; [|done]. cbn.
    pose proof (mapM_toBase64Url made) as Hencoded.
    destruct (mapM toBase64Url made) as [encoded|]; [|done].
    subst encoded. cbn. apply Hcombine.
Qed.

(** X6. [decrypt] returns a value only for an envelope whose algorithm is
    AES-GCM and whose recorded AAD agrees with the caller's: when the
    caller supplies a (truthy) AAD the envelope's [aad] field decodes to
    exactly the caller's AAD bytes, when the caller supplies none the
    envelope has no (truthy) [aad] field; and AES-GCM has authenticated
    the ciphertext under the caller's AAD bytes.  This holds for every
    envelope text, not only for those [encrypt] made. *)
Theorem decrypt_success_binds_aad
    (key : CryptoKey) (encrypted : string) (aad : option json) (v : json) :
  decrypt key encrypted aad = inr v ->
  exists p ivBytes ctBytes pt,
    JSON_parse encrypted = Some p /\
    get_field "alg" p = Some (JStr "AES-GCM") /\
    decode_field (get_field "iv" p) = inr ivBytes /\
    decode_field (get_field "ct" p) = inr ctBytes /\
    aes_gcm_decrypt key ivBytes (optional_aadBytes aad) ctBytes = Some pt /\
    match optional_aadBytes aad with
    | Some provided =>
        exists a, get_field "aad" p = Some a /\ truthy a = true /\
                  decode_field (Some a) = inr provided
    | None => forall a, get_field "aad" p = Some a -> truthy a = false
    end.
Proof.
  unfold decrypt. intros Hdec.
  destruct (decrypt_checks encrypted aad) as [e|[[ivb ctb] provided]] eqn:Hchecks;
    [discriminate|].
  destruct (aes_gcm_decrypt key ivb provided ctb) as [pt|] eqn:Hgcm; [|discriminate].
  clear Hdec. unfold decrypt_checks in Hchecks.
  destruct (JSON_parse encrypted) as [p|] eqn:Hp; [|discriminate].
  exists p, ivb, ctb, pt.
  destruct p as [| | | | |fields]; cbn [get_field] in Hchecks;
    try discriminate Hchecks.
  set (p := JObj fields) in *.
  destruct (snd <$> List.find (fun kv => String.eqb kv.1 "alg") fields)
    as [[| | |alg| |]|] eqn:Halg; try discriminate Hchecks.
  do 7 (destruct alg as [|[[] [] [] [] [] [] [] []] alg]; try discriminate Hchecks).
  destruct alg; [|discriminate Hchecks].
  destruct (decode_field (snd <$> List.find (fun kv => String.eqb kv.1 "iv") fields))
    as [e|ivb'] eqn:Hiv; [discriminate|].
  destruct (decode_field (snd <$> List.find (fun kv => String.eqb kv.1 "ct") fields))
    as [e|ctb'] eqn:Hct; [discriminate|].
  cbv zeta in Hchecks.
  change (get_field "alg" p = Some (JStr "AES-GCM")) in Halg.
  change (decode_field (get_field "iv" p) = inr ivb') in Hiv.
  change (decode_field (get_field "ct" p) = inr ctb') in Hct.
  destruct (snd <$> List.find (fun kv => String.eqb kv.1 "aad") fields)
    as [a|] eqn:Haad;
    change (snd <$> List.find (fun kv => String.eqb kv.1 "aad") fields)
      with (get_field "aad" p) in Haad.
  - destruct (truthy a) eqn:Ht.
    + destruct (decode_field (Some a)) as [e|enc] eqn:Henc; [discriminate|].
      destruct (optional_aadBytes aad) as [prov|] eqn:Hprov; [|discriminate].
      destruct (equals prov enc) eqn:Heq; [|discriminate].
      apply EncryptionFacts.equals_spec in Heq. subst enc.
      injection Hchecks as -> -> <-.
      repeat split; try done. by exists a.
    + destruct (optional_aadBytes aad) as [prov|] eqn:Hprov; [discriminate|].
      injection Hchecks as -> -> <-.
      repeat split; try done.
      intros a' Ha'. rewrite Haad in Ha'. by injection Ha' as <-.
  - destruct (optional_aadBytes aad) as [prov|] eqn:Hprov; [discriminate|].
    injection Hchecks as -> -> <-.
    repeat split; try done.
    intros a' Ha'. rewrite Haad in Ha'. discriminate Ha'.
Qed.

End Facts.

(** A backup sealed for the namespace NS1 and opened for it. *)
Lemma decrypt_success_binds_aad_witness :
  exists p ivBytes ctBytes pt a,
    JSON_parse (WebPlatform := ReferenceWeb.platform) EncryptionFacts.sealed_backup
    = Some p /\
    get_field "alg" p = Some (JStr "AES-GCM") /\
    decode_field (get_field "iv" p) = inr ivBytes /\
    decode_field (get_field "ct" p) = inr ctBytes /\
    aes_gcm_decrypt (WebPlatform := ReferenceWeb.platform) EncryptionFacts.key32 ivBytes
      (optional_aadBytes (W := ReferenceWeb.platform)
         (Some (Wallet.namespace_json Reference.NS1))) ctBytes = Some pt /\
    get_field "aad" p = Some a /\ truthy a = true /\
    decode_field (Some a)
    = inr (aadBytes (W := ReferenceWeb.platform) (Wallet.namespace_json Reference.NS1)).
Proof.
  destruct (decrypt_success_binds_aad (W := ReferenceWeb.platform)
              EncryptionFacts.key32 EncryptionFacts.sealed_backup
              (Some (Wallet.namespace_json Reference.NS1))
              EncryptionFacts.backup eq_refl)
    as (p & ivb & ctb & pt & Hp & Halg & Hiv & Hct & Hgcm & a & Ha & Ht & Hd).
  exists p, ivb, ctb, pt, a. repeat split; assumption.
Defined.

End EncryptionExtras.

(** ** The guardian store and the CoralKM handler: further properties *)

Module GuardianExtras.
Import DIDComm GuardianStore CoralKM CoralKMCases.

Section Facts.
Context {P : Platform}.

(** X7. [removeGuardianPolicy] answers true whether or not the requester
    had a policy (after the deletion the map never has the key), while
    [deleteShare] and [deleteRecoveryRequest] answer whether the entry
    existed; after either deletion the entry is gone. *)
Theorem store_deletion_results st requester gateway nid requestId :
  (removeGuardianPolicy st requester).1 = true /\
  ((deleteShare st gateway nid).1 = isGuardian st gateway nid /\
   getShare (deleteShare st gateway nid).2 gateway nid = None) /\
  ((deleteRecoveryRequest st requestId).1
     = bool_decide (is_Some (getRecoveryRequest st requestId)) /\
   getRecoveryRequest (deleteRecoveryRequest st requestId).2 requestId = None).
Proof.
  unfold removeGuardianPolicy, deleteShare, deleteRecoveryRequest, isGuardian,
    getShare, getRecoveryRequest. cbn.
  rewrite !lookup_delete_eq. repeat split.
Qed.

(** The guardian-share-update case on a valid message, as a function of
    the sender's policy. *)
Lemma share_update_eval now uuid this mt message st from to sh ns thr :
  valid_share_update this message st from to sh ns thr ->
  handle_guardian_share_update now uuid this mt message =
  match getGuardianPolicy st from with
  | Some {| status := GRANTED |} =>
      (ok (Some (createMessage uuid
                   (GuardianShareUpdateConfirmArgs (Some to) (Some from)
                      (msg_id message)))),
       with_store this
         (saveShare now st from (gateway_did ns) (ns_id ns) thr sh).2)
  | _ =>
      (throw (DIDCommProtocolError "No active guardianship for {1}"
                "e.no_active_guardianship" mt (Some [from])),
       this)
  end.
Proof.
  intros [Hrole [Hfrom Hfrom'] [Hto Hto'] [Hsh Hsh'] Hns Hthr Hst].
  destruct (data message) as [d|] eqn:Ed; [|done]. cbn in Hsh, Hns, Hthr.
  injection Hsh as Hsh. injection Hns as Hns. injection Hthr as Hthr.
  unfold handle_guardian_share_update.
  rewrite (GuardianFacts.assertRole_ok _ _ _ Hrole).
  unfold assertMessageFieldDefined, get_data, requireGuardianStore, bind, ok.
  rewrite Hfrom, Hto, Ed, Hsh, Hns, Hst, !GuardianFacts.truthy_string_ne by done.
  cbn [JS.truthy_object].
  destruct (getGuardianPolicy st from) as [[d' []]|] eqn:Hpol; try reflexivity.
  unfold saveShare. rewrite Hpol, Hthr. reflexivity.
Qed.

(** The share update of a sender whose policy is Granted. *)
Lemma share_update_granted now uuid this mt message st from to sh ns thr :
  valid_share_update this message st from to sh ns thr ->
  status <$> getGuardianPolicy st from = Some GRANTED ->
  exists reply st',
    handle_guardian_share_update now uuid this mt message
    = (ok (Some reply), with_store this st') /\
    mtype reply = GUARDIAN_SHARE_UPDATE_CONFIRM /\
    thid reply = Some (msg_id message) /\
    DIDComm.to reply = [Some from] /\
    DIDComm.from reply = Some to /\
    getShare st' (gateway_did ns) (ns_id ns)
    = Some {| ownerDid := from; share_namespace_id := ns_id ns;
              share_namespace_gateway := gateway_did ns; updatedAt := now;
              threshold := thr; share := sh |} /\
    isGuardian st' (gateway_did ns) (ns_id ns) = true /\
    guardianPolicies st' = guardianPolicies st /\
    recoveryRequests st' = recoveryRequests st.
Proof.
  intros Hv. rewrite (share_update_eval _ _ _ _ _ _ _ _ _ _ _ Hv).
  destruct (getGuardianPolicy st from) as [[d' []]|] eqn:Hpol;
    cbn [fmap option_fmap option_map status]; [|intros [=]..].
  intros _. eexists _, _. split; [reflexivity|].
  unfold saveShare. rewrite Hpol. cbn [snd].
  unfold getShare, isGuardian. cbn. rewrite lookup_insert_eq.
  repeat split.
Qed.

(** X8. A share update is stored only for a sender whose guardian policy
    is Granted.  With no policy, or a Denied one, the handler throws
    [e.no_active_guardianship] naming the sender and leaves the handler
    and its store as they were.  With a Granted policy the share is stored
    under the namespace of the message with the sender as owner and the
    threshold of the message, [getShare] and [isGuardian] find it, the
    policies and recovery requests are untouched, and the reply is a
    GUARDIAN_SHARE_UPDATE_CONFIRM whose [thid] is the update's [id]. *)
Theorem share_update_requires_granted_policy
    now uuid this mt message st from to sh ns thr :
  valid_share_update this message st from to sh ns thr ->
  (status <$> getGuardianPolicy st from <> Some GRANTED ->
   handle_guardian_share_update now uuid this mt message
   = (throw (DIDCommProtocolError "No active guardianship for {1}"
               "e.no_active_guardianship" mt (Some [from])),
      this)) /\
  (status <$> getGuardianPolicy st from = Some GRANTED ->
   exists reply st',
     handle_guardian_share_update now uuid this mt message
     = (ok (Some reply), with_store this st') /\
     mtype reply = GUARDIAN_SHARE_UPDATE_CONFIRM /\
     thid reply = Some (msg_id message) /\
     DIDComm.to reply = [Some from] /\
     DIDComm.from reply = Some to /\
     getShare st' (gateway_did ns) (ns_id ns)
     = Some {| ownerDid := from; share_namespace_id := ns_id ns;
               share_namespace_gateway := gateway_did ns; updatedAt := now;
               threshold := thr; share := sh |} /\
     isGuardian st' (gateway_did ns) (ns_id ns) = true /\
     guardianPolicies st' = guardianPolicies st /\
     recoveryRequests st' = recoveryRequests st).
Proof.
  intros Hv. split; [|by apply share_update_granted].
  rewrite (share_update_eval _ _ _ _ _ _ _ _ _ _ _ Hv).
  by destruct (getGuardianPolicy st from) as [[d' []]|] eqn:Hpol;
    cbn [fmap option_fmap option_map status].
Qed.

(** The guardian-request case on a message with sender and recipient, at
    a guardian with a store. *)
Lemma guardian_request_eval uuid this mt message st from to :
  valid_remove this message st from to ->
  handle_guardian_request uuid this mt message =
  let this1 := {| roles := roles this; guardianStore := guardianStore this;
                  _guardian_did := Some to |} in
  match getGuardianPolicy st from with
  | Some {| status := DENIED |} =>
      (ok (Some (createMessage uuid
                   (GuardianDenyArgs (Some to) (Some from) (msg_id message)
                      (Some "Auto-deny for demonstration purposes.")))),
       with_store this1 (setGuardianPolicy st from DENIED))
  | _ =>
      (ok (Some (createMessage uuid
                   (GuardianGrantArgs (Some to) (Some from) (msg_id message)))),
       with_store this1 (setGuardianPolicy st from GRANTED))
  end.
Proof.
  intros [Hrole [Hfrom Hfrom'] [Hto Hto'] Hst].
  unfold handle_guardian_request.
  rewrite (GuardianFacts.assertRole_ok _ _ _ Hrole).
  unfold assertMessageFieldDefined, requireGuardianStore, bind, ok.
  rewrite Hfrom, Hto, !GuardianFacts.truthy_string_ne by done.
  cbn [guardianStore]. rewrite Hst.
  by destruct (getGuardianPolicy st from) as [[d []]|].
Qed.

(** X9. The answer to a guardian request depends on the sender's policy
    only: a sender whose policy is Denied is refused, with the fixed
    reason, and stays Denied; any other sender (no policy, or Granted) is
    granted and is Granted afterwards.  Either reply carries the
    request's [id] as [thid] and goes from the request's recipient to its
    sender, and the handler keeps that recipient as its guardian DID. *)
Theorem guardian_request_decided_by_policy uuid this mt message st from to :
  valid_remove this message st from to ->
  exists reply this' st',
    handle_guardian_request uuid this mt message = (ok (Some reply), this') /\
    guardianStore this' = Some st' /\
    _guardian_did this' = Some to /\
    thid reply = Some (msg_id message) /\
    DIDComm.from reply = Some to /\ DIDComm.to reply = [Some from] /\
    (forall d, d <> from -> getGuardianPolicy st' d = getGuardianPolicy st d) /\
    shares st' = shares st /\ recoveryRequests st' = recoveryRequests st /\
    if bool_decide (status <$> getGuardianPolicy st from = Some DENIED)
    then mtype reply = GUARDIAN_DENY /\
         body reply = Some (BodyReason "Auto-deny for demonstration purposes.") /\
         getGuardianPolicy st' from = Some {| requesterDid := from; status := DENIED |}
    else mtype reply = GUARDIAN_GRANT /\ body reply = None /\
         getGuardianPolicy st' from = Some {| requesterDid := from; status := GRANTED |}.
Proof.
  intros Hv. rewrite (guardian_request_eval _ _ _ _ _ _ _ Hv). cbv zeta.
  destruct (getGuardianPolicy st from) as [[d []]|] eqn:Hpol;
    cbn [fmap option_fmap option_map status];
    eexists _, _, _; (split; [reflexivity|]);
    (split; [reflexivity|]);
    unfold getGuardianPolicy, setGuardianPolicy; cbn;
    rewrite lookup_insert_eq;
    repeat split; try (intros d0 Hd0; by rewrite lookup_insert_ne).
Qed.

(** X10. A guardian-remove erases a denial: whatever the sender's policy
    was, also Denied, a guardian request that the same sender makes after
    the removal is granted, and the sender is Granted afterwards. *)
Theorem request_after_remove_is_granted
    uuid1 uuid2 this mt1 mt2 remove request st from to to2 :
  valid_remove this remove st from to ->
  msg_from request = Some from ->
  msg_to request = Some to2 -> to2 <> EmptyString ->
  let this1 := (handle_guardian_remove uuid1 this mt1 remove).2 in
  exists reply this2 st2,
    handle_guardian_request uuid2 this1 mt2 request = (ok (Some reply), this2) /\
    mtype reply = GUARDIAN_GRANT /\
    thid reply = Some (msg_id request) /\
    DIDComm.to reply = [Some from] /\
    guardianStore this2 = Some st2 /\
    getGuardianPolicy st2 from = Some {| requesterDid := from; status := GRANTED |}.
Proof.
  intros Hv Hfrom Hto Hto2. cbv zeta.
  rewrite (GuardianFacts.guardian_remove_eval _ _ _ _ _ _ _ Hv). cbn [snd].
  destruct Hv as [Hrole [_ Hfrom'] _ Hst].
  assert (Hv2 : valid_remove (with_store this (removeGuardianPolicy st from).2) request
                  (removeGuardianPolicy st from).2 from to2) by (by split).
  rewrite (guardian_request_eval _ _ _ _ _ _ _ Hv2). cbv zeta.
  assert (Hnone : getGuardianPolicy (removeGuardianPolicy st from).2 from = None).
  { unfold getGuardianPolicy, removeGuardianPolicy. cbn. apply lookup_delete_eq. }
  rewrite Hnone. eexists _, _, _. split; [reflexivity|].
  repeat split. unfold getGuardianPolicy, setGuardianPolicy. cbn.
  apply lookup_insert_eq.
Qed.

Lemma assertRole_fails (r : CoralKMRoles) (this : DCCoralKMProtocolV01)
    (mt : IDIDCommMessageType) :
  r ∉ roles this -> assertRole r this mt = invalid_role r mt.
Proof.
  intros Hr. unfold assertRole, DIDComm.assertRole.
  rewrite bool_decide_eq_false_2; [done|].
  intros (r' & Heq & Hin)%list_elem_of_fmap.
  destruct r, r'; try discriminate Heq; by apply Hr.
Qed.

(** X11. An agent without the guardian role never touches its guardian
    state and never answers a guardian-side message: each of the five
    guardian cases throws [invalid_role] (with the full message type and
    the role as arguments) before reading the message, and leaves the
    handler object as it was.  Likewise the wallet cases of an agent
    without the wallet role. *)
Theorem role_is_checked_first now uuid1 uuid2 this mt message challenge :
  (guardian ∉ roles this ->
   handle_namespace_recovery_request now uuid1 uuid2 this mt message
     = (invalid_role guardian mt, this) /\
   handle_guardian_request uuid1 this mt message = (invalid_role guardian mt, this) /\
   handle_guardian_remove uuid1 this mt message = (invalid_role guardian mt, this) /\
   handle_guardian_share_update now uuid1 this mt message
     = (invalid_role guardian mt, this) /\
   handle_guardian_verification_challenge_response uuid1 this mt message
     = (invalid_role guardian mt, this)) /\
  (wallet ∉ roles this ->
   handle_guardian_release_share this mt message = ([], invalid_role wallet mt) /\
   handle_guardian_verification_challenge uuid1 this mt message challenge
     = invalid_role wallet mt /\
   handle_wallet_notice this mt message = invalid_role wallet mt).
Proof.
  split; intros Hr.
  - unfold handle_namespace_recovery_request, handle_guardian_request,
      handle_guardian_remove, handle_guardian_share_update,
      handle_guardian_verification_challenge_response.
    rewrite !(assertRole_fails _ _ _ Hr). repeat split.
  - unfold handle_guardian_release_share, handle_guardian_verification_challenge,
      handle_wallet_notice.
    rewrite !(assertRole_fails _ _ _ Hr). repeat split.
Qed.

(** X12. Recovery at a guardian, end to end.  After a share update from a
    Granted owner, a recovery request for the same namespace is answered
    with a verification challenge addressed to the requesting device and
    carrying the request's [id] as [pthid]; a response with the accepted
    code and that [pthid] is answered with GUARDIAN_RELEASE_SHARE carrying
    exactly the share and threshold the owner stored, addressed to the
    device named in the recovery request, whoever sent the response and
    whatever challenge identifier it quotes. *)
Theorem recovery_releases_the_stored_share
    now1 now2 uuid1 uuid2 uuid3 uuid4 this mt1 mt2 mt3 update request response
    st owner g sh ns thr device expires this1 st1 r1 this2 st2 r2 g3 r3 this3 :
  valid_share_update this update st owner g sh ns thr ->
  status <$> getGuardianPolicy st owner = Some GRANTED ->
  handle_guardian_share_update now1 uuid1 this mt1 update = (r1, this1) ->
  valid_recovery_request this1 request st1 device ns expires ->
  handle_namespace_recovery_request now2 uuid2 uuid3 this1 mt2 request = (r2, this2) ->
  valid_response this2 response st2 g3 "123456" (msg_id request) ->
  handle_guardian_verification_challenge_response uuid4 this2 mt3 response = (r3, this3) ->
  (exists challenge,
     r2 = ok (Some challenge) /\
     mtype challenge = GUARDIAN_VERIFICATION_CHALLENGE /\
     DIDComm.to challenge = [Some device] /\
     DIDComm.from challenge = _guardian_did this /\
     pthid challenge = Some (msg_id request)) /\
  (exists release,
     r3 = ok (Some release) /\
     mtype release = GUARDIAN_RELEASE_SHARE /\
     DIDComm.to release = [Some device] /\
     DIDComm.from release = Some g3 /\
     pthid release = Some (msg_id request) /\
     body release = Some (BodyReleaseShare sh thr (msg_id request))).
Proof.
  intros Hv1 Hgr H1 Hv2 H2 Hv3 H3.
  destruct (share_update_granted now1 uuid1 this mt1 update
              st owner g sh ns thr Hv1 Hgr)
    as (reply1 & st1' & E1 & _ & _ & _ & _ & Hshare & Hguard & _ & _).
  rewrite E1 in H1. injection H1 as <- <-.
  assert (st1 = st1') as ->.
  { destruct Hv2 as [_ _ _ _ Hst]. cbn in Hst. by injection Hst. }
  destruct (GuardianFacts.recovery_request_answered_iff_isGuardian
              now2 uuid2 uuid3 _ mt2 request st1' device ns expires Hv2)
    as [Hyes _].
  destruct (Hyes Hguard) as (challenge & this2' & E2 & Hty & Hto & Hp & Hreq).
  rewrite E2 in H2. injection H2 as <- <-.
  split.
  { exists challenge. repeat split; try done.
    revert E2. unfold handle_namespace_recovery_request.
    destruct Hv2 as [Hrole [Hdev Hdev'] Hns [Hexp Hexp'] Hst].
    destruct (data request) as [d|] eqn:Ed; [|done]. cbn in Hdev, Hns, Hexp.
    injection Hdev as Hdev. injection Hns as Hns. injection Hexp as Hexp.
    rewrite (GuardianFacts.assertRole_ok _ _ _ Hrole).
    unfold assertMessageFieldDefined, get_data, requireGuardianStore, bind, ok.
    rewrite Ed, Hdev, Hns, Hexp, Hst, !GuardianFacts.truthy_string_ne by done.
    cbn [JS.truthy_object]. rewrite Hguard.
    intros [= <- _]. reflexivity. }
  rewrite (GuardianFacts.verification_response_eval _ _ _ _ _ _ _ _ Hv3) in H3.
  assert (Hst2 : guardianStore this2' = Some st2) by (by destruct Hv3).
  rewrite Hst2 in Hreq. cbn in Hreq. rewrite Hreq in H3. cbn [namespace deviceDid] in H3.
  assert (Hshare2 : getShare st2 (gateway_did ns) (ns_id ns)
                    = Some {| ownerDid := owner; share_namespace_id := ns_id ns;
                              share_namespace_gateway := gateway_did ns;
                              updatedAt := now1; threshold := thr; share := sh |}).
  { revert E2 Hst2. unfold handle_namespace_recovery_request.
    destruct Hv2 as [Hrole [Hdev Hdev'] Hns [Hexp Hexp'] Hst].
    destruct (data request) as [d|] eqn:Ed; [|done]. cbn in Hdev, Hns, Hexp.
    injection Hdev as Hdev. injection Hns as Hns. injection Hexp as Hexp.
    rewrite (GuardianFacts.assertRole_ok _ _ _ Hrole).
    unfold assertMessageFieldDefined, get_data, requireGuardianStore, bind, ok.
    rewrite Ed, Hdev, Hns, Hexp, Hst, !GuardianFacts.truthy_string_ne by done.
    cbn [JS.truthy_object]. rewrite Hguard.
    intros [= _ <-]. cbn. intros [= <-]. exact Hshare. }
  rewrite Hshare2 in H3. cbn in H3. injection H3 as <- <-.
  eexists. split; [reflexivity|]. repeat split.
Qed.

(** X13. The wallet's automatic answer to a verification challenge passes
    the guardian's verification.  A wallet that handles a challenge with
    sender, recipient, challenge (with an identifier) and [pthid] replies
    with the response [123456], the challenge's identifier and the same
    [pthid]; a guardian that receives this reply while it holds the
    recovery request [pthid] and a share for its namespace releases that
    share to the device of the request. *)
Theorem wallet_response_passes_verification
    uuid uuid' w mt mt' message ch g device p this st rr s :
  wallet ∈ roles w ->
  msg_from message = Some g -> g <> EmptyString ->
  msg_to message = Some device -> device <> EmptyString ->
  (data_pthid <$> data message) = Some (Some p) -> p <> EmptyString ->
  challenge_id ch <> EmptyString ->
  guardian ∈ roles this ->
  guardianStore this = Some st ->
  getRecoveryRequest st p = Some rr ->
  getShare st (gateway_did (namespace rr)) (ns_id (namespace rr)) = Some s ->
  exists reply release,
    handle_guardian_verification_challenge uuid w mt message (Some ch)
    = ok (Some reply) /\
    body reply = Some (BodyChallengeResponse (challenge_id ch) "123456" p) /\
    thid reply = Some (msg_id message) /\
    DIDComm.to reply = [Some g] /\ DIDComm.from reply = Some device /\
    handle_guardian_verification_challenge_response uuid' this mt' (received reply)
    = (ok (Some release), this) /\
    mtype release = GUARDIAN_RELEASE_SHARE /\
    DIDComm.to release = [Some (deviceDid rr)] /\
    body release = Some (BodyReleaseShare (share s) (threshold s) p).
Proof.
  intros Hw Hfrom Hg Hto Hdev Hp Hp' Hch Hgr Hst Hrr Hs.
  destruct (data message) as [d|] eqn:Ed; [|done]. cbn in Hp. injection Hp as Hp.
  unfold handle_guardian_verification_challenge.
  rewrite (GuardianFacts.assertRole_ok _ _ _ Hw).
  unfold assertMessageFieldDefined, get_data, bind, ok.
  rewrite Hfrom, Hto, Ed, Hp, !GuardianFacts.truthy_string_ne by done.
  cbn [JS.truthy_object].
  eexists _, _. split; [reflexivity|]. split; [reflexivity|].
  split; [reflexivity|]. split; [reflexivity|]. split; [reflexivity|].
  assert (Hv : valid_response this
                 (received (createMessage uuid
                    (GuardianVerificationChallengeResponseArgs (Some device) (Some g)
                       p (msg_id message) (challenge_id ch) "123456")))
                 st g "123456" p).
  { split; cbn; try done. by rewrite GuardianFacts.truthy_string_ne.
    by rewrite GuardianFacts.truthy_string_ne. }
  rewrite (GuardianFacts.verification_response_eval _ _ _ _ _ _ _ _ Hv).
  rewrite Hrr. cbn [String.eqb Ascii.eqb Bool.eqb]. rewrite Hs.
  split; [reflexivity|]. repeat split.
Qed.

(** The handler objects that exist: those the constructor returns and
    those a guardian case leaves behind. *)
Inductive reachable : DCCoralKMProtocolV01 -> Prop :=
| reach_new N (options : CoralKMOptions N) this :
    constructor options = ok this -> reachable this
| reach_recovery_request now uuid1 uuid2 this mt message :
    reachable this ->
    reachable (handle_namespace_recovery_request now uuid1 uuid2 this mt message).2
| reach_request uuid this mt message :
    reachable this -> reachable (handle_guardian_request uuid this mt message).2
| reach_remove uuid this mt message :
    reachable this -> reachable (handle_guardian_remove uuid this mt message).2
| reach_share_update now uuid this mt message :
    reachable this ->
    reachable (handle_guardian_share_update now uuid this mt message).2
| reach_response uuid this mt message :
    reachable this ->
    reachable (handle_guardian_verification_challenge_response uuid this mt message).2.

(** What the guardian cases keep of the handler object. *)
Definition keeps (this this' : DCCoralKMProtocolV01) : Prop :=
  roles this' = roles this /\
  (present (guardianStore this) = true -> present (guardianStore this') = true).

Lemma keeps_refl this : keeps this this.
Proof. by split. Qed.

Lemma keeps_with_store this st : keeps this (with_store this st).
Proof. by split. Qed.

Lemma keeps_recovery_request now uuid1 uuid2 this mt message :
  keeps this (handle_namespace_recovery_request now uuid1 uuid2 this mt message).2.
Proof.
  unfold handle_namespace_recovery_request.
  destruct (_ ;;! _) as [[[[dev ns] ex] st]|e]; [|apply keeps_refl].
  destruct (isGuardian st _ _); [|apply keeps_refl].
  destruct (saveRecoveryRequest _ _ _ _ _ _). apply keeps_with_store.
Qed.

Lemma keeps_request uuid this mt message :
  keeps this (handle_guardian_request uuid this mt message).2.
Proof.
  unfold handle_guardian_request.
  destruct (_ ;;! _) as [[from to]|e]; [|apply keeps_refl].
  unfold requireGuardianStore. cbn [guardianStore].
  destruct (guardianStore this) as [st|] eqn:Hst.
  - cbn. destruct (getGuardianPolicy st from) as [[d []]|]; split; cbn; done.
  - split; cbn; [done|]. by rewrite Hst.
Qed.

Lemma keeps_remove uuid this mt message :
  keeps this (handle_guardian_remove uuid this mt message).2.
Proof.
  unfold handle_guardian_remove.
  destruct (_ ;;! _) as [[[from to] st]|e]; [|apply keeps_refl].
  destruct (removeGuardianPolicy st from). apply keeps_with_store.
Qed.

Lemma keeps_share_update now uuid this mt message :
  keeps this (handle_guardian_share_update now uuid this mt message).2.
Proof.
  unfold handle_guardian_share_update.
  destruct (_ ;;! _) as [[[[[[from to] d] sh] ns] st]|e]; [|apply keeps_refl].
  destruct (saveShare _ _ _ _ _ _ _) as [[?|?] ?]; apply keeps_with_store.
Qed.

Lemma keeps_response uuid this mt message :
  keeps this (handle_guardian_verification_challenge_response uuid this mt message).2.
Proof.
  unfold handle_guardian_verification_challenge_response.
  destruct (_ ;;! _) as [[[[to response] pthid] st]|e]; [|apply keeps_refl].
  destruct (getRecoveryRequest st pthid) as [rr|]; [|apply keeps_refl].
  destruct (String.eqb response "123456").
  - destruct (getShare st _ _); apply keeps_refl.
  - destruct (deleteRecoveryRequest st pthid). apply keeps_with_store.
Qed.

(** X14. A handler object with the guardian role always has a guardian
    store: the constructor refuses the role without a store (and the
    gateway role without a namespace store), and no guardian case removes
    the store or changes the roles.  The guard that throws
    [e.guardian_not_configured] therefore never fires on a handler that
    was built by the constructor, whatever messages it has handled. *)
Theorem guardian_store_always_configured this mt :
  reachable this -> guardian ∈ roles this ->
  exists st, guardianStore this = Some st /\ requireGuardianStore this mt = ok st.
Proof.
  intros Hreach Hrole.
  assert (Hpresent : present (guardianStore this) = true).
  { revert Hrole.
    assert (Hinv : guardian ∈ roles this -> present (guardianStore this) = true);
      [|exact Hinv].
    induction Hreach as [N options this Hnew
                        |now uuid1 uuid2 this mt' message Hreach IH
                        |uuid this mt' message Hreach IH
                        |uuid this mt' message Hreach IH
                        |now uuid this mt' message Hreach IH
                        |uuid this mt' message Hreach IH].
    - unfold constructor in Hnew.
      destruct (bool_decide (gateway ∈ opt_roles options)
                && negb (present (opt_namespaceStore options))); [discriminate|].
      destruct (bool_decide (guardian ∈ opt_roles options)) eqn:Hg.
      + destruct (present (opt_guardianStore options)) eqn:Hs; [|discriminate].
        injection Hnew as <-. done.
      + injection Hnew as <-. cbn. intros Hin.
        apply bool_decide_eq_false in Hg. done.
    - destruct (keeps_recovery_request now uuid1 uuid2 this mt' message) as [Hr Hs].
      rewrite Hr. auto.
    - destruct (keeps_request uuid this mt' message) as [Hr Hs]. rewrite Hr. auto.
    - destruct (keeps_remove uuid this mt' message) as [Hr Hs]. rewrite Hr. auto.
    - destruct (keeps_share_update now uuid this mt' message) as [Hr Hs].
      rewrite Hr. auto.
    - destruct (keeps_response uuid this mt' message) as [Hr Hs]. rewrite Hr. auto. }
  unfold requireGuardianStore.
  destruct (guardianStore this) as [st|]; [by exists st|discriminate].
Qed.

End Facts.

Lemma guardian_in_roles : guardian ∈ [guardian].
Proof. apply list_elem_of_singleton. reflexivity. Qed.

Lemma wallet_in_roles : wallet ∈ [wallet].
Proof. apply list_elem_of_singleton. reflexivity. Qed.

Lemma fixture_share_update_valid (from : string) :
  from <> EmptyString ->
  valid_share_update Reference.guardian_with_request (Fixtures.share_update from "share-B")
    Reference.store_with_request from "did:web:guardian" "share-B" Reference.NS1
    (Some 2%Z).
Proof. intros Hne. split; try done. apply guardian_in_roles. Qed.

(** Alice is Granted at the guardian: her new share replaces the old one. *)
Lemma share_update_requires_granted_policy_witness :
  exists reply st',
    handle_guardian_share_update (P := Reference.platform) 7 "u1"
      Reference.guardian_with_request (Fixtures.coralkm "guardian-share-update")
      (Fixtures.share_update "did:web:alice" "share-B")
    = (ok (Some reply), with_store Reference.guardian_with_request st') /\
    thid reply = Some "m3" /\
    (share <$> getShare (P := Reference.platform) st' "did:web:gw" "NS1")
    = Some "share-B".
Proof.
  destruct (share_update_requires_granted_policy (P := Reference.platform) 7 "u1"
              Reference.guardian_with_request (Fixtures.coralkm "guardian-share-update")
              (Fixtures.share_update "did:web:alice" "share-B")
              _ _ _ _ _ _
              (fixture_share_update_valid "did:web:alice" ltac:(discriminate)))
    as [_ Hyes].
  destruct (Hyes eq_refl) as (reply & st' & Hh & _ & Hthid & _ & _ & Hs & _).
  exists reply, st'. split; [exact Hh|]. split; [exact Hthid|].
  change (share <$> getShare (P := Reference.platform) st'
                      (gateway_did Reference.NS1) (ns_id Reference.NS1)
          = Some "share-B").
  by rewrite Hs.
Defined.

Lemma fixture_request_valid (this : DCCoralKMProtocolV01) st (from : string) :
  roles this = [guardian] -> guardianStore this = Some st -> from <> EmptyString ->
  valid_remove this (Fixtures.guardian_request from) st from "did:web:guardian".
Proof.
  intros Hr Hst Hne. split; try done. rewrite Hr. apply guardian_in_roles.
Qed.

(** Bob was refused before and is refused again. *)
Lemma guardian_request_decided_by_policy_witness :
  exists reply this',
    handle_guardian_request "u2" Fixtures.guardian_refusing_bob
      (Fixtures.coralkm "guardian-request") (Fixtures.guardian_request "did:web:bob")
    = (ok (Some reply), this') /\
    mtype reply = GUARDIAN_DENY /\ thid reply = Some "m2".
Proof.
  destruct (guardian_request_decided_by_policy "u2" Fixtures.guardian_refusing_bob
              (Fixtures.coralkm "guardian-request")
              (Fixtures.guardian_request "did:web:bob") _ _ _
              (fixture_request_valid Fixtures.guardian_refusing_bob _ "did:web:bob"
                 eq_refl eq_refl ltac:(discriminate)))
    as (reply & this' & st' & Hh & _ & _ & Hthid & _ & _ & _ & _ & _ & Hcase).
  exists reply, this'. split; [exact Hh|]. split; [|exact Hthid].
  exact (proj1 Hcase).
Defined.

Lemma fixture_bob_remove_valid :
  valid_remove Fixtures.guardian_refusing_bob
    {| msg_id := "m9"; msg_type := GUARDIAN_REMOVE;
       msg_from := Some "did:web:bob"; msg_to := Some "did:web:guardian";
       threadId := None; data := None; metaData := [] |}
    (setGuardianPolicy empty "did:web:bob" DENIED) "did:web:bob" "did:web:guardian".
Proof. split; try done. apply guardian_in_roles. Qed.

(** Bob, refused before, removes himself and asks again: granted. *)
Lemma request_after_remove_is_granted_witness :
  exists reply this2,
    handle_guardian_request "u2"
      (handle_guardian_remove "u1" Fixtures.guardian_refusing_bob
         (Fixtures.coralkm "guardian-remove")
         {| msg_id := "m9"; msg_type := GUARDIAN_REMOVE;
            msg_from := Some "did:web:bob"; msg_to := Some "did:web:guardian";
            threadId := None; data := None; metaData := [] |}).2
      (Fixtures.coralkm "guardian-request") (Fixtures.guardian_request "did:web:bob")
    = (ok (Some reply), this2) /\
    mtype reply = GUARDIAN_GRANT.
Proof.
  destruct (request_after_remove_is_granted "u1" "u2" Fixtures.guardian_refusing_bob
              (Fixtures.coralkm "guardian-remove") (Fixtures.coralkm "guardian-request")
              _ (Fixtures.guardian_request "did:web:bob") _ _ _ "did:web:guardian"
              fixture_bob_remove_valid eq_refl eq_refl ltac:(discriminate))
    as (reply & this2 & st2 & Hh & Hty & _).
  exists reply, this2. split; [exact Hh | exact Hty].
Defined.

Lemma fixture_flow_update_valid :
  valid_share_update Fixtures.guardian_of_alice
    (Fixtures.share_update "did:web:alice" "share-A")
    (setGuardianPolicy empty "did:web:alice" GRANTED)
    "did:web:alice" "did:web:guardian" "share-A" Reference.NS1 (Some 2%Z).
Proof. split; try done. apply guardian_in_roles. Qed.

Definition flow_after_update : DCCoralKMProtocolV01 :=
  (handle_guardian_share_update (P := Reference.platform) 10 "u1"
     Fixtures.guardian_of_alice (Fixtures.coralkm "guardian-share-update")
     (Fixtures.share_update "did:web:alice" "share-A")).2.

Definition flow_after_request : DCCoralKMProtocolV01 :=
  (handle_namespace_recovery_request (P := Reference.platform) 20 "c1" "u2"
     flow_after_update (Fixtures.coralkm "namespace-recovery-request")
     (Reference.recovery_request Reference.NS1)).2.

Lemma fixture_flow_request_valid :
  exists st1,
    valid_recovery_request flow_after_update (Reference.recovery_request Reference.NS1)
      st1 "did:web:device" Reference.NS1 "9000".
Proof. eexists. split; try done. apply guardian_in_roles. Qed.

Lemma fixture_flow_response_valid :
  exists st2,
    valid_response flow_after_request (Fixtures.response_for "R2") st2
      "did:web:guardian" "123456" "R2".
Proof. eexists. split; try done. apply guardian_in_roles. Qed.

(** Alice stores a share, a device asks to recover the namespace, and a
    response with the code releases alice's share to the device. *)
Lemma recovery_releases_the_stored_share_witness :
  exists release this3,
    handle_guardian_verification_challenge_response (P := Reference.platform) "u3"
      flow_after_request (Fixtures.coralkm "guardian-verification-challenge-response")
      (Fixtures.response_for "R2")
    = (ok (Some release), this3) /\
    DIDComm.to release = [Some "did:web:device"] /\
    body release = Some (BodyReleaseShare "share-A" (Some 2%Z) "R2").
Proof.
  destruct fixture_flow_request_valid as [st1 Hv2].
  destruct fixture_flow_response_valid as [st2 Hv3].
  destruct (recovery_releases_the_stored_share (P := Reference.platform)
              10 20 "u1" "c1" "u2" "u3" Fixtures.guardian_of_alice
              (Fixtures.coralkm "guardian-share-update")
              (Fixtures.coralkm "namespace-recovery-request")
              (Fixtures.coralkm "guardian-verification-challenge-response")
              (Fixtures.share_update "did:web:alice" "share-A")
              (Reference.recovery_request Reference.NS1)
              (Fixtures.response_for "R2")
              _ _ _ _ _ _ _ _ flow_after_update st1 _ flow_after_request st2 _ _ _ _
              fixture_flow_update_valid eq_refl eq_refl Hv2 eq_refl Hv3 eq_refl)
    as [_ (release & Hr3 & _ & Hto & _ & _ & Hbody)].
  exists release. eexists. split; [|split; [exact Hto | exact Hbody]].
  rewrite <- Hr3. reflexivity.
Defined.

Lemma fixture_store_with_request_lookup :
  getRecoveryRequest Reference.store_with_request "R1"
  = Some {| request_id := "R1"; deviceDid := "did:web:device";
            namespace := Reference.NS1; createdAt := 500; expiresAt := 1000 |}.
Proof. reflexivity. Qed.

(** The device's wallet answers the guardian's challenge for R1, and the
    guardian releases alice's share. *)
Lemma wallet_response_passes_verification_witness :
  exists reply release,
    handle_guardian_verification_challenge "u5" Fixtures.wallet_only
      (Fixtures.coralkm "guardian-verification-challenge") Fixtures.challenge_message
      (Some Fixtures.challenge)
    = ok (Some reply) /\
    handle_guardian_verification_challenge_response (P := Reference.platform) "u6"
      Reference.guardian_with_request
      (Fixtures.coralkm "guardian-verification-challenge-response") (received reply)
    = (ok (Some release), Reference.guardian_with_request) /\
    body release = Some (BodyReleaseShare "share-A" (Some 2%Z) "R1").
Proof.
  destruct (wallet_response_passes_verification (P := Reference.platform) "u5" "u6"
              Fixtures.wallet_only
              (Fixtures.coralkm "guardian-verification-challenge")
              (Fixtures.coralkm "guardian-verification-challenge-response")
              Fixtures.challenge_message Fixtures.challenge
              "did:web:guardian" "did:web:device" "R1"
              Reference.guardian_with_request Reference.store_with_request _ _
              wallet_in_roles eq_refl ltac:(discriminate) eq_refl ltac:(discriminate)
              eq_refl ltac:(discriminate) ltac:(discriminate)
              guardian_in_roles eq_refl fixture_store_with_request_lookup eq_refl)
    as (reply & release & Hw & _ & _ & _ & _ & Hg & _ & _ & Hbody).
  exists reply, release. split; [exact Hw|]. split; [exact Hg | exact Hbody].
Defined.

Lemma fixture_constructed :
  constructor (N := unit)
    {| opt_roles := [guardian]; opt_namespaceStore := None;
       opt_guardianStore := Some empty |} = ok Fixtures.new_guardian.
Proof. reflexivity. Qed.

(** A guardian built with an empty store, after a request and a removal. *)
Lemma guardian_store_always_configured_witness :
  exists st,
    guardianStore
      (handle_guardian_remove "u2"
         (handle_guardian_request "u1" Fixtures.new_guardian
            (Fixtures.coralkm "guardian-request")
            (Fixtures.guardian_request "did:web:alice")).2
         (Fixtures.coralkm "guardian-remove") Reference.remove_message).2
    = Some st.
Proof.
  destruct (guardian_store_always_configured (P := Reference.platform)
              (handle_guardian_remove "u2"
                 (handle_guardian_request "u1" Fixtures.new_guardian
                    (Fixtures.coralkm "guardian-request")
                    (Fixtures.guardian_request "did:web:alice")).2
                 (Fixtures.coralkm "guardian-remove") Reference.remove_message).2
              (Fixtures.coralkm "guardian-remove")
              (reach_remove _ _ _ _
                 (reach_request _ _ _ _ (reach_new unit _ _ fixture_constructed)))
              guardian_in_roles)
    as (st & Hst & _).
  exists st. exact Hst.
Defined.

End GuardianExtras.

(** ** The protocol registry: properties *)

Module PluginExtras.
Import DIDComm JSMap DIDCommProtocolsPlugin.

Section MapFacts.
Context {V : Type}.
Implicit Types (m : JSMap.t V) (k : string) (v : V).

Lemma get_fresh m k : get m k = None <-> k ∉ keys m.
Proof.
  induction m as [|[k' v'] m IH]; cbn.
  - split; [intros _; apply not_elem_of_nil|done].
  - destruct (String.eqb k' k) eqn:Hk.
    + apply String.eqb_eq in Hk as ->. split; [done|]. intros Hn. contradict Hn. left.
    + apply String.eqb_neq in Hk. rewrite IH, not_elem_of_cons.
      split; [by split|by intros [_ Hn]].
Qed.

Lemma has_keys m k : has m k = true <-> k ∈ keys m.
Proof.
  unfold has. destruct (get m k) eqn:Hg.
  - split; [intros _|done]. destruct (decide (k ∈ keys m)) as [|Hn]; [done|].
    apply get_fresh in Hn. congruence.
  - split; [done|]. intros Hin. apply get_fresh in Hg. done.
Qed.

Lemma set_fresh m k v : get m k = None -> set m k v = (m ++ [(k, v)])%list.
Proof.
  induction m as [|[k' v'] m IH]; cbn; [done|].
  destruct (String.eqb k' k); [done|]. intros Hg. by rewrite IH.
Qed.

Lemma get_app_fresh m k v k' :
  get (m ++ [(k, v)])%list k' =
  match get m k' with
  | Some v' => Some v'
  | None => if String.eqb k k' then Some v else None
  end.
Proof.
  induction m as [|[k0 v0] m IH]; cbn; [done|].
  destruct (String.eqb k0 k'); [done|]. exact IH.
Qed.

Lemma get_delete_eq m k : NoDup (keys m) -> get (delete m k) k = None.
Proof.
  induction m as [|[k' v'] m IH]; cbn; [done|].
  intros [Hn Hnd]%NoDup_cons. destruct (String.eqb k' k) eqn:Hk.
  - apply String.eqb_eq in Hk as ->. by apply get_fresh.
  - cbn. rewrite Hk. by apply IH.
Qed.

Lemma get_delete_ne m k k' : k <> k' -> get (delete m k) k' = get m k'.
Proof.
  intros Hne. induction m as [|[k0 v0] m IH]; cbn; [done|].
  destruct (String.eqb k0 k) eqn:Hk.
  - apply String.eqb_eq in Hk as ->.
    by rewrite (proj2 (String.eqb_neq _ _) Hne).
  - cbn. by rewrite IH.
Qed.

Lemma get_elem m k v : NoDup (keys m) -> (k, v) ∈ m -> get m k = Some v.
Proof.
  induction m as [|[k' v'] m IH]; cbn.
  - intros _ Hin. by apply elem_of_nil in Hin.
  - intros [Hn Hnd]%NoDup_cons [Heq|Hin]%elem_of_cons.
    + injection Heq as <- <-. by rewrite String.eqb_refl.
    + destruct (String.eqb k' k) eqn:Hk; [|by apply IH].
      apply String.eqb_eq in Hk as ->. contradict Hn.
      apply list_elem_of_fmap. by exists (k, v).
Qed.

End MapFacts.

Section Facts.
Context {Handler Args : Type}.
Variable name version piuri : Handler -> string.
Variable has_handle : Handler -> bool.
Variable stringify : Handler -> string.
Variable DEFAULT_PROTOCOLS : list Handler.
Variable getMessageType : string -> Result IDIDCommMessageType.
Variable args_type : Args -> string.
Variable createMessage : Handler -> Args -> Result IDIDCommMessage.

#[local] Abbreviation key_of := (key_of version piuri).
#[local] Abbreviation register := (_registerDIDCommProtocol name version piuri has_handle stringify).

(** A handler that passes the check of the registration. *)
Definition well_formed (protocol : Handler) : Prop :=
  name protocol <> EmptyString /\ version protocol <> EmptyString /\
  piuri protocol <> EmptyString /\ has_handle protocol = true.

Lemma register_ok (m : JSMap.t Handler) (p : Handler) (m' : JSMap.t Handler) :
  register m p = ok m' <->
  well_formed p /\ (key_of p ∉ keys m) /\ m' = (m ++ [(key_of p, p)])%list.
Proof.
  unfold _registerDIDCommProtocol, well_formed.
  destruct (name p) as [|? ?] eqn:Hn; cbn [JS.truthy_string negb orb];
    [split; [done|by intros ((? & ? & ? & ?) & _)]|].
  destruct (version p) as [|? ?] eqn:Hv; cbn [JS.truthy_string negb orb];
    [split; [done|by intros ((? & ? & ? & ?) & _)]|].
  destruct (piuri p) as [|? ?] eqn:Hp; cbn [JS.truthy_string negb orb];
    [split; [done|by intros ((? & ? & ? & ?) & _)]|].
  destruct (has_handle p) eqn:Hh; cbn [negb];
    [|split; [done|by intros ((? & ? & ? & ?) & _)]].
  cbv zeta. destruct (has m (key_of p)) eqn:Hhas.
  - split; [done|]. intros (_ & Hfresh & _). apply has_keys in Hhas. done.
  - assert (Hfresh : key_of p ∉ keys m).
    { intros Hin. apply has_keys in Hin. congruence. }
    rewrite set_fresh by (by apply get_fresh). split.
    + intros [= <-]. repeat split; done.
    + intros (_ & _ & ->). done.
Qed.

Lemma fold_register (l : list Handler) (m : JSMap.t Handler) (m' : JSMap.t Handler) :
  fold_left (fun acc protocol => registered <-! acc; register registered protocol)
            l (ok m) = ok m' <->
  Forall well_formed l /\ NoDup (key_of <$> l) /\
  (forall p, p ∈ l -> key_of p ∉ keys m) /\
  m' = (m ++ ((fun p => (key_of p, p)) <$> l))%list.
Proof.
  revert m. induction l as [|p l IH]; intros m; cbn [fold_left].
  - rewrite app_nil_r. split.
    + intros [= <-]. repeat split; try done. constructor.
      intros p Hp. by apply elem_of_nil in Hp.
    + by intros (_ & _ & _ & ->).
  - cbn [bind ok]. destruct (register m p) as [m1|e] eqn:Hreg.
    + apply register_ok in Hreg as (Hwf & Hfresh & ->).
      etrans; [apply IH|]. rewrite fmap_cons, NoDup_cons, Forall_cons.
      pose proof Hwf as (Hwf1 & Hwf2 & Hwf3 & Hwf4). split.
      * intros (Hall & Hnd & Hdisj & ->). repeat split; try done.
        -- intros Hin. apply list_elem_of_fmap in Hin as (q & Hq & Hin).
           apply (Hdisj q Hin). unfold keys. rewrite fmap_app, elem_of_app.
           right. cbn. rewrite <- Hq. left.
        -- intros q [->|Hin]%elem_of_cons; [done|].
           intros Hk. apply (Hdisj q Hin). unfold keys. rewrite fmap_app, elem_of_app.
           by left.
        -- by rewrite <- app_assoc.
      * intros ((Hwf' & Hall) & (Hnp & Hnd) & Hdisj & ->). repeat split; try done.
        -- intros q Hin. unfold keys. rewrite fmap_app, elem_of_app. cbn.
           intros [Hk|Hk%list_elem_of_singleton].
           ++ apply (Hdisj q); [by right|done].
           ++ apply Hnp. apply list_elem_of_fmap. by exists q.
        -- by rewrite <- app_assoc.
    + split.
      * intros Hf. exfalso. clear IH. revert Hf.
        induction l as [|q l IHl]; cbn [fold_left]; [done|]. exact IHl.
      * rewrite fmap_cons, NoDup_cons, Forall_cons.
        intros ((Hwf & _) & _ & Hdisj & _). exfalso.
        assert (Hok : register m p = ok (m ++ [(key_of p, p)])%list).
        { apply register_ok. split; [exact Hwf|]. split; [|done]. apply Hdisj. left. }
        rewrite Hok in Hreg. discriminate Hreg.
Qed.

(** X15. The plugin's constructor registers the default protocols and
    then the given ones, in this order, and succeeds exactly when every
    one of them has a non-empty name, version and PIURI and a [handle]
    method, and no two of them (defaults included) have the same key
    [piuri/version].  The registry then lists them in that order and
    finds each one under its key. *)
Theorem constructor_registers_all (protocols : list Handler) :
  let all := (DEFAULT_PROTOCOLS ++ protocols)%list in
  (forall registry,
     constructor name version piuri has_handle stringify DEFAULT_PROTOCOLS protocols
       = ok registry ->
     Forall well_formed all /\ NoDup (key_of <$> all) /\
     listDIDCommProtocols registry = all /\
     forall p, p ∈ all -> JSMap.get registry (key_of p) = Some p) /\
  (Forall well_formed all -> NoDup (key_of <$> all) ->
   exists registry,
     constructor name version piuri has_handle stringify DEFAULT_PROTOCOLS protocols
       = ok registry).
Proof.
  cbv zeta. unfold constructor. split.
  - intros registry Hc. apply fold_register in Hc as (Hall & Hnd & _ & ->).
    cbn [app JSMap.empty]. repeat split; try done.
    + unfold listDIDCommProtocols, values. rewrite <- list_fmap_compose.
      apply list_fmap_id.
    + intros p Hp. apply get_elem.
      * unfold keys. by rewrite <- list_fmap_compose.
      * apply list_elem_of_fmap. by exists p.
  - intros Hall Hnd. eexists. apply fold_register. repeat split; try done.
    intros p _. apply not_elem_of_nil.
Qed.

(** X16. Registration, lookup and removal of one protocol.  After a
    successful registration the protocol is found for every message type
    that [getMessageType] splits into its PIURI and version, and the other
    keys are as before; a second registration under the same key is
    refused as already registered; after unregistering, the lookup fails
    with the no-handler error; unregistering a key that is not registered
    is refused. *)
Theorem register_lookup_unregister
    (registry registry' : JSMap.t Handler) (protocol : Handler) :
  NoDup (keys registry) ->
  registerDIDCommProtocol name version piuri has_handle stringify registry protocol
    = ok registry' ->
  (forall messageType mt,
     getMessageType messageType = ok mt ->
     DIDComm.piuri mt = piuri protocol -> DIDComm.version mt = version protocol ->
     getDIDCommProtocol getMessageType registry' messageType = ok protocol) /\
  (forall k, k <> key_of protocol -> JSMap.get registry' k = JSMap.get registry k) /\
  registerDIDCommProtocol name version piuri has_handle stringify registry' protocol
    = throw (PlainError ("Protocol handler for " +:+ key_of protocol
                         +:+ " is already registered.")) /\
  (exists registry'',
     unregisterDIDCommProtocol registry' (piuri protocol) (version protocol)
       = ok registry'' /\
     (forall k, JSMap.get registry'' k = JSMap.get registry k) /\
     (forall messageType mt,
        getMessageType messageType = ok mt ->
        DIDComm.piuri mt = piuri protocol -> DIDComm.version mt = version protocol ->
        getDIDCommProtocol getMessageType registry'' messageType
        = throw (PlainError ("No protocol handler found for message type: "
                             +:+ messageType)))) /\
  unregisterDIDCommProtocol registry (piuri protocol) (version protocol)
    = throw (PlainError ("Protocol handler for " +:+ key_of protocol
                         +:+ " is not registered.")).
Proof.
  intros Hnd Hreg. unfold registerDIDCommProtocol in *.
  pose proof Hreg as Hreg'.
  apply register_ok in Hreg as (Hwf & Hfresh & ->).
  assert (Hnone : JSMap.get registry (key_of protocol) = None) by (by apply get_fresh).
  assert (Hget : JSMap.get (registry ++ [(key_of protocol, protocol)])%list
                   (key_of protocol) = Some protocol).
  { by rewrite get_app_fresh, Hnone, String.eqb_refl. }
  repeat split.
  - intros messageType mt Hmt Hp Hv. unfold getDIDCommProtocol.
    rewrite Hmt. cbn [bind ok]. rewrite Hp, Hv.
    change (piuri protocol +:+ "/" +:+ version protocol) with (key_of protocol).
    by rewrite Hget.
  - intros k Hk. rewrite get_app_fresh.
    destruct (JSMap.get registry k); [done|].
    by rewrite (proj2 (String.eqb_neq _ _) (not_eq_sym Hk)).
  - unfold _registerDIDCommProtocol.
    destruct Hwf as (Hn & Hv & Hp & Hh).
    destruct (name protocol); [done|]. destruct (version protocol) eqn:Ev; [done|].
    destruct (piuri protocol) eqn:Ep; [done|]. rewrite Hh. cbn [JS.truthy_string negb orb].
    cbv zeta. unfold has.
    unfold DIDCommProtocolsPlugin.key_of in *. rewrite Ev, Ep in *. by rewrite Hget.
  - assert (Hnd' : NoDup (keys (registry ++ [(key_of protocol, protocol)])%list)).
    { unfold keys. rewrite fmap_app. apply NoDup_app. repeat split; [done| |].
      - intros k Hk [->|Hin%elem_of_nil]%elem_of_cons; done.
      - cbn. apply NoDup_singleton. }
    eexists. unfold unregisterDIDCommProtocol. cbv zeta.
    change (piuri protocol +:+ "/" +:+ version protocol) with (key_of protocol).
    unfold has at 1. rewrite Hget. cbn [negb].
    split; [reflexivity|].
    assert (Hall : forall k,
               JSMap.get (delete (registry ++ [(key_of protocol, protocol)])%list
                            (key_of protocol)) k = JSMap.get registry k).
    { intros k. destruct (decide (k = key_of protocol)) as [->|Hk].
      - by rewrite get_delete_eq, Hnone.
      - rewrite get_delete_ne by done. rewrite get_app_fresh.
        destruct (JSMap.get registry k); [done|].
        by rewrite (proj2 (String.eqb_neq _ _) (not_eq_sym Hk)). }
    split; [exact Hall|].
    intros messageType mt Hmt Hp Hv. unfold getDIDCommProtocol.
    rewrite Hmt. cbn [bind ok]. rewrite Hp, Hv.
    change (piuri protocol +:+ "/" +:+ version protocol) with (key_of protocol).
    by rewrite Hall, Hnone.
  - unfold unregisterDIDCommProtocol. cbv zeta.
    change (piuri protocol +:+ "/" +:+ version protocol) with (key_of protocol).
    unfold has. by rewrite Hnone.
Qed.

End Facts.

Lemma default_registry_keys : NoDup (keys Fixtures.default_registry).
Proof. apply (bool_decide_unpack _). vm_compute. exact I. Qed.

(** The CoralKM protocol is registered after the defaults and found for
    its guardian-remove message type. *)
Lemma register_lookup_unregister_witness :
  exists registry',
    registerDIDCommProtocol Fixtures.d_name Fixtures.d_version Fixtures.d_piuri
      (fun _ => true) Fixtures.d_name Fixtures.default_registry
      Fixtures.coralkm_descriptor = ok registry' /\
    getDIDCommProtocol Reference.getMessageType registry' CoralKM.GUARDIAN_REMOVE
    = ok Fixtures.coralkm_descriptor.
Proof.
  eexists. split; [reflexivity|].
  refine (proj1 (register_lookup_unregister Fixtures.d_name Fixtures.d_version
                   Fixtures.d_piuri (fun _ => true) Fixtures.d_name
                   Reference.getMessageType Fixtures.default_registry _
                   Fixtures.coralkm_descriptor default_registry_keys eq_refl)
            CoralKM.GUARDIAN_REMOVE _ eq_refl eq_refl eq_refl).
Defined.

End PluginExtras.

(** ** The message handler and the problem reports: further properties *)

Module EngineExtras.
Import DIDComm DIDCommEngine CoralKMCases.

Lemma fold_addMetaData_all (added : list MetaData) (m : Message) :
  let m' := fold_left addMetaData added m in
  msg_id m' = msg_id m /\ msg_type m' = msg_type m /\ msg_from m' = msg_from m /\
  msg_to m' = msg_to m /\ threadId m' = threadId m /\ data m' = data m /\
  metaData m' = (metaData m ++ added)%list.
Proof.
  revert m. induction added as [|a added IH]; intros m; cbn [fold_left].
  - by rewrite app_nil_r.
  - destruct (IH (addMetaData m a)) as (-> & -> & -> & -> & -> & -> & ->). cbn.
    by rewrite <- app_assoc.
Qed.

Section Facts.
Variable getMessageType : string -> Result IDIDCommMessageType.
Variable protocols : gmap string IDIDCommProtocolHandler.
Variable super_handle : Message -> Result Message.

(** X17. The message handler changes nothing of an incoming message but
    its metadata, and only by appending: whenever it passes the message
    on, identifier, type, sender, recipient, thread and body are as
    received, and the metadata are the old entries, then those the
    protocol handler added, then at most one return-route entry, present
    exactly when the protocol handler returned a reply (the entry carries
    it) or threw (the entry carries the problem report).  When the
    problem report cannot be built the message is not passed on at all. *)
Theorem handler_only_appends_metadata (uuid : string) (message : Message) :
  let '(added, outcome) := dispatch getMessageType protocols message in
  match annotate getMessageType protocols uuid message with
  | inl annotated =>
      handle_message getMessageType protocols super_handle uuid message
        = super_handle annotated /\
      msg_id annotated = msg_id message /\ msg_type annotated = msg_type message /\
      msg_from annotated = msg_from message /\ msg_to annotated = msg_to message /\
      threadId annotated = threadId message /\ data annotated = data message /\
      exists route,
        metaData annotated = (metaData message ++ added ++ route)%list /\
        match outcome with
        | inl (Some response) => route = [ReturnRouteResponse (id response) response PLAIN]
        | inl None => route = []
        | inr error =>
            exists report,
              problemReport getMessageType protocols uuid
                (fold_left addMetaData added message) error = ok report /\
              route = [ReturnRouteResponse (id report) report PLAIN]
        end
  | inr e =>
      handle_message getMessageType protocols super_handle uuid message = inr e /\
      exists error,
        outcome = inr error /\
        problemReport getMessageType protocols uuid
          (fold_left addMetaData added message) error = inr e
  end.
Proof.
  unfold handle_message, annotate.
  destruct (dispatch getMessageType protocols message) as [added outcome].
  destruct (fold_addMetaData_all added message)
    as (Hid & Hty & Hfrom & Hto & Hth & Hdata & Hmeta).
  destruct outcome as [[response|]|error]; cbn [bind ok].
  - split; [reflexivity|]. cbn [addMetaData msg_id msg_type msg_from msg_to threadId
                                 data metaData].
    rewrite Hid, Hty, Hfrom, Hto, Hth, Hdata, Hmeta. repeat split.
    eexists. split; [by rewrite <- app_assoc|reflexivity].
  - split; [reflexivity|]. rewrite Hid, Hty, Hfrom, Hto, Hth, Hdata, Hmeta.
    repeat split. exists []. by rewrite app_nil_r.
  - destruct (problemReport getMessageType protocols uuid
                (fold_left addMetaData added message) error) as [report|e] eqn:Hrep;
      cbn [bind ok].
    + split; [reflexivity|]. cbn [addMetaData msg_id msg_type msg_from msg_to threadId
                                   data metaData].
      rewrite Hid, Hty, Hfrom, Hto, Hth, Hdata, Hmeta. repeat split.
      eexists. split; [by rewrite <- app_assoc|]. by exists report.
    + split; [reflexivity|]. by exists error.
Qed.

(** X18. A message of a type for which no protocol is registered, or
    whose type is not a message type URI at all, is answered with a
    problem report of code [internal_error] whose comment is the error
    text (naming the message type), sent to the message's sender under
    the message's thread or, without one, its identifier. *)
Theorem unknown_type_is_reported (uuid : string) (message : Message) :
  getDIDCommProtocol getMessageType protocols PROBLEM_REPORT
    = ok DCReportProblemProtocolV2 ->
  let reported (comment : string) :=
    annotate getMessageType protocols uuid message
    = ok (addMetaData message
            (ReturnRouteResponse uuid
               {| id := uuid; mtype := PROBLEM_REPORT; from := msg_to message;
                  to := [msg_from message]; thid := None;
                  pthid := Some (JS.or_else (threadId message) (msg_id message));
                  body := Some (BodyProblemReport "internal_error" (Some comment)
                                  None None) |}
               PLAIN)) in
  (forall mt,
     getMessageType (msg_type message) = ok mt ->
     protocols !! (piuri mt +:+ "/" +:+ version mt) = None ->
     reported ("No protocol handler found for message type: " +:+ msg_type message)) /\
  (forall text,
     getMessageType (msg_type message) = throw (PlainError text) -> reported text).
Proof.
  intros Hrp. cbv zeta. split.
  - intros mt Hmt Hnone. unfold annotate, dispatch, getDIDCommProtocol at 1.
    rewrite Hmt. cbn [bind ok]. rewrite Hnone. cbn [throw fold_left].
    unfold problemReport. rewrite Hrp. reflexivity.
  - intros text Hmt. unfold annotate, dispatch, getDIDCommProtocol at 1.
    rewrite Hmt. cbn [bind throw fold_left].
    unfold problemReport. rewrite Hrp. reflexivity.
Qed.

End Facts.

(** A text without an opening brace has no placeholder. *)
Fixpoint no_brace (s : string) : bool :=
  match s with
  | EmptyString => true
  | String c s' => negb (Ascii.eqb c "{") && no_brace s'
  end.

Lemma no_brace_no_placeholder (s : string) :
  no_brace s = true -> ~ ReportProblem.has_placeholder s.
Proof.
  intros Hs (pre & ds & post & -> & _). revert Hs.
  induction pre as [|c pre IH].
  - rewrite ReportProblemFacts.app_empty_l. by rewrite ReportProblemFacts.app_String.
  - rewrite ReportProblemFacts.app_String. cbn [no_brace].
    intros [_ Hs]%andb_true_iff. by apply IH.
Qed.

Lemma app_empty_r (s : string) : s +:+ "" = s.
Proof.
  induction s as [|c s IH]; [done|]. by rewrite ReportProblemFacts.app_String, IH.
Qed.

Lemma processComment_two (p0 p1 p2 a1 a2 : string) :
  no_brace p0 = true -> no_brace p1 = true -> no_brace p2 = true ->
  ReportProblem._processComment
    (p0 +:+ "{" +:+ "1" +:+ "}" +:+ p1 +:+ "{" +:+ "2" +:+ "}" +:+ p2)
    (Some [a1; a2])
  = p0 +:+ a1 +:+ p1 +:+ a2 +:+ p2.
Proof.
  intros H0 H1 H2. cbn [ReportProblem._processComment].
  rewrite (ReportProblemFacts.replace_placeholders_occurrence _ "1" _ eq_refl
             ltac:(discriminate) (String.length p0) p0 ltac:(lia)).
  rewrite (ReportProblemFacts.replace_placeholders_occurrence _ "2" _ eq_refl
             ltac:(discriminate) (String.length p1) p1 ltac:(lia)).
  rewrite !(ReportProblemFacts.replace_placeholders_none _ _ _ (Nat.le_refl _))
    by (by apply no_brace_no_placeholder).
  reflexivity.
Qed.

(** X19. A problem report read by its receiver.  The report that
    [createMessage] builds for an error carries the correlation
    identifier in the header [pthid] only: it has no [thid] and its body
    has no [pthid], so the [ErrorReport] that the receiving handler decodes
    from the body has the error's code and no [pthid]; its comment is the
    error text with the numbered placeholders replaced by the error's
    arguments.  For the three errors of didcomm-utils.ts the decoded
    comment is the full sentence with message type and field, role or type
    filled in. *)
Theorem problem_report_decoded
    (uuid : string) (from to : option string) (p ecode emsg : string)
    (eargs : option (list string)) (mt : IDIDCommMessageType) :
  ecode <> EmptyString -> emsg <> EmptyString ->
  (exists report,
     ReportProblem_createMessage uuid
       (ProblemReportArgs {| rp_from := from; rp_to := to; rp_pthid := p;
                             rp_code := ecode; rp_comment := Some emsg;
                             rp_args := eargs; rp_escalate_to := None |})
     = ok report /\
     thid report = None /\ pthid report = Some p /\
     ReportProblem_handle mt (received report)
     = ([DecodedErrorReport ecode None
           (Some (ReportProblem._processComment emsg eargs)) None],
        ok None)) /\
  (forall full name,
     ReportProblem._processComment
       "invalid_argument:  Protocol Message {1} received without {2} set"
       (Some [full; name])
     = "invalid_argument:  Protocol Message " +:+ full +:+ " received without "
       +:+ name +:+ " set") /\
  (forall full role,
     ReportProblem._processComment
       "invalid_role:  Protocol Message {1} received by agent without required role {2}"
       (Some [full; role])
     = "invalid_role:  Protocol Message " +:+ full
       +:+ " received by agent without required role " +:+ role) /\
  (forall full type,
     ReportProblem._processComment
       "unsupported_message_type: Protocol Message {1} of type {2} is not supported"
       (Some [full; type])
     = "unsupported_message_type: Protocol Message " +:+ full +:+ " of type "
       +:+ type +:+ " is not supported").
Proof.
  intros Hcode Hmsg. split; [|split; [|split]].
  - eexists. split; [reflexivity|]. split; [reflexivity|]. split; [reflexivity|].
    unfold ReportProblem_handle, received, get_data. cbn.
    unfold assertMessageFieldDefined. rewrite GuardianFacts.truthy_string_ne by done.
    by rewrite GuardianFacts.truthy_string_ne.
  - intros full name.
    exact (processComment_two "invalid_argument:  Protocol Message "
             " received without " " set" full name eq_refl eq_refl eq_refl).
  - intros full role.
    etrans; [exact (processComment_two "invalid_role:  Protocol Message "
                      " received by agent without required role " "" full role
                      eq_refl eq_refl eq_refl)|].
    by rewrite app_empty_r.
  - intros full type.
    exact (processComment_two "unsupported_message_type: Protocol Message "
             " of type " " is not supported" full type eq_refl eq_refl eq_refl).
Qed.

(** A message whose type is not a type URI, received by the wallet agent. *)
Lemma unknown_type_is_reported_witness :
  exists report,
    annotate Reference.getMessageType (Reference.protocols Reference.wallet_agent) "u9"
      (Reference.message "hello" (Some "did:web:alice") (Some "did:web:guardian")
         None None)
    = ok (addMetaData
            (Reference.message "hello" (Some "did:web:alice") (Some "did:web:guardian")
               None None)
            (ReturnRouteResponse "u9" report PLAIN)) /\
    to report = [Some "did:web:alice"] /\ pthid report = Some "m1" /\
    body report = Some (BodyProblemReport "internal_error"
                          (Some "Invalid DIDComm message type: hello") None None).
Proof.
  eexists. split.
  - exact (proj2 (unknown_type_is_reported Reference.getMessageType
                    (Reference.protocols Reference.wallet_agent) "u9"
                    (Reference.message "hello" (Some "did:web:alice")
                       (Some "did:web:guardian") None None) eq_refl)
             "Invalid DIDComm message type: hello" eq_refl).
  - repeat split.
Defined.

(** The report for a failed role check, as its receiver decodes it. *)
Lemma problem_report_decoded_witness :
  exists report,
    ReportProblem_createMessage "u9"
      (ProblemReportArgs
         {| rp_from := Some "did:web:guardian"; rp_to := Some "did:web:alice";
            rp_pthid := "m9"; rp_code := "invalid_role";
            rp_comment := Some
              "invalid_role:  Protocol Message {1} received by agent without required role {2}";
            rp_args := Some ["https://coralstack.com/coralkm/0.1/guardian-remove";
                             "guardian"];
            rp_escalate_to := None |})
    = ok report /\
    ReportProblem_handle
      {| piuri := "https://didcomm.org/report-problem"; version := "2.0";
         type := "problem-report" |} (received report)
    = ([DecodedErrorReport "invalid_role" None
          (Some "invalid_role:  Protocol Message https://coralstack.com/coralkm/0.1/guardian-remove received by agent without required role guardian")
          None],
       ok None).
Proof.
  destruct (problem_report_decoded "u9" (Some "did:web:guardian") (Some "did:web:alice")
              "m9" "invalid_role"
              "invalid_role:  Protocol Message {1} received by agent without required role {2}"
              (Some ["https://coralstack.com/coralkm/0.1/guardian-remove"; "guardian"])
              {| piuri := "https://didcomm.org/report-problem"; version := "2.0";
                 type := "problem-report" |}
              ltac:(discriminate) ltac:(discriminate))
    as [(report & Hc & _ & _ & Hh) (_ & Hrole & _)].
  exists report. split; [exact Hc|]. rewrite Hh, Hrole. reflexivity.
Defined.

End EngineExtras.

(** ** The wallet: guardians and backup, further properties *)

Module WalletExtras.
Import DIDComm Wallet WalletGuardians.

Lemma set_is_guardian_spec (channels : list IChannel) (did : string) (b : bool)
    (channels' : list IChannel) :
  set_is_guardian channels did b = Some channels' ->
  exists i channel,
    channels !! i = Some channel /\ channel_id channel = did /\
    (forall j c, (j < i)%nat -> channels !! j = Some c -> channel_id c <> did) /\
    channels' = <[i := {| channel_id := did;
                          supports_guardian := supports_guardian channel;
                          is_guardian := b |}]> channels.
Proof.
  revert channels'. induction channels as [|c rest IH]; intros channels'; cbn;
    [done|].
  destruct (String.eqb (channel_id c) did) eqn:Hid.
  - apply String.eqb_eq in Hid. intros [= <-].
    exists 0%nat, c. repeat split; try done.
    + intros j c' Hj. lia.
    + by rewrite Hid.
  - apply String.eqb_neq in Hid.
    destruct (set_is_guardian rest did b) as [rest'|] eqn:Hrest; [|done].
    cbn. intros [= <-].
    destruct (IH rest' eq_refl) as (i & channel & Hi & Hc & Hbefore & ->).
    exists (S i), channel. repeat split; try done.
    intros [|j] c' Hj; cbn.
    + by intros [= <-].
    + apply Hbefore. lia.
Qed.

Lemma set_is_guardian_missing (channels : list IChannel) (did : string) (b : bool) :
  set_is_guardian channels did b = None <->
  Forall (fun c => channel_id c <> did) channels.
Proof.
  induction channels as [|c rest IH]; cbn.
  - split; [constructor|done].
  - destruct (String.eqb (channel_id c) did) eqn:Hid.
    + apply String.eqb_eq in Hid. split; [done|].
      intros Hall. apply Forall_cons in Hall as [Hc _]. done.
    + apply String.eqb_neq in Hid. rewrite Forall_cons, <- IH.
      destruct (set_is_guardian rest did b); cbn; split; try done.
      by intros [_ ?].
Qed.

Lemma guardians_insert (l : list IChannel) (i : nat) (c c' : IChannel) :
  l !! i = Some c ->
  (Z.of_nat (length (WalletFacts.guardians (<[i := c']> l)))
   = Z.of_nat (length (WalletFacts.guardians l))
     - Z.b2z (is_guardian c) + Z.b2z (is_guardian c'))%Z.
Proof.
  unfold WalletFacts.guardians.
  revert i. induction l as [|x l IH]; intros i; [done|].
  destruct i as [|i]; cbn [lookup list_lookup insert list_insert].
  - intros [= ->]. rewrite !filter_cons.
    destruct (is_guardian c), (is_guardian c');
      repeat case_decide; try done; cbn [length Z.b2z]; lia.
  - intros Hi. change (l !! i = Some c) in Hi. rewrite !filter_cons.
    specialize (IH i Hi). change (list_insert i c' l) with (<[i := c']> l).
    destruct (decide (is_guardian x = true)); cbn [length]; [|exact IH].
    rewrite !Nat2Z.inj_succ. apply (f_equal Z.succ) in IH.
    etrans; [exact IH|]. lia.
Qed.

Section Facts.
Context {W : WebPlatform}.



(** X22. Backup and restore.  Let the backup be the envelope that
    [syncWallet] seals with the wallet key for the wallet's namespace, the
    serialisation of a payload that [JSON.parse] reads back, with AES-GCM
    decrypting what it encrypted.  A recovery whose shares combine to the
    wallet key restores, when its namespace has the AAD bytes of the
    wallet's namespace and the key can be exported, the exported wallet
    key and the value that [JSON.parse] reads from the text [TextDecoder]
    decodes from the bytes of the serialised backup data, or that text if
    it is not JSON; this is exactly the backup data when the serialised
    text is decoded unchanged, as every ASCII text is, and the backup data
    survive a JSON round trip.  When the AAD bytes differ [_restoreWallet]
    throws and restores nothing. *)
Theorem backup_restored_with_wallet_key
    (iv : Base64.bytes) (w : Wallet) (backupData : json) (current : Recovery)
    (encrypted : string) :
  let aad := EncryptionManager.aadBytes (namespace_json (_namespace w)) in
  let aad' := EncryptionManager.aadBytes (namespace_json (recovery_namespace current)) in
  let pt := EncryptionManager.utf8_encode (EncryptionManager.plaintext_json backupData) in
  let text := EncryptionManager.utf8_decode pt in
  let ct := aes_gcm_encrypt (_walletKey w) iv (Some aad) pt in
  let sent := EncryptionManager.payload (Base64.base64url iv) (Base64.base64url ct)
                (Some (Base64.base64url aad)) in
  let restored := fun data =>
    exported ← EncryptionManagerKeys.exportDEK (_walletKey w);
    Some {| restored_key := exported; restored_data := data;
            restored_namespace := recovery_namespace current |} in
  syncWallet_encrypted iv w backupData = Some encrypted ->
  JSON_parse (JSON_stringify sent) = Some sent ->
  aad <> [] ->
  aes_gcm_decrypt (_walletKey w) iv (Some aad) ct = Some pt ->
  EncryptionManager.combineDEK (recovery_shares current) = Some (_walletKey w) ->
  (aad' = aad ->
   _restoreWallet encrypted current
   = restored (match JSON_parse text with
               | Some v => v
               | None => JStr text
               end) /\
   (EncryptionFacts.is_ascii (EncryptionManager.plaintext_json backupData) = true ->
    text = EncryptionManager.plaintext_json backupData) /\
   (text = EncryptionManager.plaintext_json backupData ->
    JSON_parse (EncryptionManager.plaintext_json backupData) = Some backupData ->
    _restoreWallet encrypted current = restored backupData)) /\
  (aad' <> aad -> _restoreWallet encrypted current = None).
Proof.
  intros aad aad' pt text ct sent restored Hsealed Hparse Hne Hgcm Hkey.
  apply EncryptionFacts.encrypt_Some in Hsealed.
  change (encrypted = JSON_stringify sent) in Hsealed.
  rewrite <- Hsealed in Hparse.
  assert (Hchecks :
    EncryptionManager.decrypt_checks encrypted
      (Some (namespace_json (recovery_namespace current)))
    = if EncryptionManager.equals aad' aad then inr (iv, ct, Some aad')
      else inl EncryptionManager.AadContextMismatch).
  { apply (EncryptionFacts.decrypt_checks_encrypt iv ct (Some aad) encrypted
             (Some (namespace_json (recovery_namespace current))) Hparse).
    intros [= Heq]. by apply Hne. }
  unfold _restoreWallet, restored, EncryptionManagerKeys.exportDEK. rewrite Hkey.
  destruct (EncryptionManager.toBase64Url (exportKey_raw (_walletKey w)))
    as [exported|]; cbn [mbind option_bind].
  2:{ split; [|done]. intros _. split; [done|].
      split; [apply EncryptionFacts.ascii_survives_utf8|done]. }
  unfold EncryptionManager.decrypt. rewrite Hchecks. split.
  - intros Heq. rewrite Heq, EncryptionFacts.equals_refl, Hgcm. fold text.
    split; [by destruct (JSON_parse text)|].
    split; [apply EncryptionFacts.ascii_survives_utf8|].
    intros Htext Hjson. by rewrite Htext, Hjson.
  - intros Hdiff. destruct (EncryptionManager.equals aad' aad) eqn:Heq; [|done].
    apply EncryptionFacts.equals_spec in Heq. done.
Qed.

End Facts.



(** A backup of the reference wallet, sealed for NS1, is restored by a
    recovery for NS1 whose shares are those of a split of the wallet
    key. *)
Lemma backup_restored_with_wallet_key_witness :
  let w := ReferenceWeb.wallet ReferenceWeb.gateway_then_two_guardians None in
  let current :=
    {| recovery_id := "R1"; recovery_namespace := Reference.NS1;
       recovery_shares :=
         default [] (EncryptionManager.splitDEK (W := ReferenceWeb.platform)
                       (_walletKey w) 2 2) |} in
  syncWallet_encrypted (W := ReferenceWeb.platform) EncryptionFacts.iv12 w
    EncryptionFacts.backup = Some EncryptionFacts.sealed_backup /\
  restored_data <$>
    _restoreWallet (W := ReferenceWeb.platform) EncryptionFacts.sealed_backup current
  = Some EncryptionFacts.backup.
Proof.
  cbv zeta. split; [reflexivity|].
  destruct (backup_restored_with_wallet_key (W := ReferenceWeb.platform)
              EncryptionFacts.iv12
              (ReferenceWeb.wallet ReferenceWeb.gateway_then_two_guardians None)
              EncryptionFacts.backup
              {| recovery_id := "R1"; recovery_namespace := Reference.NS1;
                 recovery_shares :=
                   default [] (EncryptionManager.splitDEK (W := ReferenceWeb.platform)
                                 (_walletKey (ReferenceWeb.wallet
                                    ReferenceWeb.gateway_then_two_guardians None)) 2 2) |}
              EncryptionFacts.sealed_backup)
    as [Hsame _].
  - reflexivity.
  - reflexivity.
  - vm_compute. discriminate.
  - reflexivity.
  - reflexivity.
  - destruct (Hsame eq_refl) as (_ & Hascii & Hdata).
    by rewrite (Hdata (Hascii eq_refl) eq_refl).
Defined.

End WalletExtras.

(** ** WebSocketConnection: every invoke is settled at most once, by a
       reply in its thread; the endpoint that is chosen *)

Module WebSocketExtras.
Import DIDComm WebSocketConnection.

Lemma send_settles_nothing (c : Connection) (message : IDIDCommMessage)
    (effects : list Effect) :
  send c message = inl effects -> omap settlement effects = [].
Proof.
  unfold send. destruct (isOpen c); [|done].
  destruct (bool_decide _).
  - destruct (_clientDID c) as [clientDID|]; [|done].
    destruct (JS.truthy_string clientDID); [|done].
    cbn. intros [= <-]. by destruct (onMessage c).
  - cbn. intros [= <-]. by destruct (onMessage c).
Qed.

Section Facts.
Context {W : WebPlatform}.

(** A message event settles nothing and leaves the handlers as they
    are, or settles the one handler stored under its thread identifier
    and deletes it. *)
Lemma onmessage_spec (c : Connection) (response : IMessage) :
  let '(effects, c', _) := onmessage c response in
  (omap settlement effects = [] /\ c' = c) \/
  (exists threadId handler,
     im_threadId response = Some threadId /\
     _replyHandlers c !! threadId = Some handler /\
     omap settlement effects = [(handler, _reconstructDIDCommMessage response)] /\
     c' = with_replyHandlers c (delete threadId (_replyHandlers c))).
Proof.
  destruct (onmessage c response) as [[effects c'] b] eqn:Hrun.
  unfold onmessage in Hrun.
  destruct (getDIDCommDecodedMessage response) as [parsed|];
    [|injection Hrun as <- <- <-; by left].
  destruct (im_threadId response) as [threadId|] eqn:Hthread.
  2:{ left. repeat case_match; simplify_eq/=; by rewrite ?omap_app. }
  destruct (JS.truthy_string threadId).
  2:{ left. repeat case_match; simplify_eq/=; by rewrite ?omap_app. }
  destruct (_replyHandlers c !! threadId) as [handler|] eqn:Hhandler.
  2:{ left. repeat case_match; simplify_eq/=; by rewrite ?omap_app. }
  cbn [fmap option_fmap option_map] in Hrun.
  destruct (String.eqb (im_type response) DIDCommEngine.PROBLEM_REPORT).
  - destruct (decoded_or_routingDID parsed response) as [problemReport|];
      [|injection Hrun as <- <- <-; by left].
    right. exists threadId, handler.
    repeat case_match; simplify_eq/=; by rewrite ?omap_app.
  - right. exists threadId, handler.
    repeat case_match; simplify_eq/=; by rewrite ?omap_app.
Qed.

(** The handlers of a connection on which [next] calls of [invoke]
    were made with the messages [prefix]: each holds the promise of a
    call made with a message of that identifier, and no promise is held
    twice. *)
Definition handlers_of (prefix : list IDIDCommMessage) (handlers : gmap string Promise)
    : Prop :=
  (forall k p, handlers !! k = Some p ->
     exists message, prefix !! p = Some message /\ id message = k) /\
  (forall k1 k2 p, handlers !! k1 = Some p -> handlers !! k2 = Some p -> k1 = k2).

Lemma run_settlements (events : list Event) :
  forall (c : Connection) (prefix : list IDIDCommMessage),
    handlers_of prefix (_replyHandlers c) ->
    let settlements := omap settlement (run c (length prefix) events) in
    NoDup settlements.*1 /\
    forall p m, (p, m) ∈ settlements ->
      ((exists k, _replyHandlers c !! k = Some p) \/ length prefix <= p) /\
      exists message,
        ((prefix ++ invoked events)%list) !! p = Some message /\
        rm_thid m = Some (id message).
Proof.
  induction events as [|event events IH]; intros c prefix [Hheld Hinj]; cbv zeta.
  { cbn. split; [constructor|]. intros p m Hin. by apply elem_of_nil in Hin. }
  destruct event as [message|response]; cbn [run].
  - (* a call of invoke *)
    unfold invoke. destruct (send c message) as [effects|e] eqn:Hsend;
      unfold ok, throw; cbv beta iota zeta.
    + rewrite omap_app, (send_settles_nothing _ _ _ Hsend), app_nil_l.
      specialize (IH (with_replyHandlers c
                        (<[id message := length prefix]> (_replyHandlers c)))
                     (prefix ++ [message])%list).
      rewrite length_app, Nat.add_1_r in IH. cbv zeta in IH.
      destruct IH as [Hnd Hin].
      { split.
        - intros k p. cbn. destruct (decide (k = id message)) as [->|Hne].
          + rewrite lookup_insert_eq. intros [= <-]. exists message.
            by rewrite lookup_app_r, Nat.sub_diag.
          + rewrite lookup_insert_ne by done. intros Hk.
            destruct (Hheld k p Hk) as (message' & Hp & Hid).
            exists message'. split; [|done]. by apply lookup_app_l_Some.
        - intros k1 k2 p. cbn.
          destruct (decide (k1 = id message)) as [->|Hne1],
                   (decide (k2 = id message)) as [->|Hne2]; [done| | |].
          + rewrite lookup_insert_eq, lookup_insert_ne by done. intros [= <-] Hk.
            destruct (Hheld k2 _ Hk) as (message' & Hp & _).
            apply lookup_lt_Some in Hp. lia.
          + rewrite lookup_insert_eq, lookup_insert_ne by done. intros Hk [= <-].
            destruct (Hheld k1 _ Hk) as (message' & Hp & _).
            apply lookup_lt_Some in Hp. lia.
          + rewrite !lookup_insert_ne by done. apply Hinj. }
      split; [exact Hnd|]. intros p m Hpm.
      destruct (Hin p m Hpm) as [Hwhere (message' & Hp & Hthid)]. split.
      * destruct Hwhere as [[k Hk]|Hge]; [|right; lia]. cbn in Hk.
        destruct (decide (k = id message)) as [->|Hne].
        -- rewrite lookup_insert_eq in Hk. injection Hk as <-. by right.
        -- rewrite lookup_insert_ne in Hk by done. left. by exists k.
      * exists message'. split; [|done]. cbn [invoked omap].
        by rewrite <- app_assoc in Hp.
    + cbn [app]. specialize (IH c (prefix ++ [message])%list).
      rewrite length_app, Nat.add_1_r in IH. cbv zeta in IH.
      destruct IH as [Hnd Hin].
      { split; [|exact Hinj]. intros k p Hk.
        destruct (Hheld k p Hk) as (message' & Hp & Hid).
        exists message'. split; [|done]. by apply lookup_app_l_Some. }
      split; [exact Hnd|]. intros p m Hpm.
      destruct (Hin p m Hpm) as [Hwhere (message' & Hp & Hthid)]. split.
      * destruct Hwhere as [?|Hge]; [by left|right; lia].
      * exists message'. split; [|done]. cbn [invoked omap].
        by rewrite <- app_assoc in Hp.
  - (* a message event *)
    pose proof (onmessage_spec c response) as Hspec.
    destruct (onmessage c response) as [[effects c'] b].
    rewrite omap_app. cbn [invoked omap].
    destruct Hspec as [[-> ->]|(threadId & handler & Hthread & Hhandler & -> & ->)].
    + rewrite app_nil_l. by apply IH.
    + specialize (IH (with_replyHandlers c (delete threadId (_replyHandlers c))) prefix).
      cbv zeta in IH. destruct IH as [Hnd Hin].
      { split.
        - intros k p. cbn. intros Hk. apply lookup_delete_Some in Hk as [_ Hk].
          by apply Hheld.
        - intros k1 k2 p. cbn. intros Hk1 Hk2.
          apply lookup_delete_Some in Hk1 as [_ Hk1].
          apply lookup_delete_Some in Hk2 as [_ Hk2]. by eapply Hinj. }
      destruct (Hheld _ _ Hhandler) as (message & Hp & Hid).
      cbn [app fmap list_fmap fst]. split.
      * apply NoDup_cons. split; [|exact Hnd].
        intros Hagain. apply list_elem_of_fmap in Hagain as ([p m] & Heq & Hpm).
        cbn in Heq. subst p.
        destruct (Hin _ _ Hpm) as [[[k Hk]|Hge] _].
        -- cbn in Hk. apply lookup_delete_Some in Hk as [Hne Hk].
           apply Hne. by eapply Hinj.
        -- apply lookup_lt_Some in Hp. lia.
      * intros p m Hpm. apply elem_of_cons in Hpm as [[= -> ->]|Hpm].
        -- split; [left; by exists threadId|].
           exists message. split; [by apply lookup_app_l_Some|].
           cbn. by rewrite Hthread, Hid.
        -- destruct (Hin p m Hpm) as [Hwhere Hmsg]. split; [|exact Hmsg].
           destruct Hwhere as [[k Hk]|Hge]; [|by right].
           cbn in Hk. apply lookup_delete_Some in Hk as [_ Hk]. left. by exists k.
Qed.


End Facts.


(** X24. The endpoint of the mediator.  [_getWebSocketUrl] returns a URL
    exactly when the DID document has a service of type DIDCommMessaging
    whose endpoint, a string or the [uri] string of an object, starts
    with [ws]: it returns that of the first such service.  Its last
    error, that the endpoint is no valid WebSocket URL, is never
    raised. *)
Theorem getWebSocketUrl_first_ws_service (mediatorDID : option DIDDocument) :
  (forall url,
     _getWebSocketUrl mediatorDID = inl url <->
     exists document services i s,
       mediatorDID = Some document /\ service document = Some services /\
       services !! i = Some s /\
       service_type s = "DIDCommMessaging" /\
       endpoint_uri (serviceEndpoint s) = Some url /\
       String.prefix "ws" url = true /\
       forall j s', (j < i)%nat -> services !! j = Some s' ->
                    is_websocket_service s' = false) /\
  _getWebSocketUrl mediatorDID
  <> inr (PlainError
            "Mediator DIDCommMessaging service endpoint is not a valid WebSocket URL").
Proof.
  assert (Hfind : forall services s,
             List.find is_websocket_service services = Some s <->
             exists i, services !! i = Some s /\ is_websocket_service s = true /\
                       forall j s', (j < i)%nat -> services !! j = Some s' ->
                                    is_websocket_service s' = false).
  { induction services as [|x services IH]; intros s; cbn [List.find].
    - split; [done|]. by intros (i & Hi & _).
    - destruct (is_websocket_service x) eqn:Hx.
      + split.
        * intros [= <-]. exists 0%nat. split; [done|]. split; [done|]. lia.
        * intros (i & Hi & Hs & Hfirst). destruct i as [|i]; [by injection Hi as <-|].
          specialize (Hfirst 0%nat x ltac:(lia) eq_refl). congruence.
      + rewrite IH. split.
        * intros (i & Hi & Hs & Hfirst). exists (S i). split; [done|]. split; [done|].
          intros [|j] s' Hj Hs'; [by injection Hs' as <-|].
          apply (Hfirst j s'); [lia|done].
        * intros (i & Hi & Hs & Hfirst). destruct i as [|i]; [injection Hi as <-; congruence|].
          exists i. split; [done|]. split; [done|].
          intros j s' Hj Hs'. apply (Hfirst (S j) s'); [lia|done]. }
  assert (Hws : forall s url,
             endpoint_uri (serviceEndpoint s) = Some url ->
             is_websocket_service s = true ->
             service_type s = "DIDCommMessaging" /\ String.prefix "ws" url = true /\
             JS.truthy_string url = true).
  { intros s url Huri Hs. unfold is_websocket_service in Hs. rewrite Huri in Hs.
    apply andb_prop in Hs as [Hty Hprefix]. apply String.eqb_eq in Hty.
    split; [done|]. split; [done|]. by destruct url. }
  unfold _getWebSocketUrl. split.
  - intros url. split.
    + destruct mediatorDID as [document|]; [|done].
      destruct (service document) as [services|] eqn:Hservices; [|done].
      destruct (List.find is_websocket_service services) as [s|] eqn:Hs; [|done].
      apply Hfind in Hs as (i & Hi & Hs & Hfirst).
      destruct (endpoint_uri (serviceEndpoint s)) as [wsUrl|] eqn:Huri; [|done].
      destruct (Hws s wsUrl Huri Hs) as (Hty & Hprefix & Htruthy).
      rewrite Htruthy. intros [= <-]. by exists document, services, i, s.
    + intros (document & services & i & s & -> & -> & Hi & Hty & Huri & Hprefix & Hfirst).
      assert (Hs : is_websocket_service s = true).
      { unfold is_websocket_service. rewrite Huri, Hprefix, Hty. done. }
      rewrite (proj2 (Hfind services s)) by (by exists i).
      rewrite Huri. by destruct (Hws s url Huri Hs) as (_ & _ & ->).
  - destruct mediatorDID as [document|]; [|done].
    destruct (service document) as [services|]; [|done].
    destruct (List.find is_websocket_service services) as [s|] eqn:Hs; [|done].
    apply Hfind in Hs as (i & Hi & Hs & Hfirst).
    destruct (endpoint_uri (serviceEndpoint s)) as [wsUrl|] eqn:Huri.
    + by destruct (Hws s wsUrl Huri Hs) as (_ & _ & ->).
    + unfold is_websocket_service in Hs. rewrite Huri in Hs.
      by rewrite andb_false_r in Hs.
Qed.

End WebSocketExtras.
(** ** [getMessageType]: the message types it accepts, and how it splits
       them *)

Module RegExpFacts.
Import JSRegExp.

(** What a matcher may do: from the input [s] with the captures [c] to
    the input [s'] with the captures [c']. *)
Definition step_relation := list ascii -> captures -> list ascii -> captures -> Prop.

Inductive star_rel (R : step_relation) : step_relation :=
| star_stop s c : star_rel R s c s c
| star_more s c s1 c1 s2 c2 :
    R s c s1 c1 -> length s1 <> length s -> star_rel R s1 c1 s2 c2 ->
    star_rel R s c s2 c2.

Section Semantics.
Variable input_length : nat.

(** All the ways an expression can match, whatever their order. *)
Fixpoint Match (r : regex) : step_relation :=
  fun s c s' c' =>
    match r with
    | Chr ch =>
        exists x, s = x :: s' /\ canonicalize x = canonicalize ch /\ c' = c
    | Class invert members =>
        exists x, s = x :: s' /\ class_matches invert members x = true /\ c' = c
    | Seq r1 r2 => exists s1 c1, Match r1 s c s1 c1 /\ Match r2 s1 c1 s' c'
    | Star r => star_rel (Match r) s c s' c'
    | Plus r => exists s1 c1, Match r s c s1 c1 /\ star_rel (Match r) s1 c1 s' c'
    | Opt r => (Match r s c s' c' /\ length s' <> length s) \/ (s' = s /\ c' = c)
    | NegLookahead r => s' = s /\ c' = c /\ ~ exists s1 c1, Match r s c s1 c1
    | Group name r => exists c1, Match r s c s' c1 /\ c' = (name, consumed s s') :: c1
    | Bol => s' = s /\ c' = c /\ length s = input_length
    | Eol => s = [] /\ s' = [] /\ c' = c
    end.

Lemma star_rel_suffix (R : step_relation) :
  (forall s c s' c', R s c s' c' -> exists pre, s = (pre ++ s')%list) ->
  forall s c s' c', star_rel R s c s' c' -> exists pre, s = (pre ++ s')%list.
Proof.
  intros HR s c s' c' Hstar. induction Hstar as [s c|s c s1 c1 s2 c2 H1 _ _ IH].
  - by exists [].
  - destruct (HR _ _ _ _ H1) as [pre1 ->]. destruct IH as [pre2 ->].
    exists (pre1 ++ pre2)%list. by rewrite <- app_assoc.
Qed.

Lemma Match_suffix (r : regex) :
  forall s c s' c', Match r s c s' c' -> exists pre, s = (pre ++ s')%list.
Proof.
  induction r as [ch|invert members|r1 IH1 r2 IH2|r IH|r IH|r IH|r IH|name r IH| |];
    intros s c s' c'; cbn [Match].
  - intros (x & -> & _). by exists [x].
  - intros (x & -> & _). by exists [x].
  - intros (s1 & c1 & H1 & H2).
    destruct (IH1 _ _ _ _ H1) as [pre1 ->]. destruct (IH2 _ _ _ _ H2) as [pre2 ->].
    exists (pre1 ++ pre2)%list. by rewrite <- app_assoc.
  - by apply star_rel_suffix.
  - intros (s1 & c1 & H1 & H2). destruct (IH _ _ _ _ H1) as [pre1 ->].
    destruct (star_rel_suffix _ IH _ _ _ _ H2) as [pre2 ->].
    exists (pre1 ++ pre2)%list. by rewrite <- app_assoc.
  - intros [[H _]|[-> _]]; [by eapply IH|by exists []].
  - intros (-> & _). by exists [].
  - intros (c1 & H & _). by eapply IH.
  - intros (-> & _). by exists [].
  - intros (-> & -> & _). by exists [].
Qed.

(** The matcher finds a match that exists, and only matches that
    exist. *)
Definition sound (m : matcher) (R : step_relation) : Prop :=
  forall s c k result,
    m s c k = Some result -> exists s' c', R s c s' c' /\ k s' c' = Some result.

Definition complete (m : matcher) (R : step_relation) : Prop :=
  forall s c s' c' k result,
    R s c s' c' -> k s' c' = Some result -> exists result', m s c k = Some result'.

Lemma repeat_matcher_sound (m : matcher) (R : step_relation) :
  sound m R -> forall fuel, sound (repeat_matcher m fuel) (star_rel R).
Proof.
  intros Hm fuel. induction fuel as [|fuel IH]; intros s c k result; cbn; [done|].
  destruct (m s c _) as [result'|] eqn:Hstep.
  - intros [= ->]. apply Hm in Hstep as (s1 & c1 & H1 & Hk).
    destruct (Nat.eqb_spec (length s1) (length s)) as [|Hne]; [done|].
    apply IH in Hk as (s2 & c2 & H2 & Hk).
    exists s2, c2. split; [|done]. by eapply star_more.
  - intros Hk. exists s, c. split; [constructor|done].
Qed.

Lemma repeat_matcher_complete (m : matcher) (R : step_relation) :
  (forall s c s' c', R s c s' c' -> exists pre, s = (pre ++ s')%list) ->
  complete m R ->
  forall s c s' c' k result fuel,
    star_rel R s c s' c' -> k s' c' = Some result -> (length s < fuel)%nat ->
    exists result', repeat_matcher m fuel s c k = Some result'.
Proof.
  intros Hsuffix Hm s c s' c' k result fuel Hstar. revert fuel.
  induction Hstar as [s c|s c s1 c1 s2 c2 H1 Hne _ IH]; intros fuel Hk Hfuel.
  - destruct fuel as [|fuel]; [lia|]. cbn.
    destruct (m s c _) as [result'|]; [by eexists|by exists result].
  - destruct fuel as [|fuel]; [lia|]. cbn.
    destruct (Hsuffix _ _ _ _ H1) as [pre Hpre].
    assert (length s1 < length s)%nat as Hlt.
    { rewrite Hpre, length_app in *. lia. }
    destruct (IH fuel Hk ltac:(lia)) as [result1 Hresult1].
    destruct (Hm s c s1 c1
                (fun s' caps' =>
                   if (length s' =? length s)%nat then None
                   else repeat_matcher m fuel s' caps' k) result1 H1) as [result2 ->].
    + destruct (Nat.eqb_spec (length s1) (length s)); [lia|done].
    + by eexists.
Qed.

Lemma matches_correct (r : regex) :
  sound (matches input_length r) (Match r) /\ complete (matches input_length r) (Match r).
Proof.
  induction r as [ch|invert members|r1 [IHs1 IHc1] r2 [IHs2 IHc2]|r [IHs IHc]
                 |r [IHs IHc]|r [IHs IHc]|r [IHs IHc]|name r [IHs IHc]| |]; split.
  - intros [|x s] c k result; cbn; [done|].
    destruct (Ascii.eqb_spec (canonicalize x) (canonicalize ch)); [|done].
    intros Hk. exists s, c. split; [by exists x|done].
  - intros s c s' c' k result (x & -> & Hx & ->) Hk. cbn.
    rewrite (proj2 (Ascii.eqb_eq _ _) Hx). by eexists.
  - intros [|x s] c k result; cbn; [done|].
    destruct (class_matches invert members x) eqn:Hx; [|done].
    intros Hk. exists s, c. split; [by exists x|done].
  - intros s c s' c' k result (x & -> & Hx & ->) Hk. cbn. rewrite Hx. by eexists.
  - intros s c k result. cbn. intros H.
    apply IHs1 in H as (s1 & c1 & H1 & H). apply IHs2 in H as (s2 & c2 & H2 & Hk).
    exists s2, c2. split; [by exists s1, c1|done].
  - intros s c s' c' k result (s1 & c1 & H1 & H2) Hk. cbn.
    destruct (IHc2 _ _ _ _ k result H2 Hk) as [result2 Hresult2].
    by apply (IHc1 _ _ _ _ _ result2 H1).
  - intros s c k result. cbn [matches]. by apply repeat_matcher_sound.
  - intros s c s' c' k result Hstar Hk. cbn [matches].
    eapply repeat_matcher_complete; eauto using Match_suffix.
  - intros s c k result. cbn [matches]. intros H.
    apply IHs in H as (s1 & c1 & H1 & H).
    apply (repeat_matcher_sound _ _ IHs) in H as (s2 & c2 & H2 & Hk).
    exists s2, c2. split; [by exists s1, c1|done].
  - intros s c s' c' k result (s1 & c1 & H1 & Hstar) Hk. cbn [matches].
    destruct (repeat_matcher_complete _ _ (Match_suffix r) IHc _ _ _ _ k result
                (S (length s1)) Hstar Hk ltac:(lia)) as [result1 Hresult1].
    by apply (IHc _ _ _ _ _ result1 H1).
  - intros s c k result. cbn [matches].
    destruct (matches input_length r s c _) as [result'|] eqn:Hstep.
    + intros [= ->]. apply IHs in Hstep as (s1 & c1 & H1 & Hk).
      destruct (Nat.eqb_spec (length s1) (length s)) as [|Hne]; [done|].
      exists s1, c1. split; [by left|done].
    + intros Hk. exists s, c. split; [by right|done].
  - intros s c s' c' k result [[H Hne]|[-> ->]] Hk; cbn [matches].
    + destruct (IHc s c s' c'
                  (fun s1 caps' =>
                     if (length s1 =? length s)%nat then None else k s1 caps')
                  result H) as [result' ->].
      * destruct (Nat.eqb_spec (length s') (length s)); [done|done].
      * by eexists.
    + destruct (matches input_length r s c _); by eexists.
  - intros s c k result. cbn [matches].
    destruct (matches input_length r s c _) as [result'|] eqn:Hstep; [done|].
    intros Hk. exists s, c. split; [|done]. split; [done|]. split; [done|].
    intros (s1 & c1 & H1).
    destruct (IHc s c s1 c1 (fun _ caps' => Some caps') c1 H1 eq_refl) as [? Hsome].
    congruence.
  - intros s c s' c' k result (-> & -> & Hnot) Hk. cbn [matches].
    destruct (matches input_length r s c _) as [result'|] eqn:Hstep; [|by eexists].
    apply IHs in Hstep as (s1 & c1 & H1 & _). destruct Hnot. by exists s1, c1.
  - intros s c k result. cbn [matches]. intros H.
    apply IHs in H as (s1 & c1 & H1 & Hk).
    exists s1, ((name, consumed s s1) :: c1). split; [by exists c1|done].
  - intros s c s' c' k result (c1 & H1 & ->) Hk. cbn [matches].
    by apply (IHc _ _ _ _ _ result H1).
  - intros s c k result. cbn.
    destruct (Nat.eqb_spec (length s) input_length); [|done].
    intros Hk. by exists s, c.
  - intros s c s' c' k result (-> & -> & Hlen) Hk. cbn.
    rewrite (proj2 (Nat.eqb_eq _ _) Hlen). by eexists.
  - intros [|x s] c k result; cbn; [|done]. intros Hk. by exists [], c.
  - intros s c s' c' k result (-> & -> & ->) Hk. cbn. by eexists.
Qed.

(** A class, once or more: any non-empty run of characters of the
    class. *)
Lemma star_class (invert : bool) (members : list ascii) s c s' c' :
  star_rel (Match (Class invert members)) s c s' c' <->
  c' = c /\ exists pre, Forall (fun x => class_matches invert members x = true) pre /\
                       s = (pre ++ s')%list.
Proof.
  split.
  - intros Hstar. induction Hstar as [s c|s c s1 c1 s2 c2 H1 _ _ IH].
    + split; [done|]. by exists [].
    + destruct H1 as (x & -> & Hx & ->). destruct IH as (-> & pre & Hpre & ->).
      split; [done|]. exists (x :: pre). split; [by constructor|done].
  - intros (-> & pre & Hpre & ->). induction Hpre as [|x pre Hx _ IH]; [constructor|].
    apply (star_more _ (x :: pre ++ s')%list c (pre ++ s')%list c s' c);
      [by exists x| |exact IH].
    cbn [length]. lia.
Qed.

Lemma plus_class (invert : bool) (members : list ascii) s c s' c' :
  Match (Plus (Class invert members)) s c s' c' <->
  c' = c /\ exists pre, pre <> [] /\
                       Forall (fun x => class_matches invert members x = true) pre /\
                       s = (pre ++ s')%list.
Proof.
  cbn [Match]. split.
  - intros (s1 & c1 & (x & -> & Hx & ->) & Hstar).
    apply star_class in Hstar as (-> & pre & Hpre & ->).
    split; [done|]. exists (x :: pre). split; [done|]. split; [by constructor|done].
  - intros (-> & pre & Hne & Hpre & ->). destruct Hpre as [|x pre Hx Hpre]; [done|].
    exists (pre ++ s')%list, c. split; [by exists x|].
    apply star_class. split; [done|]. by exists pre.
Qed.

End Semantics.

End RegExpFacts.

Module MessageTypeFacts.
Import DIDComm JSRegExp RegExpFacts DIDCommUtils.

#[local] Open Scope list_scope.
#[local] Open Scope char_scope.

(** *** The texts the expression accepts *)

Definition is_digit (c : ascii) : bool :=
  (48 <=? nat_of_ascii c)%nat && (nat_of_ascii c <=? 57)%nat.

(** One or more digits. *)
Definition digits (d : list ascii) : Prop :=
  d <> [] /\ Forall (fun c => is_digit c = true) d.

(** Numbers separated by dots: 1, 2.0, 3.0.1. *)
Definition version_text (v : list ascii) : Prop :=
  exists d ds, digits d /\ Forall digits ds /\
               v = d ++ concat ((fun x => "." :: x) <$> ds).

(** A non-empty text without a slash. *)
Definition segment_text (x : list ascii) : Prop :=
  x <> [] /\ Forall (fun c => c <> "/") x.

(** http or https, in any case. *)
Definition scheme_text (x : list ascii) : Prop :=
  canonicalize <$> x = list_ascii_of_string "HTTP" \/
  canonicalize <$> x = list_ascii_of_string "HTTPS".

(** Scheme, host and one or more path segments, none of which is a
    version number. *)
Definition piuri_text (p : list ascii) : Prop :=
  exists scheme host segments,
    scheme_text scheme /\ segment_text host /\ segments <> [] /\
    Forall (fun x => segment_text x /\ ~ version_text x) segments /\
    p = scheme ++ list_ascii_of_string "://" ++ host
        ++ concat ((fun x => "/" :: x) <$> segments).

(** A non-empty text without slash, question mark or hash. *)
Definition type_text (t : list ascii) : Prop :=
  t <> [] /\ Forall (fun c => c ∉ ["/"; "?"; "#"]) t.

(** The message types that [getMessageType] returns. *)
Definition well_formed (mt : IDIDCommMessageType) : Prop :=
  piuri_text (list_ascii_of_string (piuri mt)) /\
  version_text (list_ascii_of_string (version mt)) /\
  type_text (list_ascii_of_string (type mt)).

(** *** Characters *)

Lemma chr_slash x : canonicalize x = canonicalize "/" <-> x = "/".
Proof.
  split; [|by intros ->].
  destruct x as [[] [] [] [] [] [] [] []]; vm_compute; congruence.
Qed.

Lemma chr_colon x : canonicalize x = canonicalize ":" <-> x = ":".
Proof.
  split; [|by intros ->].
  destruct x as [[] [] [] [] [] [] [] []]; vm_compute; congruence.
Qed.

Lemma chr_dot x : canonicalize x = canonicalize "." <-> x = ".".
Proof.
  split; [|by intros ->].
  destruct x as [[] [] [] [] [] [] [] []]; vm_compute; congruence.
Qed.

Lemma class_digit x : class_matches false (list_ascii_of_string "0123456789") x = is_digit x.
Proof. destruct x as [[] [] [] [] [] [] [] []]; vm_compute; reflexivity. Qed.

Lemma class_segment x : class_matches true ["/"] x = true <-> x <> "/".
Proof.
  destruct x as [[] [] [] [] [] [] [] []]; vm_compute; split; congruence.
Qed.

Lemma class_type x : class_matches true ["/"; "?"; "#"] x = true <-> x ∉ ["/"; "?"; "#"].
Proof.
  rewrite !not_elem_of_cons.
  destruct x as [[] [] [] [] [] [] [] []]; vm_compute; split;
    try congruence; try (intros _; repeat split; try congruence; apply not_elem_of_nil);
    intros (H1 & H2 & H3 & _); congruence.
Qed.

Lemma digit_no_slash x : is_digit x = true -> x <> "/" /\ x <> ".".
Proof. destruct x as [[] [] [] [] [] [] [] []]; vm_compute; split; congruence. Qed.

(** *** Splitting a text at a character *)

Lemma split_at_first (x : ascii) (a b a' b' : list ascii) :
  Forall (fun c => c <> x) a -> Forall (fun c => c <> x) a' ->
  a ++ x :: b = a' ++ x :: b' -> a = a' /\ b = b'.
Proof.
  intros Ha. revert a'. induction Ha as [|y a Hy Ha IH]; intros a' Ha' Heq.
  - destruct Ha' as [|y' a' Hy' Ha']; cbn in Heq; [by injection Heq as ->|].
    injection Heq as <- _. done.
  - destruct Ha' as [|y' a' Hy' Ha']; cbn in Heq.
    + injection Heq as -> _. done.
    + injection Heq as -> Heq. destruct (IH a' Ha' Heq) as [-> ->]. done.
Qed.

Lemma split_at_last (x : ascii) (a b a' b' : list ascii) :
  Forall (fun c => c <> x) b -> Forall (fun c => c <> x) b' ->
  a ++ x :: b = a' ++ x :: b' -> a = a' /\ b = b'.
Proof.
  intros Hb Hb' Heq. apply (f_equal reverse) in Heq.
  rewrite !reverse_app, !reverse_cons, <- !app_assoc in Heq. cbn in Heq.
  apply split_at_first in Heq as [Hb1 Ha1]; [|by apply Forall_reverse..].
  split; [by apply (inj reverse)|by apply (inj reverse)].
Qed.

Lemma digits_no_slash d : digits d -> Forall (fun c => c <> "/") d.
Proof.
  intros [_ Hd]. eapply Forall_impl; [exact Hd|].
  intros x Hx. by apply digit_no_slash.
Qed.

Lemma version_no_slash v : version_text v -> Forall (fun c => c <> "/") v.
Proof.
  intros (d & ds & Hd & Hds & ->). apply Forall_app. split; [by apply digits_no_slash|].
  induction Hds as [|x ds Hx _ IH]; [constructor|].
  cbn. constructor; [done|]. apply Forall_app. split; [by apply digits_no_slash|done].
Qed.

Lemma type_no_slash t : type_text t -> Forall (fun c => c <> "/") t.
Proof.
  intros [_ Ht]. eapply Forall_impl; [exact Ht|].
  intros x Hx ->. apply Hx. by left.
Qed.

#[local] Ltac list_eq :=
  unfold list_ascii_of_string;
  repeat first [rewrite <- app_assoc | progress cbn [app fmap list_fmap concat]].

Section Matching.
Variable input_length : nat.

#[local] Abbreviation Match := (RegExpFacts.Match input_length).

Lemma match_digits s c s' c' :
  Match (Plus digit) s c s' c' <-> c' = c /\ exists d, digits d /\ s = d ++ s'.
Proof.
  unfold digit. rewrite plus_class. split.
  - intros (-> & d & Hne & Hd & ->). split; [done|]. exists d. split; [|done].
    split; [done|]. eapply Forall_impl; [exact Hd|].
    intros x Hx. rewrite <- (class_digit x). exact Hx.
  - intros (-> & d & [Hne Hd] & ->). split; [done|]. exists d. split; [done|].
    split; [|done]. eapply Forall_impl; [exact Hd|].
    intros x Hx. cbn beta. rewrite (class_digit x). exact Hx.
Qed.

Lemma match_segment s c s' c' :
  Match segment s c s' c' <-> c' = c /\ exists x, segment_text x /\ s = x ++ s'.
Proof.
  unfold segment. rewrite plus_class. split.
  - intros (-> & x & Hne & Hx & ->). split; [done|]. exists x. split; [|done].
    split; [done|]. eapply Forall_impl; [exact Hx|].
    intros y Hy. by apply class_segment.
  - intros (-> & x & [Hne Hx] & ->). split; [done|]. exists x. split; [done|].
    split; [|done]. eapply Forall_impl; [exact Hx|].
    intros y Hy. by apply class_segment.
Qed.

Lemma match_type s c s' c' :
  Match (Plus (Class true ["/"; "?"; "#"])) s c s' c' <->
  c' = c /\ exists t, type_text t /\ s = t ++ s'.
Proof.
  rewrite plus_class. split.
  - intros (-> & t & Hne & Ht & ->). split; [done|]. exists t. split; [|done].
    split; [done|]. eapply Forall_impl; [exact Ht|].
    intros y Hy. by apply class_type.
  - intros (-> & t & [Hne Ht] & ->). split; [done|]. exists t. split; [done|].
    split; [|done]. eapply Forall_impl; [exact Ht|].
    intros y Hy. by apply class_type.
Qed.

Lemma match_more_numbers s c s' c' :
  star_rel (Match (Seq (Chr ".") (Plus digit))) s c s' c' <->
  c' = c /\ exists ds, Forall digits ds /\
                       s = concat ((fun x => "." :: x) <$> ds) ++ s'.
Proof.
  split.
  - intros Hstar. induction Hstar as [s c|s c s1 c1 s2 c2 H1 _ _ IH].
    + split; [done|]. by exists [].
    + destruct H1 as (s0 & c0 & (x & -> & Hx & ->) & Hd).
      apply chr_dot in Hx as ->.
      apply match_digits in Hd as (-> & d & Hd & ->).
      destruct IH as (-> & ds & Hds & ->). split; [done|].
      exists (d :: ds). split; [by constructor|]. cbn. by rewrite <- app_assoc.
  - intros (-> & ds & Hds & ->). induction Hds as [|d ds Hd _ IH]; [constructor|].
    cbn [fmap list_fmap concat]. rewrite <- app_assoc. cbn [app].
    apply (star_more _ _ c (concat ((fun x => "." :: x) <$> ds) ++ s') c s' c);
      [| |exact IH].
    + exists (d ++ concat ((fun x => "." :: x) <$> ds) ++ s'), c.
      split; [by exists "."|]. apply match_digits. split; [done|]. by exists d.
    + cbn [length]. rewrite (length_app d). lia.
Qed.

Lemma match_version s c s' c' :
  Match version_number s c s' c' <-> c' = c /\ exists v, version_text v /\ s = v ++ s'.
Proof.
  unfold version_number. cbn [RegExpFacts.Match]. split.
  - intros (s1 & c1 & Hd & Hmore).
    apply match_digits in Hd as (-> & d & Hd & ->).
    apply match_more_numbers in Hmore as (-> & ds & Hds & ->).
    split; [done|]. exists (d ++ concat ((fun x => "." :: x) <$> ds)).
    split; [by exists d, ds|]. by rewrite <- app_assoc.
  - intros (-> & v & (d & ds & Hd & Hds & ->) & ->).
    exists (concat ((fun x => "." :: x) <$> ds) ++ s'), c. split.
    + apply match_digits. split; [done|]. exists d. split; [done|].
      by rewrite <- app_assoc.
    + apply match_more_numbers. split; [done|]. by exists ds.
Qed.

(** The lookahead before a segment that a slash follows: it passes
    exactly when the segment is no version number. *)
Lemma lookahead_segment seg rest c :
  segment_text seg ->
  (~ exists s1 c1, Match (Seq version_number (Chr "/")) (seg ++ "/" :: rest) c s1 c1) <->
  ~ version_text seg.
Proof.
  intros [_ Hseg]. split; intros Hnot Hyes; apply Hnot; clear Hnot.
  - exists rest, c. exists ("/" :: rest), c. split; [|by exists "/"].
    apply match_version. split; [done|]. by exists seg.
  - destruct Hyes as (s1 & c1 & s0 & c0 & Hv & x & -> & Hx & _).
    apply chr_slash in Hx as ->.
    apply match_version in Hv as (_ & v & Hv & Heq).
    apply split_at_first in Heq as [-> _]; [done|done|by apply version_no_slash].
Qed.

(** The path part of the PIURI, one segment. *)
Definition path_segment : regex :=
  sequence [Chr "/"; NegLookahead (Seq version_number (Chr "/"))] segment.

Lemma match_path_segment s c rest c' :
  Match path_segment s c ("/" :: rest) c' <->
  c' = c /\ exists seg, segment_text seg /\ ~ version_text seg /\
                        s = "/" :: seg ++ "/" :: rest.
Proof.
  unfold path_segment. cbn [sequence foldr RegExpFacts.Match]. split.
  - intros (s0 & c0 & (x & -> & Hx & ->) & s1 & c1 & (-> & -> & Hnot) & Hseg).
    apply chr_slash in Hx as ->.
    apply match_segment in Hseg as (-> & seg & Hseg & ->). split; [done|].
    exists seg. split; [done|]. split; [|done]. by apply (lookahead_segment seg rest c).
  - intros (-> & seg & Hseg & Hnot & ->).
    exists (seg ++ "/" :: rest), c. split; [by exists "/"|].
    exists (seg ++ "/" :: rest), c. split.
    + split; [done|]. split; [done|]. by apply lookahead_segment.
    + apply match_segment. split; [done|]. by exists seg.
Qed.

Lemma path_starts_with_slash (segs : list (list ascii)) rest :
  exists rest', concat ((fun x => "/" :: x) <$> segs) ++ "/" :: rest = "/" :: rest'.
Proof. destruct segs as [|seg segs]; cbn; by eexists. Qed.

Lemma match_path s c rest c' :
  star_rel (Match path_segment) s c ("/" :: rest) c' <->
  c' = c /\ exists segs, Forall (fun x => segment_text x /\ ~ version_text x) segs /\
                         s = concat ((fun x => "/" :: x) <$> segs) ++ "/" :: rest.
Proof.
  split.
  - remember ("/" :: rest) as s_end eqn:Hend. intros Hstar.
    induction Hstar as [s c|s c s1 c1 s2 c2 H1 _ _ IH].
    + split; [done|]. exists []. by subst.
    + destruct (IH Hend) as (-> & segs & Hsegs & ->). subst s2.
      destruct (path_starts_with_slash segs rest) as [rest' Hrest'].
      rewrite Hrest' in H1.
      apply match_path_segment in H1 as (-> & seg & Hseg & Hnot & ->).
      split; [done|]. exists (seg :: segs). split; [by constructor|].
      cbn. rewrite <- app_assoc. by rewrite <- Hrest'.
  - intros (-> & segs & Hsegs & ->). induction Hsegs as [|seg segs [Hseg Hnot] _ IH].
    + constructor.
    + destruct (path_starts_with_slash segs rest) as [rest' Hrest'].
      cbn [fmap list_fmap concat]. rewrite <- app_assoc. cbn [app].
      apply (star_more _ _ c (concat ((fun x => "/" :: x) <$> segs) ++ "/" :: rest) c
               _ c); [| |exact IH].
      * rewrite Hrest'. apply match_path_segment. split; [done|]. by exists seg.
      * cbn [length]. rewrite (length_app seg). lia.
Qed.

Lemma scheme_chars (scheme : list ascii) :
  scheme_text scheme <->
  exists h t1 t2 p, canonicalize h = canonicalize "h" /\ canonicalize t1 = canonicalize "t" /\
    canonicalize t2 = canonicalize "t" /\ canonicalize p = canonicalize "p" /\
    (scheme = [h; t1; t2; p] \/
     exists s, canonicalize s = canonicalize "s" /\ scheme = [h; t1; t2; p; s]).
Proof.
  unfold scheme_text. split.
  - intros [Heq|Heq].
    + destruct scheme as [|h [|t1 [|t2 [|p [|? ?]]]]]; try discriminate Heq.
      injection Heq as Hh Ht1 Ht2 Hp. exists h, t1, t2, p. repeat split; try done. by left.
    + destruct scheme as [|h [|t1 [|t2 [|p [|x [|? ?]]]]]]; try discriminate Heq.
      injection Heq as Hh Ht1 Ht2 Hp Hs. exists h, t1, t2, p. repeat split; try done.
      right. by exists x.
  - intros (h & t1 & t2 & p & Hh & Ht1 & Ht2 & Hp & [->|(x & Hx & ->)]); [left|right];
      cbn [fmap list_fmap]; rewrite ?Hh, ?Ht1, ?Ht2, ?Hp, ?Hx; reflexivity.
Qed.

Lemma match_piuri s c rest c' :
  Match piuri_pattern s c ("/" :: rest) c' <->
  c' = c /\ exists p, piuri_text p /\ s = p ++ "/" :: rest.
Proof.
  unfold piuri_pattern. fold path_segment.
  cbn [sequence foldr RegExpFacts.Match]. split.
  - intros (s1 & c1 & (h & -> & Hh & ->) & s2 & c2 & (t1 & -> & Ht1 & ->) &
            s3 & c3 & (t2 & -> & Ht2 & ->) & s4 & c4 & (p & -> & Hp & ->) &
            s5 & c5 & Hopt & s6 & c6 & (x6 & -> & Hcolon & ->) &
            s7 & c7 & (x7 & -> & Hs1 & ->) & s8 & c8 & (x8 & -> & Hs2 & ->) &
            s9 & c9 & Hhost & s10 & c10 & Hfirst & Hpath).
    apply chr_colon in Hcolon as ->. apply chr_slash in Hs1 as ->.
    apply chr_slash in Hs2 as ->.
    apply match_segment in Hhost as (-> & host & Hhost & ->).
    apply match_path in Hpath as (-> & segs & Hsegs & ->).
    destruct (path_starts_with_slash segs rest) as [rest' Hrest'].
    rewrite Hrest' in Hfirst.
    apply match_path_segment in Hfirst as (-> & seg & Hseg & Hnot & ->).
    rewrite <- Hrest' in Hopt.
    assert (Hpiuri : forall scheme, scheme_text scheme ->
              piuri_text (scheme ++ list_ascii_of_string "://" ++ host
                          ++ concat ((fun x => "/" :: x) <$> (seg :: segs)))).
    { intros scheme Hscheme. exists scheme, host, (seg :: segs).
      split; [done|]. split; [done|]. split; [done|]. split; [by constructor|done]. }
    destruct Hopt as [[(s & -> & Hs & ->) _]|[<- ->]].
    + split; [done|].
      eexists. split; [apply (Hpiuri [h; t1; t2; p; s])|].
      * apply scheme_chars. exists h, t1, t2, p. repeat split; try done.
        right. by exists s.
      * by list_eq.
    + split; [done|].
      eexists. split; [apply (Hpiuri [h; t1; t2; p])|].
      * apply scheme_chars. exists h, t1, t2, p. repeat split; try done. by left.
      * by list_eq.
  - intros (-> & p0 & (scheme & host & segs & Hscheme & Hhost & Hne & Hsegs & ->) & ->).
    destruct Hsegs as [|seg segs [Hseg Hnot] Hsegs]; [done|].
    set (path := concat ((fun x => "/" :: x) <$> segs) ++ "/" :: rest).
    destruct (path_starts_with_slash segs rest) as [rest' Hrest'].
    assert (Htail : forall s,
              s = ":" :: "/" :: "/" :: host ++ "/" :: seg ++ path ->
              exists s6 c6, (exists x, s = x :: s6 /\ canonicalize x = canonicalize ":" /\ c6 = c) /\
              exists s7 c7, (exists x, s6 = x :: s7 /\ canonicalize x = canonicalize "/" /\ c7 = c6) /\
              exists s8 c8, (exists x, s7 = x :: s8 /\ canonicalize x = canonicalize "/" /\ c8 = c7) /\
              exists s9 c9, Match segment s8 c8 s9 c9 /\
              exists s10 c10, Match path_segment s9 c9 s10 c10 /\
                              star_rel (Match path_segment) s10 c10 ("/" :: rest) c).
    { intros s ->. eexists _, c. split; [by eexists|].
      eexists _, c. split; [by eexists|]. eexists _, c. split; [by eexists|].
      exists ("/" :: seg ++ path), c. split.
      { apply match_segment. split; [done|]. by exists host. }
      exists path, c. split.
      - unfold path. rewrite Hrest'. apply match_path_segment. split; [done|]. by exists seg.
      - apply match_path. split; [done|]. by exists segs. }
    apply scheme_chars in Hscheme
      as (h & t1 & t2 & p & Hh & Ht1 & Ht2 & Hp & [->|(x & Hx & ->)]).
    + list_eq. fold path.
      eexists _, c. split; [by exists h|]. eexists _, c. split; [by exists t1|].
      eexists _, c. split; [by exists t2|]. eexists _, c. split; [by exists p|].
      eexists _, c. split; [by right|]. by apply Htail.
    + list_eq. fold path.
      eexists _, c. split; [by exists h|]. eexists _, c. split; [by exists t1|].
      eexists _, c. split; [by exists t2|]. eexists _, c. split; [by exists p|].
      eexists _, c. split.
      { left. split; [by exists x|]. cbn [length]. lia. }
      by apply Htail.
Qed.

Lemma consumed_app (pre s' : list ascii) : consumed (pre ++ s') s' = pre.
Proof.
  unfold consumed. rewrite length_app.
  replace (length pre + length s' - length s')%nat with (length pre) by lia.
  by rewrite take_app_length.
Qed.

(** The captures of a match of the whole expression. *)
Definition groups_of (p v t : list ascii) : captures :=
  [("messageURIType"%string, t); ("version"%string, v); ("piuri"%string, p)].

Lemma match_re l s' c' :
  Match re l [] s' c' <->
  s' = [] /\ length l = input_length /\
  exists p v t, piuri_text p /\ version_text v /\ type_text t /\
                l = p ++ "/" :: v ++ "/" :: t /\ c' = groups_of p v t.
Proof.
  unfold re. cbn [sequence foldr RegExpFacts.Match]. split.
  - intros (s1 & c1 & (-> & -> & Hlen) & s2 & c2 & (c2' & Hp & ->) &
            s3 & c3 & (x & -> & Hx & ->) & s4 & c4 & (c4' & Hv & ->) &
            s5 & c5 & (y & -> & Hy & ->) & s6 & c6 & (c6' & Ht & ->) &
            (-> & -> & ->)).
    apply chr_slash in Hx as ->. apply chr_slash in Hy as ->.
    apply match_piuri in Hp as (-> & p & Hp & ->).
    apply match_version in Hv as (-> & v & Hv & ->).
    apply match_type in Ht as (-> & t & Ht & ->).
    split; [done|]. split; [done|]. exists p, v, t.
    split; [done|]. split; [done|]. split; [done|]. split; [by rewrite app_nil_r|].
    unfold groups_of.
    rewrite (consumed_app t []), (consumed_app v ("/" :: t ++ [])),
      (consumed_app p ("/" :: v ++ "/" :: t ++ [])). done.
  - intros (-> & Hlen & p & v & t & Hp & Hv & Ht & -> & ->).
    exists (p ++ "/" :: v ++ "/" :: t), []. split; [done|].
    exists ("/" :: v ++ "/" :: t), [("piuri"%string, p)]. split.
    { exists []. split; [|by rewrite consumed_app].
      apply match_piuri. split; [done|]. by exists p. }
    exists (v ++ "/" :: t), [("piuri"%string, p)]. split; [by exists "/"|].
    exists ("/" :: t), [("version"%string, v); ("piuri"%string, p)]. split.
    { exists [("piuri"%string, p)]. split; [|by rewrite consumed_app].
      apply match_version. split; [done|]. by exists v. }
    exists t, [("version"%string, v); ("piuri"%string, p)]. split; [by exists "/"|].
    exists [], (groups_of p v t). split; [|done].
    exists [("version"%string, v); ("piuri"%string, p)]. split.
    + apply match_type. split; [done|]. exists t. by rewrite app_nil_r.
    + unfold groups_of. rewrite <- (app_nil_r t) at 2. by rewrite consumed_app.
Qed.

(** A text splits in one way only into PIURI, version and type. *)
Lemma split_unique p v t p' v' t' :
  version_text v -> type_text t -> version_text v' -> type_text t' ->
  p ++ "/" :: v ++ "/" :: t = p' ++ "/" :: v' ++ "/" :: t' ->
  p = p' /\ v = v' /\ t = t'.
Proof.
  intros Hv Ht Hv' Ht' Heq.
  change (p ++ "/" :: v ++ "/" :: t) with (p ++ ("/" :: v) ++ "/" :: t) in Heq.
  change (p' ++ "/" :: v' ++ "/" :: t') with (p' ++ ("/" :: v') ++ "/" :: t') in Heq.
  rewrite !app_assoc in Heq.
  apply split_at_last in Heq as [Heq ->]; [|by apply type_no_slash..].
  apply split_at_last in Heq as [-> ->]; [done|by apply version_no_slash..].
Qed.

(** The first match in backtracking order, on the whole input. *)
Lemma matches_re l caps :
  length l = input_length ->
  matches input_length re l [] (fun _ caps' => Some caps') = Some caps <->
  exists p v t, piuri_text p /\ version_text v /\ type_text t /\
                l = p ++ "/" :: v ++ "/" :: t /\ caps = groups_of p v t.
Proof.
  intros Hlen. destruct (matches_correct input_length re) as [Hsound Hcomplete].
  assert (Hto : forall caps',
            matches input_length re l [] (fun _ caps' => Some caps') = Some caps' ->
            exists p v t, piuri_text p /\ version_text v /\ type_text t /\
                          l = p ++ "/" :: v ++ "/" :: t /\ caps' = groups_of p v t).
  { intros caps' Hrun. apply Hsound in Hrun as (s' & c' & Hmatch & [= ->]).
    apply match_re in Hmatch as (_ & _ & Hsplit). exact Hsplit. }
  split; [apply Hto|].
  intros (p & v & t & Hp & Hv & Ht & Hl & ->).
  destruct (Hcomplete l [] [] (groups_of p v t) (fun _ caps' => Some caps')
              (groups_of p v t)) as [caps' Hrun]; [|done|].
  { apply match_re. split; [done|]. split; [done|]. by exists p, v, t. }
  rewrite Hrun. f_equal.
  destruct (Hto _ Hrun) as (p' & v' & t' & Hp' & Hv' & Ht' & Hl' & ->).
  rewrite Hl in Hl'. by apply split_unique in Hl' as (-> & -> & ->).
Qed.

(** After the start of the input the expression cannot match. *)
Lemma exec_from_later (s : list ascii) :
  (length s < input_length)%nat -> exec_from input_length re s = None.
Proof.
  assert (Hbol : forall s' : list ascii,
            (length s' < input_length)%nat ->
            matches input_length re s' [] (fun _ caps => Some caps) = None).
  { intros s' Hlt. unfold re. cbn [sequence foldr matches].
    destruct (Nat.eqb_spec (length s') input_length); [lia|done]. }
  induction s as [|x s IH]; intros Hlt; cbn [exec_from]; rewrite Hbol by done; [done|].
  apply IH. cbn [length] in Hlt. lia.
Qed.

End Matching.

Lemma length_list_ascii_of_string (s : string) :
  length (list_ascii_of_string s) = String.length s.
Proof. induction s as [|x s IH]; cbn; [done|by rewrite IH]. Qed.

Lemma list_ascii_of_append (a b : string) :
  list_ascii_of_string (a +:+ b) = list_ascii_of_string a ++ list_ascii_of_string b.
Proof.
  induction a as [|x a IH]; [done|].
  rewrite ReportProblemFacts.app_String. cbn [list_ascii_of_string app]. by rewrite IH.
Qed.

Lemma string_of_list_app (a b : list ascii) :
  string_of_list_ascii (a ++ b) = string_of_list_ascii a +:+ string_of_list_ascii b.
Proof.
  induction a as [|x a IH]; [done|].
  cbn [string_of_list_ascii app]. by rewrite ReportProblemFacts.app_String, IH.
Qed.

Lemma exec_re (messageType : string) :
  exec re messageType
  = matches (String.length messageType) re (list_ascii_of_string messageType) []
      (fun _ caps => Some caps).
Proof.
  unfold exec. destruct (list_ascii_of_string messageType) as [|x l] eqn:Hl;
    cbn [exec_from]; destruct (matches _ re _ [] _); try done.
  apply exec_from_later. rewrite <- length_list_ascii_of_string, Hl. cbn. lia.
Qed.

Lemma group_lookup (p v t : list ascii) :
  group "piuri" (groups_of p v t) = string_of_list_ascii p /\
  group "version" (groups_of p v t) = string_of_list_ascii v /\
  group "messageURIType" (groups_of p v t) = string_of_list_ascii t.
Proof. done. Qed.

(** What [getMessageType] answers, in terms of the split of the text. *)
Lemma getMessageType_split (messageType : string) :
  (exists p v t,
     piuri_text p /\ version_text v /\ type_text t /\
     list_ascii_of_string messageType = p ++ "/" :: v ++ "/" :: t /\
     getMessageType messageType
     = ok {| piuri := string_of_list_ascii p; version := string_of_list_ascii v;
             type := string_of_list_ascii t |}) \/
  ((~ exists p v t,
      piuri_text p /\ version_text v /\ type_text t /\
      list_ascii_of_string messageType = p ++ "/" :: v ++ "/" :: t) /\
   getMessageType messageType
   = throw (PlainError ("Invalid DIDComm message type: " +:+ messageType))).
Proof.
  unfold getMessageType. rewrite exec_re.
  pose proof (matches_re (String.length messageType)
                (list_ascii_of_string messageType)) as Hrun.
  destruct (matches _ re _ [] _) as [caps|].
  - left. destruct (proj1 (Hrun caps (length_list_ascii_of_string _)) eq_refl)
      as (p & v & t & Hp & Hv & Ht & Hl & ->).
    exists p, v, t. by destruct (group_lookup p v t) as (-> & -> & ->).
  - right. split; [|done]. intros (p & v & t & Hp & Hv & Ht & Hl).
    assert (None = Some (groups_of p v t)) as Hno; [|discriminate Hno].
    apply (Hrun _ (length_list_ascii_of_string _)). by exists p, v, t.
Qed.

Lemma list_ascii_of_full (mt : IDIDCommMessageType) :
  list_ascii_of_string (getFullMessageType mt)
  = list_ascii_of_string (piuri mt) ++ "/" :: list_ascii_of_string (version mt)
    ++ "/" :: list_ascii_of_string (type mt).
Proof. unfold getFullMessageType. by rewrite !list_ascii_of_append. Qed.

(** A well-formed message type is read back from its text. *)
Lemma getMessageType_round_trip (mt : IDIDCommMessageType) :
  well_formed mt -> getMessageType (getFullMessageType mt) = ok mt.
Proof.
  intros (Hp' & Hv' & Ht').
  destruct (getMessageType_split (getFullMessageType mt))
    as [(p & v & t & Hp & Hv & Ht & Hl & Hrun)|[Hnone Hrun]].
  - rewrite Hrun. f_equal. rewrite list_ascii_of_full in Hl.
    apply split_unique in Hl as (<- & <- & <-); [|done..].
    destruct mt as [mp mv mty]. cbn [piuri version type].
    by rewrite !string_of_list_ascii_of_string.
  - destruct Hnone.
    exists (list_ascii_of_string (piuri mt)), (list_ascii_of_string (version mt)),
           (list_ascii_of_string (type mt)).
    split; [done|]. split; [done|]. split; [done|]. apply list_ascii_of_full.
Qed.

(** X25. [getMessageType] accepts exactly the texts
    [piuri/version/type] in which the PIURI is http or https (in any
    case), [://], a host and one or more path segments none of which is
    a version number, the version is numbers separated by dots, and the
    type is non-empty without slash, question mark or hash.  It returns
    these three parts, so that [getFullMessageType] gives the text back,
    and [getMessageType] of the [getFullMessageType] of such a message
    type is that message type; every other text is refused with the
    error that quotes it. *)
Theorem getMessageType_inverse_of_getFullMessageType (messageType : string) :
  (forall mt,
     getMessageType messageType = ok mt <->
     well_formed mt /\ getFullMessageType mt = messageType) /\
  ((forall mt, well_formed mt -> getFullMessageType mt <> messageType) ->
   getMessageType messageType
   = throw (PlainError ("Invalid DIDComm message type: " +:+ messageType))).
Proof.
  assert (Hparsed : forall mt,
            getMessageType messageType = ok mt ->
            well_formed mt /\ getFullMessageType mt = messageType).
  { intros mt Hrun.
    destruct (getMessageType_split messageType)
      as [(p & v & t & Hp & Hv & Ht & Hl & Hrun')|[_ Hrun']];
      rewrite Hrun' in Hrun; [|discriminate Hrun].
    injection Hrun as <-. split.
    - unfold well_formed. cbn [piuri version type].
      by rewrite !list_ascii_of_string_of_list_ascii.
    - rewrite <- (string_of_list_ascii_of_string messageType), Hl.
      unfold getFullMessageType. cbn [piuri version type].
      change (p ++ "/" :: v ++ "/" :: t) with (p ++ ["/"] ++ v ++ ["/"] ++ t).
      by rewrite !string_of_list_app. }
  split.
  - intros mt. split; [apply Hparsed|].
    intros [Hwf <-]. by apply getMessageType_round_trip.
  - intros Hno.
    destruct (getMessageType_split messageType)
      as [(p & v & t & Hp & Hv & Ht & Hl & Hrun)|[_ Hrun]]; [|done].
    destruct (Hparsed _ Hrun) as [Hwf Hfull]. destruct (Hno _ Hwf Hfull).
Qed.

End MessageTypeFacts.
(** ** ObservableStore: who is notified *)

Module ObservableExtras.
Import ObservableStore.

(** Whether the last thing done with a listener was to subscribe it. *)
Fixpoint subscribed (listener : Listener) (ops : list Operation) (before : bool) : bool :=
  match ops with
  | [] => before
  | Subscribe l :: rest =>
      subscribed listener rest (if bool_decide (l = listener) then true else before)
  | Unsubscribe l :: rest =>
      subscribed listener rest (if bool_decide (l = listener) then false else before)
  | Notify :: rest => subscribed listener rest before
  end.

#[local] Instance Operation_eq_dec : EqDecision Operation.
Proof. solve_decision. Defined.

(** The number of notifications made. *)
Definition notifications (ops : list Operation) : Z :=
  Z.of_nat (length (filter (fun op => op = Notify) ops)).

Lemma elem_of_subscribe (store : Store) (l' l : Listener) :
  l ∈ _listeners (subscribe store l') <-> l = l' \/ l ∈ _listeners store.
Proof.
  cbn. case_bool_decide as Hin.
  - split; [by right|]. by intros [->|?].
  - rewrite elem_of_app, list_elem_of_singleton. split; intros [?|?]; auto.
Qed.

Lemma elem_of_unsubscribe (store : Store) (l' l : Listener) :
  l ∈ _listeners (unsubscribe store l').2 <-> l <> l' /\ l ∈ _listeners store.
Proof. cbn. by rewrite list_elem_of_filter. Qed.

Lemma apply_keeps (ops : list Operation) :
  forall store,
    NoDup (_listeners store) ->
    let store' := fold_left apply ops store in
    NoDup (_listeners store') /\
    (forall l, l ∈ _listeners store'
               <-> subscribed l ops (bool_decide (l ∈ _listeners store)) = true) /\
    _version store' = (_version store + notifications ops)%Z.
Proof.
  unfold notifications.
  induction ops as [|op ops IH]; intros store Hnd; cbv zeta.
  { cbn. split; [done|]. split; [|lia]. intros l. by rewrite bool_decide_eq_true. }
  cbn [fold_left subscribed].
  assert (Hstep : NoDup (_listeners (apply store op))).
  { destruct op as [l|l|]; cbn; [|by apply NoDup_filter|done].
    case_bool_decide; [done|]. apply NoDup_app. split; [done|].
    split; [|apply NoDup_singleton]. intros x Hx Hx'.
    apply list_elem_of_singleton in Hx'. by subst. }
  destruct (IH _ Hstep) as (Hnd' & Hin & Hversion). split; [exact Hnd'|]. split.
  - intros l. rewrite Hin. destruct op as [l'|l'|]; cbn [apply]; [| |done].
    + rewrite (bool_decide_ext _ _ (elem_of_subscribe store l' l)).
      destruct (decide (l' = l)) as [->|Hne].
      * rewrite (bool_decide_eq_true_2 (l = l)) by done.
        by rewrite (bool_decide_eq_true_2 (l = l \/ _)) by (by left).
      * rewrite (bool_decide_eq_false_2 (l' = l)) by done.
        replace (bool_decide (l = l' \/ l ∈ _listeners store))
          with (bool_decide (l ∈ _listeners store)); [done|].
        apply bool_decide_ext. split; [by right|]. by intros [->|?].
    + rewrite (bool_decide_ext _ _ (elem_of_unsubscribe store l' l)).
      destruct (decide (l' = l)) as [->|Hne].
      * rewrite (bool_decide_eq_true_2 (l = l)) by done.
        by rewrite (bool_decide_eq_false_2 (l <> l /\ _)) by (by intros [? _]).
      * rewrite (bool_decide_eq_false_2 (l' = l)) by done.
        replace (bool_decide (l <> l' /\ l ∈ _listeners store))
          with (bool_decide (l ∈ _listeners store)); [done|].
        apply bool_decide_ext. split; [by split|]. by intros [_ ?].
  - rewrite Hversion. rewrite filter_cons.
    destruct op as [l|l|]; case_decide; try done; cbn; lia.
Qed.

(** X26. Who is notified.  After any sequence of subscriptions,
    cancellations and notifications on a new store, [_notify] calls each
    listener at most once, and calls exactly the listeners with which
    the last thing done was to subscribe them: a listener subscribed
    several times is silenced by one call of the function that
    [subscribe] returned.  The version counts the notifications. *)
Theorem notify_calls_current_subscribers (ops : list Operation) :
  let store := fold_left apply ops new in
  let called := (_notify store).1 in
  NoDup called /\
  (forall listener, listener ∈ called <-> subscribed listener ops false = true) /\
  _version store = notifications ops /\
  _version (_notify store).2 = (notifications ops + 1)%Z.
Proof.
  cbv zeta. destruct (apply_keeps ops new) as (Hnd & Hin & Hversion).
  { cbn. constructor. }
  cbn [_notify fst snd _version]. split; [exact Hnd|]. split.
  - intros l. rewrite Hin. cbn [new _listeners].
    by rewrite (bool_decide_eq_false_2 (l ∈ [])) by apply not_elem_of_nil.
  - rewrite Hversion. cbn [new _version]. split; lia.
Qed.

End ObservableExtras.
(** ** The plugin with [getMessageType]: messages reach the protocol
       registered for them *)

Module DispatchExtras.
Import DIDComm JSMap DIDCommProtocolsPlugin DIDCommUtils.

Section Facts.
Context {Handler Args : Type}.
Variable name version piuri : Handler -> string.
Variable has_handle : Handler -> bool.
Variable stringify : Handler -> string.
Variable DEFAULT_PROTOCOLS : list Handler.
Variable args_type : Args -> string.
Variable createMessage : Handler -> Args -> Result IDIDCommMessage.

(** X27. A protocol that the plugin's constructor registered, whose
    PIURI and version are well formed, is the one found for every
    message type [piuri/version/type] of its own, and the one whose
    [createMessage] builds the messages of these types: the key under
    which a protocol is registered is the key that [getMessageType]
    leads to. *)
Theorem messages_reach_their_protocol
    (protocols : list Handler) (registry : JSMap.t Handler) (p : Handler)
    (t : string) (args : Args) :
  constructor name version piuri has_handle stringify DEFAULT_PROTOCOLS protocols
    = ok registry ->
  p ∈ (DEFAULT_PROTOCOLS ++ protocols)%list ->
  MessageTypeFacts.well_formed {| DIDComm.piuri := piuri p; DIDComm.version := version p;
                                  type := t |} ->
  let messageType := piuri p +:+ "/" +:+ version p +:+ "/" +:+ t in
  getDIDCommProtocol getMessageType registry messageType = ok p /\
  (args_type args = messageType ->
   createProtocolMessage getMessageType args_type createMessage registry args
   = createMessage p args).
Proof.
  intros Hc Hp Hwf. cbv zeta.
  pose proof (MessageTypeFacts.getMessageType_round_trip _ Hwf) as Hparse.
  unfold getFullMessageType in Hparse. cbn [DIDComm.piuri DIDComm.version type] in Hparse.
  assert (Hget : JSMap.get registry (piuri p +:+ "/" +:+ version p) = Some p).
  { unfold constructor in Hc.
    apply (PluginExtras.fold_register name version piuri has_handle stringify)
      in Hc as (_ & Hnd & _ & ->).
    cbn [app JSMap.empty]. apply PluginExtras.get_elem.
    - unfold keys. by rewrite <- list_fmap_compose.
    - apply list_elem_of_fmap. by exists p. }
  split.
  - unfold getDIDCommProtocol. rewrite Hparse. cbn [bind ok DIDComm.piuri DIDComm.version].
    by rewrite Hget.
  - intros Htype. unfold createProtocolMessage. rewrite Htype, Hparse.
    cbn [bind ok DIDComm.piuri DIDComm.version]. by rewrite Hget.
Qed.

End Facts.

Lemma version_starts_with_digit (x : ascii) (v : list ascii) :
  MessageTypeFacts.version_text (x :: v) -> MessageTypeFacts.is_digit x = true.
Proof.
  intros (d & ds & [Hne Hd] & _ & Heq). destruct Hd as [|y d Hy _]; [done|].
  by injection Heq as ->.
Qed.

Lemma coralkm_type_well_formed :
  MessageTypeFacts.well_formed
    {| DIDComm.piuri := Fixtures.d_piuri Fixtures.coralkm_descriptor;
       DIDComm.version := Fixtures.d_version Fixtures.coralkm_descriptor;
       type := "guardian-request" |}.
Proof.
  split; [|split].
  - exists (list_ascii_of_string "https"), (list_ascii_of_string "coralstack.com"),
           [list_ascii_of_string "coralkm"].
    split; [by right|]. split.
    { split; [done|]. repeat (constructor; [done|]). constructor. }
    split; [done|]. split; [|done].
    constructor; [|constructor]. split.
    + split; [done|]. repeat (constructor; [done|]). constructor.
    + intros Hv. apply version_starts_with_digit in Hv. discriminate Hv.
  - exists (list_ascii_of_string "0"), [list_ascii_of_string "1"].
    split; [split; [done|by repeat constructor]|].
    split; [|done]. constructor; [|constructor]. split; [done|by repeat constructor].
  - split; [done|].
    repeat (constructor; [by apply MessageTypeFacts.class_type|]). constructor.
Qed.

(** The CoralKM protocol, registered after the three default protocols,
    is found for its guardian-request message type. *)
Lemma messages_reach_their_protocol_witness :
  getDIDCommProtocol getMessageType
    (Fixtures.default_registry
     ++ [("https://coralstack.com/coralkm/0.1", Fixtures.coralkm_descriptor)])%list
    "https://coralstack.com/coralkm/0.1/guardian-request"
  = ok Fixtures.coralkm_descriptor.
Proof.
  refine (proj1 (messages_reach_their_protocol (Args := unit)
                   Fixtures.d_name Fixtures.d_version Fixtures.d_piuri
                   (fun _ => true) Fixtures.d_name
                   [Fixtures.trust_ping; Fixtures.discovery; Fixtures.report_problem]
                   (fun _ => EmptyString) (fun _ _ => throw (PlainError EmptyString))
                   [Fixtures.coralkm_descriptor] _ Fixtures.coralkm_descriptor
                   "guardian-request" tt eq_refl _ coralkm_type_well_formed)).
  apply elem_of_app. right. by left.
Defined.

End DispatchExtras.
